(** * Basin hopping driver (basinhopping.py): shallow embedding and properties

    The driver [BasinHopping] orchestrates collaborators it knows nothing
    about: a potential, a perturbation, a quench routine, accept tests,
    observers, a storage sink and an output stream.  They are arbitrary Python
    callables: they may keep private state, mutate the arrays they can reach,
    and raise.  The embedding therefore has

    - a heap of arrays addressed by references ([loc]), because the driver
      passes numpy arrays by reference and copies them explicitly;
    - an abstract private state [W] of the collaborators;
    - outcomes [Ok]/[Raise], because the driver has no [try];
    - a trace of the collaborator calls the driver makes, appended by the
      driver's call sites, which the collaborators cannot reach.  An entry
      names the callee and keeps the store it was entered with and what came
      back; [threaded] says of a trace that each entry is a call of the
      named collaborator that took place in the store the call before it
      left.

    Energies are values of an abstract type [float]: the driver never
    computes with them, it only passes them around. *)

From Stdlib Require Import String.
From stdpp Require Import base numbers list.

Open Scope Z_scope.

(** ** Python values *)

(** A reference to a numpy array in the heap. *)
Abbreviation loc := nat.

(** A raised exception, identified by its class name. *)
Inductive exn := PyExc (cls : string).

Inductive Outcome (A : Type) :=
| Ok (a : A)
| Raise (e : exn).
Arguments Ok {A} a.
Arguments Raise {A} e.

Definition is_ok {A} (o : Outcome A) : bool :=
  match o with Ok _ => true | Raise _ => false end.

(** The name the specification gives to a failed construction. *)
Definition InvalidInitialStateError : exn := PyExc "InvalidInitialStateError".

Section Driver.

Context {float W : Type}.

(** What a collaborator can see and change: the arrays and its own state. *)
Record Store := mkStore {
  heap : list (list float);
  ext : W
}.

(** A Python callable, applied to its arguments. *)
Definition Callee (A : Type) := Store -> Outcome A * Store.

(** [energy = potential.getEnergy(coords)],
    [energy, gradient = potential.getEnergyGradient(coords)]. *)
Record Potential := mkPotential {
  getEnergy : loc -> Callee float;
  getEnergyGradient : loc -> Callee (float * loc)
}.

(** [accept = test(Eold, Enew, new_coords)]; the result is its truth value. *)
Definition AcceptTest := float -> float -> loc -> Callee bool.
(** [event(Equench_new, newcoords, acceptstep)]. *)
Definition Event := float -> loc -> bool -> Callee unit.
(** [storage(energy, coords)].  The driver also tests the object itself,
    [if(self.storage):], so a storage is a callable together with its truth
    value: what [__nonzero__] answers, or whether [__len__] is not 0, and
    true for an object that has neither, such as a function or a bound
    method.  The truth value may depend on the store (a container is false
    while it is empty); taking it is taken to have no effect and not to
    raise. *)
Record Storage := mkStorage {
  __nonzero__ : Store -> bool;
  __call__ : float -> loc -> Callee unit
}.
(** [takeStep(coords)], in place. *)
Definition TakeStep := loc -> Callee unit.
(** [newcoords, E, rms, funcalls = quenchRoutine(coords, getEnergyGradient)]. *)
Definition QuenchRoutine :=
  loc -> (loc -> Callee (float * loc)) -> Callee (loc * float * float * Z).

(** What the driver writes to [outstream], before formatting: the line
    ["initial energy ..."] and the line ["Qu ..."], whose [accepted=] part is
    absent in the constructor. *)
Inductive Msg :=
| MsgInitial (potel : float)
| MsgQu (stepnum : Z) (E : float) (funcalls : Z) (rms : float) (markovE : float)
        (accepted : option bool).
Definition OutStream := Msg -> Callee unit.

(** An instance of [accept_tests.metropolis.Metropolis]: the driver uses only
    its bound method [acceptReject]. *)
Record MetropolisT := mkMetropolis { acceptReject : AcceptTest }.

(** The fields of [self]. *)
Record BasinHopping := mkBasinHopping {
  coords : loc;
  storage : option Storage;
  potential : Potential;
  takeStep : TakeStep;
  event_after_step : list Event;
  acceptTests : list AcceptTest;
  temperature : float;
  nometropolis : bool;
  quenchRoutine : QuenchRoutine;
  outstream : OutStream;
  metrop_test : option MetropolisT;
  stepnum : Z;
  rms : float;
  funcalls : Z;
  markovE : float
}.

(** ** Trace of collaborator calls

    Callables have no identity that can be compared: the trace names an
    accept test or an observer by its position in the driver's list. *)

Inductive Call :=
| CGetEnergy (c : loc)
| CWrite (m : Msg)
| CStorage (E : float) (c : loc)
| CQuench (c : loc)
| CTakeStep (c : loc)
| CTest (i : nat) (Eold Enew : float) (c : loc)
| CEvent (i : nat) (E : float) (c : loc) (acceptstep : bool).

Inductive Ret :=
| RUnit
| RBool (b : bool)
| RFloat (E : float)
| RQuench (c : loc) (E rms : float) (funcalls : Z)
| RRaise (e : exn).

(** One call the driver made: the callee and its arguments, the store the
    callee was entered with, and what came back. *)
Record Entry := mkEntry {
  e_call : Call;
  e_store : Store;
  e_ret : Ret
}.

(** ** The machine and its monad *)

Record Machine (S : Type) := mkMachine {
  self : S;
  store : Store;
  trace : list Entry
}.
Arguments mkMachine {S}.
Arguments self {S}.
Arguments store {S}.
Arguments trace {S}.

Definition M (S A : Type) := Machine S -> Outcome A * Machine S.

Definition ret {S A} (a : A) : M S A := fun m => (Ok a, m).

Definition bind {S A B} (x : M S A) (k : A -> M S B) : M S B :=
  fun m => match x m with
           | (Ok a, m') => k a m'
           | (Raise e, m') => (Raise e, m')
           end.

Definition get_self {S} : M S S := fun m => (Ok (self m), m).

Definition modify_self {S} (f : S -> S) : M S unit :=
  fun m => (Ok tt, mkMachine (f (self m)) (store m) (trace m)).

Definition ret_of {A} (r : A -> Ret) (o : Outcome A) : Ret :=
  match o with Ok a => r a | Raise e => RRaise e end.

(** A call of a collaborator; the call and what came back are logged. *)
Definition call {S A} (c : Call) (r : A -> Ret) (f : Callee A) : M S A :=
  fun m => let (o, s') := f (store m) in
           (o, mkMachine (self m) s'
                 (trace m ++ [mkEntry c (store m) (ret_of r o)])).

(** [a.copy()] and [copy.copy(a)] on an array: a new array with the same
    contents, at the first free reference.  Python keeps an array alive as
    long as it is referenced; a store in which a reference the driver holds
    leads nowhere is out of Python's reach, and the machine stops there with
    an exception. *)
Definition copy {S} (a : loc) : M S loc :=
  fun m => match heap (store m) !! a with
           | Some v =>
               (Ok (length (heap (store m))),
                mkMachine (self m)
                  (mkStore (heap (store m) ++ [v]) (ext (store m))) (trace m))
           | None => (Raise (PyExc "AttributeError"), m)
           end.

(** [for x in xs: body], with the locals the body assigns as [acc]; [i] is
    the position of [x], used to name the callee in the trace. *)
Fixpoint for_in {S A B} (i : nat) (xs : list A)
    (body : nat -> A -> B -> M S B) (acc : B) : M S B :=
  match xs with
  | [] => ret acc
  | x :: xs' => bind (body i x acc) (fun acc' => for_in (Datatypes.S i) xs' body acc')
  end.

(** [xrange(n)], for an [n] that fits a C long: there Python 2 gives the
    integers from 0 up to [n], none for [n <= 0].  For an [n] beyond that
    range it raises [OverflowError] before the loop begins; the bounds differ
    between platforms, and [c_long] is the range every platform has. *)
Definition xrange (n : Z) : list Z := map Z.of_nat (seq 0 (Z.to_nat n)).

Definition c_long (n : Z) : Prop := - 2 ^ 31 <= n <= 2 ^ 31 - 1.

End Driver.

Arguments mkMachine {float W S}.
Arguments self {float W S}.
Arguments store {float W S}.
Arguments trace {float W S}.
Arguments Store : clear implicits.
Arguments Callee : clear implicits.
Arguments Potential : clear implicits.
Arguments AcceptTest : clear implicits.
Arguments Event : clear implicits.
Arguments Storage : clear implicits.
Arguments TakeStep : clear implicits.
Arguments QuenchRoutine : clear implicits.
Arguments Msg : clear implicits.
Arguments OutStream : clear implicits.
Arguments MetropolisT : clear implicits.
Arguments BasinHopping : clear implicits.
Arguments Call : clear implicits.
Arguments Ret : clear implicits.
Arguments Entry : clear implicits.
Arguments Machine : clear implicits.
Arguments M : clear implicits.

Declare Scope py_scope.
Delimit Scope py_scope with py.
Notation "x <- c ;; k" := (bind c (fun x => k))
  (at level 90, c at next level, right associativity) : py_scope.
Notation "c ;;; k" := (bind c (fun _ => k))
  (at level 90, right associativity) : py_scope.
Open Scope py_scope.

(** ** The class BasinHopping *)

Section Methods.

Context {float W : Type}.

(** [accept_tests.metropolis.Metropolis], the class behind the default accept
    test: the driver only constructs it from the temperature. *)
Variable Metropolis : float -> MetropolisT float W.

Local Abbreviation BH := (BasinHopping float W).

(** Assignments to the fields of [self]. *)
Definition set_stepnum (n : Z) (s : BH) : BH :=
  mkBasinHopping (coords s) (storage s) (potential s) (takeStep s)
    (event_after_step s) (acceptTests s) (temperature s) (nometropolis s)
    (quenchRoutine s) (outstream s) (metrop_test s)
    n (rms s) (funcalls s) (markovE s).

Definition set_rms_funcalls (r : float) (f : Z) (s : BH) : BH :=
  mkBasinHopping (coords s) (storage s) (potential s) (takeStep s)
    (event_after_step s) (acceptTests s) (temperature s) (nometropolis s)
    (quenchRoutine s) (outstream s) (metrop_test s)
    (stepnum s) r f (markovE s).

Definition set_coords (c : loc) (s : BH) : BH :=
  mkBasinHopping c (storage s) (potential s) (takeStep s)
    (event_after_step s) (acceptTests s) (temperature s) (nometropolis s)
    (quenchRoutine s) (outstream s) (metrop_test s)
    (stepnum s) (rms s) (funcalls s) (markovE s).

Definition set_markovE (E : float) (s : BH) : BH :=
  mkBasinHopping (coords s) (storage s) (potential s) (takeStep s)
    (event_after_step s) (acceptTests s) (temperature s) (nometropolis s)
    (quenchRoutine s) (outstream s) (metrop_test s)
    (stepnum s) (rms s) (funcalls s) E.

Definition r_unit : unit -> Ret float := fun _ => RUnit.
Definition r_quench : loc * float * float * Z -> Ret float :=
  fun '(c, E, r, f) => RQuench c E r f.

(** The truth value of [self.storage] in a store: [None] is false. *)
Definition truth_value (storage : option (Storage float W)) (s : Store float W)
  : bool :=
  match storage with
  | Some st => __nonzero__ st s
  | None => false
  end.

(** [if(self.storage): self.storage(E, coords)]. *)
Definition store_if {S} (storage : option (Storage float W)) (E : float) (c : loc)
  : M float W S unit :=
  fun m =>
    match storage with
    | Some st =>
        if __nonzero__ st (store m)
        then call (CStorage E c) r_unit (__call__ st E c) m
        else ret tt m
    | None => ret tt m
    end.

(** [BasinHopping.__init__]: the copies of the two lists are copies of
    immutable values here; the fields are collected in locals and the object
    is returned once they are all set. *)
Definition __init__ (coords : loc) (potential : Potential float W)
    (takeStep : TakeStep float W) (storage : option (Storage float W))
    (event_after_step : list (Event float W))
    (acceptTests : list (AcceptTest float W))
    (temperature : float) (nometropolis : bool)
    (quenchRoutine : QuenchRoutine float W) (outstream : OutStream float W)
  : M float W unit BH :=
  self_coords <- copy coords ;;
  let metrop_test :=
    if negb nometropolis then Some (Metropolis temperature) else None in
  let self_acceptTests :=
    match metrop_test with
    | Some mt => acceptTests ++ [acceptReject mt]
    | None => acceptTests
    end in
  let stepnum := 0 in
  potel <- call (CGetEnergy self_coords) RFloat (getEnergy potential self_coords) ;;
  call (CWrite (MsgInitial potel)) r_unit (outstream (MsgInitial potel)) ;;;
  store_if storage potel self_coords ;;;
  bind (call (CQuench self_coords) r_quench
          (quenchRoutine self_coords (getEnergyGradient potential)))
    (fun '(newcoords, Equench, rms, funcalls) =>
  let Equench_new := Equench in
  let line := MsgQu stepnum Equench funcalls rms Equench_new None in
  call (CWrite line) r_unit (outstream line) ;;;
  let self_coords := newcoords in
  let markovE := Equench in
  store_if storage Equench self_coords ;;;
  ret (mkBasinHopping self_coords storage potential takeStep event_after_step
         self_acceptTests temperature nometropolis quenchRoutine outstream
         metrop_test stepnum rms funcalls markovE)).

(** [BasinHopping.mcStep]. *)
Definition mcStep (coordsold : loc) (Equench_old : float)
  : M float W BH (bool * loc * float) :=
  coords <- copy coordsold ;;
  this <- get_self ;;
  call (CTakeStep coords) r_unit (takeStep this coords) ;;;
  this <- get_self ;;
  bind (call (CQuench coords) r_quench
          (quenchRoutine this coords (getEnergyGradient (potential this))))
    (fun '(qcoords, Equench, rms, funcalls) =>
  modify_self (set_rms_funcalls rms funcalls) ;;;
  this <- get_self ;;
  acceptstep <-
    for_in 0 (acceptTests this)
      (fun i test acceptstep =>
         r <- call (CTest i Equench_old Equench qcoords) RBool
                (test Equench_old Equench qcoords) ;;
         ret (if negb r then false else acceptstep))
      true ;;
  ret (acceptstep, qcoords, Equench)).

(** The body of the loop of [run]; its result is the three locals it
    assigns, which the loop itself does not use. *)
Definition run_body : M float W BH (bool * loc * float) :=
  modify_self (fun s => set_stepnum (stepnum s + 1) s) ;;;
  this <- get_self ;;
  bind (mcStep (coords this) (markovE this))
    (fun '(acceptstep, newcoords, newE) =>
  this <- get_self ;;
  (let line := MsgQu (stepnum this) newE (funcalls this) (rms this)
                 (markovE this) (Some acceptstep) in
   call (CWrite line) r_unit (outstream this line)) ;;;
  (if acceptstep then
     this <- get_self ;;
     store_if (storage this) newE newcoords ;;;
     modify_self (set_coords newcoords) ;;;
     modify_self (set_markovE newE)
   else ret tt) ;;;
  this <- get_self ;;
  for_in 0 (event_after_step this)
    (fun i event _ =>
       this <- get_self ;;
       call (CEvent i (markovE this) (coords this) acceptstep) r_unit
         (event (markovE this) (coords this) acceptstep))
    tt ;;;
  ret (acceptstep, newcoords, newE)).

(** [BasinHopping.run]. *)
Definition run (nsteps : Z) : M float W BH unit :=
  for_in 0 (xrange nsteps) (fun _ istep _ => run_body ;;; ret tt) tt.

End Methods.

(** ** Reading the trace *)

Section Observations.

Context {float W : Type}.

Local Abbreviation BH := (BasinHopping float W).
Local Abbreviation Mach := (Machine float W BH).

Definition is_test (c : Call float) : bool :=
  match c with CTest _ _ _ _ => true | _ => false end.
Definition is_event (c : Call float) : bool :=
  match c with CEvent _ _ _ _ => true | _ => false end.
Definition is_storage (c : Call float) : bool :=
  match c with CStorage _ _ => true | _ => false end.
Definition is_takeStep (c : Call float) : bool :=
  match c with CTakeStep _ => true | _ => false end.
(** The line of [run] that reports an accepted step. *)
Definition is_accepted (c : Call float) : bool :=
  match c with CWrite (MsgQu _ _ _ _ _ (Some true)) => true | _ => false end.
(** A line of [run], one per step that reached its report. *)
Definition is_step (c : Call float) : bool :=
  match c with CWrite (MsgQu _ _ _ _ _ (Some _)) => true | _ => false end.

(** The calls of a kind, in the order they were made. *)
Definition calls (p : Call float -> bool) (tr : list (Entry float W))
  : list (Call float) :=
  List.filter p (map e_call tr).

(** What was logged between two machine states. *)
Definition new_trace {S S'} (m : Machine float W S) (m' : Machine float W S')
  : list (Entry float W) :=
  drop (length (trace m)) (trace m').

(** The constructed object placed in the machine the constructor left. *)
Definition with_self {S} (b : BH) (w : Machine float W S) : Mach :=
  mkMachine b (store w) (trace w).

(** The fields the methods never assign. *)
Definition same_collaborators (s s' : BH) : Prop :=
  storage s' = storage s /\ potential s' = potential s /\
  takeStep s' = takeStep s /\ event_after_step s' = event_after_step s /\
  acceptTests s' = acceptTests s /\ quenchRoutine s' = quenchRoutine s /\
  outstream s' = outstream s.

(** The body of the loop over [self.acceptTests] in [mcStep]. *)
Definition test_body (Eold Enew : float) (q : loc)
  : nat -> AcceptTest float W -> bool -> M float W BH bool :=
  fun i test acceptstep =>
    r <- call (CTest i Eold Enew q) RBool (test Eold Enew q) ;;
    ret (if negb r then false else acceptstep).

(** The block under [if acceptstep:] in [run]. *)
Definition commit_step (acceptstep : bool) (newcoords : loc) (newE : float)
  : M float W BH unit :=
  if acceptstep then
    this <- get_self ;;
    store_if (storage this) newE newcoords ;;;
    modify_self (set_coords newcoords) ;;;
    modify_self (set_markovE newE)
  else ret tt.

(** The body of the loop over [self.event_after_step] in [run]. *)
Definition event_body (acceptstep : bool)
  : nat -> Event float W -> unit -> M float W BH unit :=
  fun i event _ =>
    this <- get_self ;;
    call (CEvent i (markovE this) (coords this) acceptstep) r_unit
      (event (markovE this) (coords this) acceptstep).

(** The calls to the accept tests of one step, as the source makes them. *)
Definition test_calls_of (n : nat) (Eold Enew : float) (q : loc)
  : list (Call float) :=
  map (fun i => CTest i Eold Enew q) (seq 0 n).

(** The notifications of one step, as the source makes them. *)
Definition event_calls_of (n : nat) (E : float) (c : loc) (acceptstep : bool)
  : list (Call float) :=
  map (fun i => CEvent i E c acceptstep) (seq 0 n).

(** The truth values the accept tests returned, in call order. *)
Definition test_results (tr : list (Entry float W)) : list bool :=
  omap (fun e => match e_call e, e_ret e with
                 | CTest _ _ _ _, RBool b => Some b
                 | _, _ => None
                 end) tr.

(** The Markov state: the fields [coords] and [markovE]. *)
Definition markov (s : BH) : loc * float := (coords s, markovE s).

(** [n] iterations of the loop of [run]. *)
Fixpoint run_loop (n : nat) : M float W BH unit :=
  match n with
  | O => ret tt
  | Datatypes.S n' => (run_body ;;; ret tt) ;;; run_loop n'
  end.

(** The machine after each iteration of the loop of [run], up to and
    including the first one that raises. *)
Fixpoint run_states (n : nat) (m : Mach)
  : list (Outcome (bool * loc * float) * Mach) :=
  match n with
  | O => []
  | Datatypes.S n' =>
      let r := run_body m in
      r :: (if is_ok (fst r) then run_states n' (snd r) else [])
  end.


(** The Markov energy after each iteration of a sequence of calls of [run],
    each call starting where the previous one stopped, whether it returned
    or raised. *)
Fixpoint markov_energies (ns : list Z) (m : Mach) : list float :=
  match ns with
  | [] => []
  | n :: ns' =>
      map (fun r => markovE (self (snd r))) (run_states (Z.to_nat n) m)
      ++ markov_energies ns' (snd (run n m))
  end.

Section Order.

Variable leb : float -> float -> bool.

(** Each energy is [<=] the one before it. *)
Fixpoint non_increasing (l : list float) : Prop :=
  match l with
  | a :: (b :: _) as t => leb b a = true /\ non_increasing t
  | _ => True
  end.

(** An accept test that answers [new_energy <= old_energy] when it answers. *)
Definition descent_test (t : AcceptTest float W) : Prop :=
  forall Eold Enew q s b s',
    t Eold Enew q s = (Ok b, s') -> b = leb Enew Eold.

End Order.

(** An accept test that never answers true. *)
Definition always_false (t : AcceptTest float W) : Prop :=
  forall Eold Enew q s s', t Eold Enew q s <> (Ok true, s').

(** A callee that writes to no array that existed before the call, except
    the one at [l]. *)
Definition writes_only {A} (l : loc) (f : Callee float W A) : Prop :=
  forall s o s' (l' : loc),
    f s = (o, s') -> l' <> l -> (l' < length (heap s))%nat ->
    heap s' !! l' = heap s !! l'.

(** A quench routine that returns the array it was given or a new one. *)
Definition returns_own (q : QuenchRoutine float W) : Prop :=
  forall l g s c E r f s',
    q l g s = (Ok (c, E, r, f), s') -> c = l \/ (length (heap s) <= c)%nat.

(** The collaborators of a step keep to the arrays they are handed. *)
Definition keeps_to_arguments (b : BH) : Prop :=
  (forall l, writes_only l (takeStep b l)) /\
  (forall l, writes_only l (quenchRoutine b l (getEnergyGradient (potential b)))) /\
  returns_own (quenchRoutine b) /\
  Forall (fun t : AcceptTest float W =>
            forall Eold Enew q, writes_only q (t Eold Enew q)) (acceptTests b).

End Observations.

(** ** Specifications of the fragments of the methods *)

Section Specifications.

Context {float W : Type}.

Local Abbreviation BH := (BasinHopping float W).
Local Abbreviation Mach := (Machine float W BH).

(** [wp c Q m]: running [c] from [m] ends in an outcome and a machine
    that satisfy [Q]. *)
Definition wp {S A} (c : M float W S A)
    (Q : Outcome A -> Machine float W S -> Prop) (m : Machine float W S)
  : Prop :=
  Q (fst (c m)) (snd (c m)).

Section Tests.

Variables (Eold Enew : float) (q : loc).

(** What the loop over the accept tests, entered at position [i] with
    [acceptstep = acc], leaves behind. *)
Definition tests_post (i : nat) (tests : list (AcceptTest float W)) (acc : bool)
    (m : Mach) (o : Outcome bool) (m' : Mach) : Prop :=
  self m' = self m /\
  exists tr,
    trace m' = trace m ++ tr /\
    (length tr <= length tests)%nat /\
    (forall (k : nat) x, tr !! k = Some x ->
       e_call x = CTest (i + k) Eold Enew q /\
       exists t r s', tests !! k = Some t /\
         t Eold Enew q (e_store x) = (r, s') /\ e_ret x = ret_of RBool r) /\
    (Forall (fun t : AcceptTest float W =>
               forall a b c, writes_only c (t a b c)) tests ->
     forall l' : loc, l' <> q -> (l' < length (heap (store m)))%nat ->
       heap (store m') !! l' = heap (store m) !! l') /\
    match o with
    | Ok b =>
        length tr = length tests /\
        (forall y, y ∈ tr -> exists b', e_ret y = RBool b') /\
        length (test_results tr) = length tests /\
        b = acc && forallb id (test_results tr)
    | Raise e =>
        exists tr0 x, tr = tr0 ++ [x] /\ e_ret x = RRaise e /\
          forall y, y ∈ tr0 -> exists b', e_ret y = RBool b'
    end.

End Tests.

(** What the loop over the observers, entered at position [i], leaves
    behind. *)
Definition events_post (acceptstep : bool) (i : nat)
    (events : list (Event float W))
    (m : Mach) (o : Outcome unit) (m' : Mach) : Prop :=
  self m' = self m /\
  exists tr,
    trace m' = trace m ++ tr /\
    (length tr <= length events)%nat /\
    (forall (k : nat) x, tr !! k = Some x ->
       e_call x = CEvent (i + k) (markovE (self m)) (coords (self m)) acceptstep) /\
    match o with
    | Ok _ => length tr = length events /\ forall x, x ∈ tr -> e_ret x = RUnit
    | Raise e =>
        exists tr0 x, tr = tr0 ++ [x] /\ e_ret x = RRaise e /\
          forall y, y ∈ tr0 -> e_ret y = RUnit
    end.

(** The calls [mcStep] makes: the perturbation, the quench, the tests. *)
Definition step_call (c : Call float) : Prop :=
  match c with
  | CTakeStep _ | CQuench _ | CTest _ _ _ _ => True
  | _ => False
  end.

(** What [mcStep(coordsold, Equench_old)] leaves behind. *)
Definition mcStep_post (coordsold : loc) (Equench_old : float)
    (m : Mach) (o : Outcome (bool * loc * float)) (m' : Mach) : Prop :=
  same_collaborators (self m) (self m') /\
  markov (self m') = markov (self m) /\
  stepnum (self m') = stepnum (self m) /\
  exists tr,
    trace m' = trace m ++ tr /\
    (forall x, x ∈ tr -> step_call (e_call x)) /\
    (forall x, x ∈ tr -> is_takeStep (e_call x) = true ->
       e_call x = CTakeStep (length (heap (store m))) /\
       exists v, heap (store m) !! coordsold = Some v /\
                 heap (e_store x) = heap (store m) ++ [v]) /\
    (forall x e, x ∈ tr -> e_ret x = RRaise e -> o = Raise e) /\
    (keeps_to_arguments (self m) ->
     forall l' : loc, (l' < length (heap (store m)))%nat ->
       heap (store m') !! l' = heap (store m) !! l') /\
    match o with
    | Ok (acceptstep, qcoords, Equench) =>
        exists e1 e2 ttr,
          tr = e1 :: e2 :: ttr /\
          e_call e1 = CTakeStep (length (heap (store m))) /\
          e_call e2 = CQuench (length (heap (store m))) /\
          e_ret e2 = RQuench qcoords Equench (rms (self m')) (funcalls (self m')) /\
          (forall (k : nat) x, ttr !! k = Some x ->
             e_call x = CTest k Equench_old Equench qcoords /\
             exists t r s', acceptTests (self m) !! k = Some t /\
               t Equench_old Equench qcoords (e_store x) = (r, s') /\
               e_ret x = ret_of RBool r) /\
          length ttr = length (acceptTests (self m)) /\
          (forall y, y ∈ ttr -> exists b', e_ret y = RBool b') /\
          length (test_results ttr) = length (acceptTests (self m)) /\
          acceptstep = forallb id (test_results ttr)
    | Raise _ => True
    end.

(** What the block under [if acceptstep:] leaves behind. *)
Definition commit_post (acceptstep : bool) (newcoords : loc) (newE : float)
    (m : Mach) (o : Outcome unit) (m' : Mach) : Prop :=
  same_collaborators (self m) (self m') /\
  stepnum (self m') = stepnum (self m) /\
  rms (self m') = rms (self m) /\ funcalls (self m') = funcalls (self m) /\
  exists tr,
    trace m' = trace m ++ tr /\
    match o with
    | Ok _ =>
        markov (self m') =
          (if acceptstep then (newcoords, newE) else markov (self m)) /\
        map e_call tr =
          (if acceptstep && truth_value (storage (self m)) (store m)
           then [CStorage newE newcoords] else []) /\
        forall x, x ∈ tr -> e_ret x = RUnit
    | Raise e =>
        markov (self m') = markov (self m) /\ acceptstep = true /\
        exists x, tr = [x] /\ e_call x = CStorage newE newcoords /\
                  e_ret x = RRaise e
    end.

(** The step committed its candidate: the Markov state is what the quench
    returned, the step was reported as accepted, and every accept test
    answered true for it. *)
Definition committed (m : Mach) (tr : list (Entry float W)) (m' : Mach) : Prop :=
  (exists y c, y ∈ tr /\ e_call y = CQuench c /\
     e_ret y = RQuench (coords (self m')) (markovE (self m'))
                 (rms (self m')) (funcalls (self m'))) /\
  calls is_accepted tr <> [] /\
  forall (k : nat) t, acceptTests (self m) !! k = Some t ->
    exists s s', t (markovE (self m)) (markovE (self m')) (coords (self m')) s
                 = (Ok true, s').

(** The store in which an iteration of [run] tests the storage: the one the
    output stream left when it returned from writing the line of the step. *)
Definition line_left (m : Mach) (tr : list (Entry float W))
    (sw : Store float W) : Prop :=
  exists w line,
    w ∈ tr /\ e_call w = CWrite line /\ is_step (CWrite line) = true /\
    outstream (self m) line (e_store w) = (Ok tt, sw).

(** The line [run] writes for a step. *)
Definition step_line (m m' : Mach) (E : float) (acceptstep : bool) : Call float :=
  CWrite (MsgQu (stepnum (self m')) E (funcalls (self m')) (rms (self m'))
            (markovE (self m)) (Some acceptstep)).

(** What one iteration of the loop of [run] leaves behind. *)
Definition run_body_post (m : Mach) (o : Outcome (bool * loc * float))
    (m' : Mach) : Prop :=
  same_collaborators (self m) (self m') /\
  stepnum (self m') = stepnum (self m) + 1 /\
  exists tr,
    trace m' = trace m ++ tr /\
    (forall x e, x ∈ tr -> e_ret x = RRaise e ->
       o = Raise e /\
       (is_event (e_call x) = false -> markov (self m') = markov (self m)) /\
       (is_event (e_call x) = true ->
        exists i acceptstep,
          e_call x = CEvent i (markovE (self m')) (coords (self m')) acceptstep /\
          (acceptstep = false -> markov (self m') = markov (self m)) /\
          (acceptstep = true -> committed m tr m'))) /\
    (markov (self m') = markov (self m) \/ committed m tr m') /\
    (calls is_accepted tr = [] -> markov (self m') = markov (self m)) /\
    match o with
    | Ok (acceptstep, newcoords, newE) =>
        markov (self m') =
          (if acceptstep then (newcoords, newE) else markov (self m)) /\
        calls is_test tr =
          test_calls_of (length (acceptTests (self m))) (markovE (self m))
            newE newcoords /\
        length (test_results tr) = length (acceptTests (self m)) /\
        acceptstep = forallb id (test_results tr) /\
        calls is_step tr = [step_line m m' newE acceptstep] /\
        calls is_accepted tr =
          (if acceptstep then [step_line m m' newE acceptstep] else []) /\
        (exists sw,
           line_left m tr sw /\
           calls is_storage tr =
             if acceptstep && truth_value (storage (self m)) sw
             then [CStorage newE newcoords] else []) /\
        (exists pre evs,
           tr = pre ++ evs /\ calls is_event pre = [] /\
           map e_call evs =
             event_calls_of (length (event_after_step (self m)))
               (markovE (self m')) (coords (self m')) acceptstep) /\
        (exists y c, y ∈ tr /\ e_call y = CQuench c /\
           e_ret y = RQuench newcoords newE (rms (self m')) (funcalls (self m')))
    | Raise _ => True
    end.

(** The driver has the test [t] alone, and a Markov energy that compares
    [<=] to itself. *)
Definition descending (leb : float -> float -> bool) (t : AcceptTest float W)
    (m : Mach) : Prop :=
  acceptTests (self m) = [t] /\
  leb (markovE (self m)) (markovE (self m)) = true.

Section Init.

Variable Metropolis : float -> MetropolisT float W.
Variables (coords0 : loc) (potential0 : Potential float W)
  (takeStep0 : TakeStep float W) (storage0 : option (Storage float W))
  (event_after_step0 : list (Event float W))
  (acceptTests0 : list (AcceptTest float W))
  (temperature0 : float) (nometropolis0 : bool)
  (quenchRoutine0 : QuenchRoutine float W) (outstream0 : OutStream float W).

(** The calls of a constructor that returns, given the energy [potel] of the
    copy [c] of the starting point, the object [b] that was built, and the
    truth values of the storage at the two places where it is tested. *)
Definition init_calls (c : loc) (potel : float) (b : BH)
    (stored1 stored2 : bool) : list (Call float) :=
  [CGetEnergy c; CWrite (MsgInitial potel)]
  ++ (if stored1 then [CStorage potel c] else [])
  ++ [CQuench c;
      CWrite (MsgQu 0 (markovE b) (funcalls b) (rms b) (markovE b) None)]
  ++ (if stored2 then [CStorage (markovE b) (coords b)] else []).

(** The stores in which the constructor tests the storage: the ones the
    output stream left when it returned from writing each of the two
    lines. *)
Definition lines_left (potel : float) (b : BH) (tr : list (Entry float W))
    (s1 s2 : Store float W) : Prop :=
  exists w1 w2 : Entry float W,
    let line := MsgQu 0 (markovE b) (funcalls b) (rms b) (markovE b) None in
    w1 ∈ tr /\ e_call w1 = CWrite (MsgInitial potel) /\
    outstream0 (MsgInitial potel) (e_store w1) = (Ok tt, s1) /\
    w2 ∈ tr /\ e_call w2 = CWrite line /\
    outstream0 line (e_store w2) = (Ok tt, s2).

(** What the constructor leaves behind. *)
Definition init_post (w : Machine float W unit) (o : Outcome BH)
    (w' : Machine float W unit) : Prop :=
  exists tr,
    trace w' = trace w ++ tr /\
    (forall x e, x ∈ tr -> e_ret x = RRaise e -> o = Raise e) /\
    match o with
    | Ok b =>
        acceptTests b =
          acceptTests0 ++
          (if nometropolis0 then []
           else [acceptReject (Metropolis temperature0)]) /\
        metrop_test b =
          (if nometropolis0 then None else Some (Metropolis temperature0)) /\
        storage b = storage0 /\ event_after_step b = event_after_step0 /\
        potential b = potential0 /\ takeStep b = takeStep0 /\
        quenchRoutine b = quenchRoutine0 /\ outstream b = outstream0 /\
        temperature b = temperature0 /\ nometropolis b = nometropolis0 /\
        stepnum b = 0 /\
        exists potel x y,
          (exists s1 s2,
             lines_left potel b tr s1 s2 /\
             map e_call tr =
               init_calls (length (heap (store w))) potel b
                 (truth_value storage0 s1) (truth_value storage0 s2)) /\
          x ∈ tr /\ e_call x = CGetEnergy (length (heap (store w))) /\
          e_ret x = RFloat potel /\
          y ∈ tr /\ e_call y = CQuench (length (heap (store w))) /\
          e_ret y = RQuench (coords b) (markovE b) (rms b) (funcalls b)
    | Raise _ => True
    end.

End Init.

End Specifications.

(** ** A concrete landscape

    The landscape of the driver's intended use, with integer coordinates:
    the potential [E(x, y) = x^2 + y^2], a quench that returns the array it
    is given with its energy, and a perturbation that adds a fixed vector.
    The private state of the collaborators is a counter of the calls that
    chose to count themselves. *)

Module Scenario.

Abbreviation St := (Store Z nat).

Definition energy (v : list Z) : Z := foldr (fun x acc => x * x + acc) 0 v.

Definition bump (s : St) : St := mkStore (heap s) (S (ext s)).

Definition getE : loc -> Callee Z nat Z :=
  fun l s =>
    match heap s !! l with
    | Some v => (Ok (energy v), s)
    | None => (Raise (PyExc "IndexError"), s)
    end.

(** The gradient is a new array. *)
Definition getEG : loc -> Callee Z nat (Z * loc) :=
  fun l s =>
    match heap s !! l with
    | Some v =>
        (Ok (energy v, length (heap s)),
         mkStore (heap s ++ [map (Z.mul 2) v]) (ext s))
    | None => (Raise (PyExc "IndexError"), s)
    end.

Definition quadratic : Potential Z nat := mkPotential getE getEG.

Definition identity_quench : QuenchRoutine Z nat :=
  fun l g s =>
    match g l s with
    | (Ok (E, _), s') => (Ok (l, E, 0, 1), s')
    | (Raise e, s') => (Raise e, s')
    end.

Definition shift (d : list Z) : TakeStep Z nat :=
  fun l s =>
    match heap s !! l with
    | Some v => (Ok tt, mkStore (<[l := zip_with Z.add v d]> (heap s)) (ext s))
    | None => (Raise (PyExc "IndexError"), s)
    end.

Definition downhill : AcceptTest Z nat :=
  fun Eold Enew _ s => (Ok (Enew <=? Eold), s).
Definition reject : AcceptTest Z nat := fun _ _ _ s => (Ok false, bump s).
Definition accept : AcceptTest Z nat := fun _ _ _ s => (Ok true, bump s).

Definition watch : Event Z nat := fun _ _ _ s => (Ok tt, bump s).

Definition keep : Storage Z nat :=
  mkStorage (fun _ => true) (fun _ _ s => (Ok tt, s)).
Definition out : OutStream Z nat := fun _ s => (Ok tt, s).

Definition broken_potential : Potential Z nat :=
  mkPotential (fun _ s => (Raise (PyExc "ValueError"), s)) getEG.
Definition broken_quench : QuenchRoutine Z nat :=
  fun _ _ s => (Raise (PyExc "RuntimeError"), s).

(** A deterministic stand-in for the Metropolis test: uphill moves of at
    most [T] are taken. *)
Definition Metropolis (T : Z) : MetropolisT Z nat :=
  mkMetropolis (fun Eold Enew _ s => (Ok (Enew <=? Eold + T), s)).

(** The caller's world: one array, the starting point [(3, 0)]. *)
Definition world : Machine Z nat unit :=
  mkMachine tt (mkStore [[3; 0]] O) [].

(** A driver as [__init__] leaves it from [world] (the copy at 1, the
    gradient the quench asked for at 2), with the given tests, observers,
    storage and perturbation, and no default Metropolis test. *)
Definition driver (tests : list (AcceptTest Z nat)) (events : list (Event Z nat))
    (sink : option (Storage Z nat)) (d : list Z)
  : Machine Z nat (BasinHopping Z nat) :=
  mkMachine
    (mkBasinHopping 1%nat sink quadratic (shift d) events tests 1 true
       identity_quench out None 0 0 1 9)
    (mkStore [[3; 0]; [3; 0]; [6; 0]] O) [].

End Scenario.

(** ** Further readings of the trace *)

Section MoreObservations.

Context {float W : Type}.

Local Abbreviation BH := (BasinHopping float W).
Local Abbreviation Mach := (Machine float W BH).

Definition is_quench (c : Call float) : bool :=
  match c with CQuench _ => true | _ => false end.


(** No call of the trace raised. *)
Definition quiet (tr : list (Entry float W)) : Prop :=
  forall x e, x ∈ tr -> e_ret x <> RRaise e.

(** A computation that makes no call after one that raised: when it returns
    none of its calls raised, and when it raises none but possibly the last
    did, and then what the last raised is what it raises. *)
Definition stops_at_raise {S A} (c : M float W S A) : Prop :=
  forall m : Machine float W S,
  exists tr,
    trace (snd (c m)) = trace m ++ tr /\
    match fst (c m) with
    | Ok _ => quiet tr
    | Raise e =>
        quiet tr \/
        exists tr0 x, tr = tr0 ++ [x] /\ quiet tr0 /\ e_ret x = RRaise e
    end.

(** The calls of an iteration of [run] that returns, in the order of the
    source: the perturbation and the quench on the working copy [l], the
    accept tests, the report, the storage of an accepted candidate when the
    truth value [stored] of the storage is true, the observers. *)
Definition iteration_calls (m m' : Mach) (l : loc)
    (acceptstep stored : bool) (newcoords : loc) (newE : float)
  : list (Call float) :=
  [CTakeStep l; CQuench l]
  ++ test_calls_of (length (acceptTests (self m))) (markovE (self m))
       newE newcoords
  ++ [step_line m m' newE acceptstep]
  ++ (if acceptstep && stored then [CStorage newE newcoords] else [])
  ++ event_calls_of (length (event_after_step (self m)))
       (markovE (self m')) (coords (self m')) acceptstep.

(** The Markov configuration and the Markov energy were returned together
    by one call of the quench routine. *)
Definition quenched (m : Mach) : Prop :=
  exists y c r f,
    y ∈ trace m /\ e_call y = CQuench c /\
    e_ret y = RQuench (coords (self m)) (markovE (self m)) r f.

(** What one iteration of [run] does with the storage and in which order it
    calls, whether it returns or raises. *)
Definition order_post (m : Mach) (o : Outcome (bool * loc * float))
    (m' : Mach) : Prop :=
  exists tr,
    trace m' = trace m ++ tr /\
    (storage (self m) = None -> calls is_storage tr = []) /\
    (calls is_storage tr = [] \/
     exists E q y c r f,
       calls is_storage tr = [CStorage E q] /\
       calls is_accepted tr <> [] /\
       y ∈ tr /\ e_call y = CQuench c /\ e_ret y = RQuench q E r f) /\
    (forall x e, x ∈ tr -> is_storage (e_call x) = true ->
       e_ret x = RRaise e -> calls is_event tr = []) /\
    match o with
    | Ok (acceptstep, newcoords, newE) =>
        exists sw,
          line_left m tr sw /\
          map e_call tr =
            iteration_calls m m' (length (heap (store m)))
              acceptstep (truth_value (storage (self m)) sw) newcoords newE
    | Raise _ => True
    end.

End MoreObservations.

(** ** The wrapper [potwrap] of dimer.py

    A potential that records in [trajectory] the points whose gradient was
    asked for.  The points are recorded by reference. *)

Module Potwrap.

Section Potwrap.

Context {float W : Type}.

Record potwrap := mkPotwrap {
  potential : Potential float W;
  trajectory : list loc
}.

(** [potwrap.__init__]. *)
Definition __init__ (potential : Potential float W) : potwrap :=
  mkPotwrap potential [].

(** [potwrap.getEnergyGradient]: the method with the state of the object
    passed explicitly beside the store. *)
Definition getEnergyGradient (this : potwrap) (x : loc) (s : Store float W)
  : Outcome (float * loc) * (potwrap * Store float W) :=
  let this := mkPotwrap (potential this) (trajectory this ++ [x]) in
  let (o, s') := getEnergyGradient (potential this) x s in
  (o, (this, s')).

(** [potwrap.getEnergy]. *)
Definition getEnergy (this : potwrap) (x : loc) (s : Store float W)
  : Outcome float * (potwrap * Store float W) :=
  let (o, s') := getEnergy (potential this) x s in
  (o, (this, s')).

(** What a client asks of the object. *)
Inductive request :=
| Energy (x : loc)
| Gradient (x : loc).

(** A client that makes the requests one after the other, going on after a
    request that raised; it gathers how each request ended. *)
Fixpoint serve (rs : list request) (this : potwrap) (s : Store float W)
  : list bool * (potwrap * Store float W) :=
  match rs with
  | [] => ([], (this, s))
  | Energy x :: rs' =>
      let '(o, (this', s')) := getEnergy this x s in
      let '(os, end_) := serve rs' this' s' in
      (is_ok o :: os, end_)
  | Gradient x :: rs' =>
      let '(o, (this', s')) := getEnergyGradient this x s in
      let '(os, end_) := serve rs' this' s' in
      (is_ok o :: os, end_)
  end.

(** The points of the gradient requests, in order. *)
Definition gradient_points (rs : list request) : list loc :=
  omap (fun r => match r with Gradient x => Some x | Energy _ => None end) rs.

End Potwrap.

Arguments potwrap : clear implicits.

End Potwrap.

(** ** Further collaborators for the concrete landscape *)

Module Cases.


(** A storage that counts what it is given. *)
Definition tally : Storage Z nat :=
  mkStorage (fun _ => true) (fun _ _ s => (Ok tt, Scenario.bump s)).

(** A container that counts what it holds, and is false while it is empty,
    as a Python list is: from an empty start the driver never fills it. *)
Definition shelf : Storage Z nat :=
  mkStorage (fun s => (0 <? ext s)%nat) (fun _ _ s => (Ok tt, Scenario.bump s)).

(** A potential that counts its gradient evaluations and fails from the
    third on. *)
Definition tiring : Potential Z nat :=
  mkPotential Scenario.getE
    (fun l s =>
       if (2 <=? ext s)%nat then (Raise (PyExc "MemoryError"), s)
       else Scenario.getEG l (Scenario.bump s)).

End Cases.

(** ** What the methods leave alone *)

Section Frames.

Context {float W : Type}.

Local Abbreviation BH := (BasinHopping float W).

(** The fields other than [coords], [markovE], [stepnum], [rms] and
    [funcalls]. *)
Definition same_settings (s s' : BH) : Prop :=
  storage s' = storage s /\ potential s' = potential s /\
  takeStep s' = takeStep s /\ event_after_step s' = event_after_step s /\
  acceptTests s' = acceptTests s /\ temperature s' = temperature s /\
  nometropolis s' = nometropolis s /\ quenchRoutine s' = quenchRoutine s /\
  outstream s' = outstream s /\ metrop_test s' = metrop_test s.

(** A computation that leaves those fields of [self] as they are. *)
Definition keeps_settings {A} (c : M float W BH A) : Prop :=
  forall m, same_settings (self m) (self (snd (c m))).

(** What the constructor does with the starting configuration [start],
    whether it returns or raises; [c] is the copy it makes. *)
Definition init_copy_post (start : loc) (storage0 : option (Storage float W))
    (w : Machine float W unit) (o : Outcome BH) (w' : Machine float W unit)
  : Prop :=
  let c := length (heap (store w)) in
  exists tr,
    trace w' = trace w ++ tr /\
    (heap (store w) !! start = None -> tr = [] /\ is_ok o = false) /\
    (forall v, heap (store w) !! start = Some v ->
       exists x rest,
         tr = x :: rest /\ e_call x = CGetEnergy c /\
         e_store x = mkStore (heap (store w) ++ [v]) (ext (store w))) /\
    (forall x a, x ∈ tr ->
       e_call x = CGetEnergy a \/ e_call x = CQuench a -> a = c) /\
    (forall x E a, x ∈ tr -> e_call x = CStorage E a ->
       storage0 <> None /\
       (a = c \/
        exists y r f, y ∈ tr /\ e_call y = CQuench c /\
                      e_ret y = RQuench a E r f)) /\
    (forall x, x ∈ tr ->
       is_takeStep (e_call x) = false /\ is_test (e_call x) = false /\
       is_event (e_call x) = false).

End Frames.

(** ** What a logged call stands for *)

Section Ties.

Context {float W : Type}.

Local Abbreviation BH := (BasinHopping float W).

(** What a callee gives back and the store it leaves, as an entry of the
    trace records them. *)
Definition answer {A} (r : A -> Ret float) (f : Callee float W A)
    (s : Store float W) : Ret float * Store float W :=
  (ret_of r (fst (f s)), snd (f s)).

(** The collaborator of the driver [b] that a call names, applied to the
    arguments of the call; none when [b] has no such collaborator. *)
Definition callee_of (b : BH) (c : Call float)
  : option (Store float W -> Ret float * Store float W) :=
  match c with
  | CGetEnergy l => Some (answer RFloat (getEnergy (potential b) l))
  | CWrite msg => Some (answer r_unit (outstream b msg))
  | CStorage E l =>
      match storage b with
      | Some st => Some (answer r_unit (__call__ st E l))
      | None => None
      end
  | CQuench l =>
      Some (answer r_quench
              (quenchRoutine b l (getEnergyGradient (potential b))))
  | CTakeStep l => Some (answer r_unit (takeStep b l))
  | CTest i Eold Enew l =>
      match acceptTests b !! i with
      | Some t => Some (answer RBool (t Eold Enew l))
      | None => None
      end
  | CEvent i E l acc =>
      match event_after_step b !! i with
      | Some ev => Some (answer r_unit (ev E l acc))
      | None => None
      end
  end.

(** The entry [x] records a call that took place: the collaborator it names
    was applied in the store [e_store x], gave back [e_ret x] and left the
    store [s']; and a storage that was called had a true truth value
    there. *)
Definition applied (b : BH) (x : Entry float W) (s' : Store float W) : Prop :=
  (exists f, callee_of b (e_call x) = Some f /\ f (e_store x) = (e_ret x, s')) /\
  (is_storage (e_call x) = true ->
   truth_value (storage b) (e_store x) = true).

(** Between two calls the driver itself only adds copies of arrays. *)
Inductive grown : Store float W -> Store float W -> Prop :=
| grown_refl s : grown s s
| grown_copy s a v s' :
    heap s !! a = Some v ->
    grown (mkStore (heap s ++ [v]) (ext s)) s' -> grown s s'.

(** The calls of the trace [tr] took place one after the other, from the
    store [s] to the store [s']: each was entered with the store the call
    before it left, grown by the copies the driver made in between. *)
Fixpoint threaded (b : BH) (s : Store float W) (tr : list (Entry float W))
    (s' : Store float W) : Prop :=
  match tr with
  | [] => grown s s'
  | x :: tr' =>
      grown s (e_store x) /\
      exists s1, applied b x s1 /\ threaded b s1 tr' s'
  end.

(** The driver [b] has the collaborators the constructor was given. *)
Definition built_from (b : BH) (pot : Potential float W)
    (sink : option (Storage float W)) (quench : QuenchRoutine float W)
    (out : OutStream float W) : Prop :=
  potential b = pot /\ storage b = sink /\ quenchRoutine b = quench /\
  outstream b = out.

(** A computation all of whose calls are calls of the collaborators of [b],
    threaded through the store; [inv] is what it needs of [self], and
    keeps. *)
Definition tracks {S A} (b : BH) (inv : S -> Prop) (c : M float W S A)
  : Prop :=
  forall m : Machine float W S,
    inv (self m) ->
    inv (self (snd (c m))) /\
    exists tr,
      trace (snd (c m)) = trace m ++ tr /\
      threaded b (store m) tr (store (snd (c m))).

End Ties.

(** * Proof infrastructure *)

(** ** Reasoning about the monad *)

Section Monad.

Context {float W S : Type}.

Local Abbreviation Mach := (Machine float W S).

Lemma wp_ret {A} (a : A) Q (m : Mach) : Q (Ok a) m -> wp (ret a) Q m.
Proof. exact (fun H => H). Qed.

Lemma wp_bind {A B} (x : M float W S A) (k : A -> M float W S B) Q (m : Mach) :
  wp x (fun o m1 => match o with
                    | Ok a => wp (k a) Q m1
                    | Raise e => Q (Raise e) m1
                    end) m ->
  wp (bind x k) Q m.
Proof.
  unfold wp, bind. destruct (x m) as [[a|e] m1]; simpl; auto.
Qed.

Lemma wp_get_self Q (m : Mach) : Q (Ok (self m)) m -> wp get_self Q m.
Proof. exact (fun H => H). Qed.

Lemma wp_modify_self (f : S -> S) Q (m : Mach) :
  Q (Ok tt) (mkMachine (f (self m)) (store m) (trace m)) ->
  wp (modify_self f) Q m.
Proof. exact (fun H => H). Qed.

Lemma wp_call {A} (c : Call float) (r : A -> Ret float) (f : Callee float W A)
    Q (m : Mach) :
  (forall o s', f (store m) = (o, s') ->
     Q o (mkMachine (self m) s' (trace m ++ [mkEntry c (store m) (ret_of r o)]))) ->
  wp (call c r f) Q m.
Proof.
  unfold wp, call. intros H. destruct (f (store m)) as [o s'] eqn:Hf.
  simpl. now apply H.
Qed.

Lemma wp_copy (a : loc) Q (m : Mach) :
  (forall v, heap (store m) !! a = Some v ->
     Q (Ok (length (heap (store m))))
       (mkMachine (self m) (mkStore (heap (store m) ++ [v]) (ext (store m)))
          (trace m))) ->
  (heap (store m) !! a = None -> Q (Raise (PyExc "AttributeError")) m) ->
  wp (copy a) Q m.
Proof.
  unfold wp, copy. intros H1 H2.
  destruct (heap (store m) !! a) as [v|] eqn:Hv; simpl; auto.
Qed.

Lemma wp_store_if (storage : option (Storage float W)) (E : float) (c : loc)
    Q (m : Mach) :
  (forall st, storage = Some st -> truth_value storage (store m) = true ->
     wp (call (CStorage E c) r_unit (__call__ st E c)) Q m) ->
  (truth_value storage (store m) = false -> Q (Ok tt) m) ->
  wp (store_if storage E c) Q m.
Proof.
  intros H1 H2. unfold wp, store_if.
  destruct storage as [st|]; [|now apply H2]. simpl in *.
  destruct (__nonzero__ st (store m)) eqn:Ht; [now apply H1|now apply H2].
Qed.

Lemma wp_mono {A} (c : M float W S A) (Q Q' : Outcome A -> Mach -> Prop) m :
  wp c Q m -> (forall o m', Q o m' -> Q' o m') -> wp c Q' m.
Proof. unfold wp. auto. Qed.

Lemma wp_run {A} (c : M float W S A) Q m :
  wp c Q m -> forall o m', c m = (o, m') -> Q o m'.
Proof. unfold wp. intros H o m' E. now rewrite E in H. Qed.

Lemma wp_intro {A} (c : M float W S A) (Q : Outcome A -> Mach -> Prop) m :
  (forall o m', c m = (o, m') -> Q o m') -> wp c Q m.
Proof. unfold wp. intros H. apply H. now destruct (c m). Qed.

End Monad.

Ltac wp_step :=
  lazymatch goal with
  | |- wp (bind _ _) _ _ => apply wp_bind
  | |- wp (ret _) _ _ => apply wp_ret
  | |- wp get_self _ _ => apply wp_get_self
  | |- wp (modify_self _) _ _ => apply wp_modify_self
  | |- wp (call _ _ _) _ _ =>
      let o := fresh "o" in let s := fresh "s" in let H := fresh "Hcall" in
      apply wp_call; intros o s H
  | |- wp (copy _) _ _ =>
      let v := fresh "v" in let H := fresh "Hcopy" in
      apply wp_copy; [intros v H | intros H]
  | |- wp (store_if _ _ _) _ _ =>
      let t := fresh "st" in let H := fresh "Hst" in let Ht := fresh "Htv" in
      apply wp_store_if; [intros t H Ht | intros Ht]
  | |- wp (if ?b then _ else _) _ _ => destruct b
  end; cbn beta iota; cbn [self store trace] in *.


(** Projections of a [self] that an assignment just rebuilt. *)
Ltac fields :=
  unfold set_stepnum, set_rms_funcalls, set_coords, set_markovE in *;
  cbn [coords storage potential takeStep event_after_step acceptTests
       temperature nometropolis quenchRoutine outstream metrop_test
       stepnum rms funcalls markovE self store trace] in *.

(** ** Lists of calls *)

Section Calls.

Context {float W : Type}.

Lemma calls_app (p : Call float -> bool) (a b : list (Entry float W)) :
  calls p (a ++ b) = calls p a ++ calls p b.
Proof. unfold calls. now rewrite map_app, List.filter_app. Qed.

Lemma test_results_app (a b : list (Entry float W)) :
  test_results (a ++ b) = test_results a ++ test_results b.
Proof. unfold test_results. apply omap_app. Qed.

Lemma calls_none (p : Call float -> bool) (tr : list (Entry float W)) :
  (forall x, x ∈ tr -> p (e_call x) = false) -> calls p tr = [].
Proof.
  unfold calls. induction tr as [|x tr IH]; intros H; simpl; [reflexivity|].
  rewrite (H x) by apply list_elem_of_here.
  apply IH. intros y Hy. apply H. now apply list_elem_of_further.
Qed.

Lemma new_trace_app {S S'} (m : Machine float W S) (m' : Machine float W S') tr :
  trace m' = trace m ++ tr -> new_trace m m' = tr.
Proof. unfold new_trace. intros ->. apply drop_app_length. Qed.

Lemma calls_map (p : Call float -> bool) (tr : list (Entry float W)) cs :
  map e_call tr = cs -> calls p tr = List.filter p cs.
Proof. unfold calls. now intros ->. Qed.

Lemma filter_map_true {A B} (p : B -> bool) (f : A -> B) (l : list A) :
  (forall a, p (f a) = true) -> List.filter p (map f l) = map f l.
Proof.
  intros H. induction l as [|a l IH]; simpl; [reflexivity|].
  now rewrite H, IH.
Qed.

Lemma map_by_index {A B} (f : nat -> B) (g : A -> B) (l : list A) :
  (forall (k : nat) x, l !! k = Some x -> g x = f k) ->
  map g l = map f (seq 0 (length l)).
Proof.
  intros H. apply list_eq. intros k.
  rewrite !list_lookup_fmap.
  destruct (l !! k) as [x|] eqn:Hk; simpl.
  - rewrite (H k x Hk).
    assert (Hlt : (k < length l)%nat) by (apply lookup_lt_is_Some; eauto).
    now rewrite (lookup_seq_lt 0 (length l) k Hlt).
  - apply lookup_ge_None in Hk.
    now rewrite (lookup_seq_ge 0 (length l) k Hk).
Qed.

Lemma test_results_none (tr : list (Entry float W)) :
  (forall x, x ∈ tr -> is_test (e_call x) = false) -> test_results tr = [].
Proof.
  induction tr as [|x tr IH]; intros H; [reflexivity|].
  unfold test_results. simpl.
  pose proof (H x (list_elem_of_here x tr)) as Hx.
  destruct (e_call x); try discriminate; simpl;
    apply IH; intros y Hy; apply H; now apply list_elem_of_further.
Qed.

(** When the conjunction of the answers is true, each answer was true. *)
Lemma test_results_true (tr : list (Entry float W)) :
  forallb id (test_results tr) = true ->
  forall x, x ∈ tr -> is_test (e_call x) = true ->
  forall b, e_ret x = RBool b -> b = true.
Proof.
  induction tr as [|y tr IH]; intros H x Hx Ht b Hb; [inversion Hx|].
  apply elem_of_cons in Hx as [-> | Hx].
  - unfold test_results in H. simpl in H.
    destruct (e_call y); try discriminate. rewrite Hb in H. simpl in H.
    apply andb_prop in H as [H _]. exact H.
  - apply (IH) with (x := x); auto.
    unfold test_results in H. simpl in H.
    destruct (e_call y), (e_ret y); simpl in H; auto;
      apply andb_prop in H as [_ H]; exact H.
Qed.

Lemma step_call_calls (p : Call float -> bool) (tr : list (Entry float W)) :
  (forall c, step_call c -> p c = false) ->
  (forall x, x ∈ tr -> step_call (e_call x)) -> calls p tr = [].
Proof. intros Hp H. apply calls_none. auto. Qed.

End Calls.

(** ** The loop over the accept tests *)

Section TestsLoop.

Context {float W : Type}.

Local Abbreviation BH := (BasinHopping float W).
Local Abbreviation Mach := (Machine float W BH).

Variables (Eold Enew : float) (q : loc).

Lemma tests_loop tests : forall i acc (m : Mach) o m',
  for_in i tests (test_body Eold Enew q) acc m = (o, m') ->
  tests_post Eold Enew q i tests acc m o m'.
Proof.
  induction tests as [|t ts IH]; intros i acc m o m' H; simpl in H.
  - unfold ret in H. injection H as <- <-.
    split; [reflexivity|]. exists []. rewrite app_nil_r.
    split; [reflexivity|]. split; [simpl; lia|].
    split; [intros k x Hx; rewrite lookup_nil in Hx; discriminate|].
    split; [reflexivity|].
    split; [reflexivity|]. split; [intros y Hy; inversion Hy|].
    split; [reflexivity|]. simpl. now rewrite andb_true_r.
  - unfold bind at 1 in H. unfold test_body at 1 in H.
    unfold bind at 1 in H. unfold call, ret in H.
    destruct (t Eold Enew q (store m)) as [[b|e] s1] eqn:Ht.
    + (* the test answers *)
      pose (x := mkEntry (CTest i Eold Enew q) (store m) (RBool b)).
      apply IH in H. destruct H as (Hself & tr & Htr & Hlen & Hk & Hfr & Ho).
      simpl in Hself, Htr. split; [exact Hself|].
      exists (x :: tr). split; [now rewrite Htr, <- app_assoc|].
      split; [simpl; lia|]. split; [|split].
      * intros [|k] y Hy; simpl in Hy.
        -- injection Hy as <-. split; [simpl; f_equal; lia|].
           exists t, (Ok b), s1. simpl. auto.
        -- destruct (Hk k y Hy) as (Hc & Ht').
           split; [rewrite Hc; f_equal; lia | exact Ht'].
      * intros Hall l' Hl' Hlt.
        pose proof (Forall_inv Hall) as Hwt.
        pose proof (Hwt Eold Enew q (store m) (Ok b) s1 l' Ht Hl' Hlt) as E1.
        rewrite <- E1. apply Hfr; simpl.
        -- eapply Forall_inv_tail; eauto.
        -- exact Hl'.
        -- change (l' < length (heap s1))%nat.
           apply lookup_lt_is_Some. rewrite E1.
           now apply lookup_lt_is_Some.
      * destruct o as [b'|e].
        -- destruct Ho as (L1 & L2 & L3 & L4).
           assert (Hx : test_results (x :: tr) = b :: test_results tr)
             by reflexivity.
           split; [simpl; now rewrite L1|].
           split; [intros z Hz; apply elem_of_cons in Hz as [-> | Hz]; eauto|].
           split; [rewrite Hx; simpl; now rewrite L3|].
           rewrite Hx, L4. simpl. unfold id at 1.
           destruct b, acc; reflexivity.
        -- destruct Ho as (tr0 & y & -> & Hy & Htr0).
           exists (x :: tr0), y. repeat split; auto.
           intros z Hz. apply elem_of_cons in Hz as [-> | Hz]; eauto.
    + (* the test raises *)
      injection H as <- <-.
      set (x := mkEntry (CTest i Eold Enew q) (store m) (RRaise e)).
      split; [reflexivity|]. exists [x]. simpl.
      split; [reflexivity|]. split; [lia|]. split; [|split].
      * intros [|k] y Hy; simpl in Hy; [|now rewrite lookup_nil in Hy].
        injection Hy as <-. split; [simpl; f_equal; lia|].
        exists t, (Raise e), s1. simpl. auto.
      * intros Hall l' Hl' Hlt.
        exact (Forall_inv Hall Eold Enew q (store m) (Raise e) s1 l' Ht Hl' Hlt).
      * exists [], x. repeat split; auto. intros y Hy. inversion Hy.
Qed.

End TestsLoop.

(** ** The loop over the observers *)

Section EventsLoop.

Context {float W : Type}.

Local Abbreviation BH := (BasinHopping float W).
Local Abbreviation Mach := (Machine float W BH).

Lemma events_loop acceptstep events : forall i u (m : Mach) o m',
  for_in i events (event_body acceptstep) u m = (o, m') ->
  events_post acceptstep i events m o m'.
Proof.
  induction events as [|ev evs IH]; intros i u m o m' H; simpl in H.
  - unfold ret in H. injection H as <- <-.
    split; [reflexivity|]. exists []. rewrite app_nil_r.
    split; [reflexivity|]. split; [simpl; lia|]. split; [|split].
    + intros k x Hx. rewrite lookup_nil in Hx. discriminate.
    + reflexivity.
    + intros x Hx. inversion Hx.
  - unfold bind at 1 in H. unfold event_body at 1 in H.
    unfold bind at 1 in H. unfold get_self, call in H.
    cbn [fst snd self store trace] in H.
    destruct (ev (markovE (self m)) (coords (self m)) acceptstep (store m))
      as [[[]|e] s1] eqn:Hev.
    + pose (x := mkEntry (CEvent i (markovE (self m)) (coords (self m)) acceptstep)
                   (store m) (@RUnit float)).
      apply IH in H. destruct H as (Hself & tr & Htr & Hlen & Hk & Ho).
      simpl in Hself, Htr, Hk. split; [exact Hself|].
      exists (x :: tr). split; [now rewrite Htr, <- app_assoc|].
      split; [simpl; lia|]. split.
      * intros [|k] y Hy; simpl in Hy.
        -- injection Hy as <-. simpl. f_equal. lia.
        -- rewrite (Hk k y Hy). f_equal. lia.
      * destruct o as [[]|e].
        -- destruct Ho as (L1 & L2). split; [simpl; now rewrite L1|].
           intros z Hz. apply elem_of_cons in Hz as [-> | Hz]; auto.
        -- destruct Ho as (tr0 & y & -> & Hy & Htr0).
           exists (x :: tr0), y. repeat split; auto.
           intros z Hz. apply elem_of_cons in Hz as [-> | Hz]; auto.
    + injection H as <- <-.
      pose (x := mkEntry (CEvent i (markovE (self m)) (coords (self m)) acceptstep)
                   (store m) (@RRaise float e)).
      split; [reflexivity|]. exists [x]. simpl.
      split; [reflexivity|]. split; [lia|]. split.
      * intros [|k] y Hy; simpl in Hy; [|now rewrite lookup_nil in Hy].
        injection Hy as <-. simpl. f_equal. lia.
      * exists [], x. repeat split; auto. intros y Hy. inversion Hy.
Qed.

End EventsLoop.

(** ** One step *)

Section McStep.

Context {float W : Type}.

Local Abbreviation BH := (BasinHopping float W).
Local Abbreviation Mach := (Machine float W BH).

Lemma same_collaborators_refl (s : BH) : same_collaborators s s.
Proof. repeat split. Qed.

Lemma same_collaborators_trans (s1 s2 s3 : BH) :
  same_collaborators s1 s2 -> same_collaborators s2 s3 ->
  same_collaborators s1 s3.
Proof.
  unfold same_collaborators.
  intros (A1 & A2 & A3 & A4 & A5 & A6 & A7) (B1 & B2 & B3 & B4 & B5 & B6 & B7).
  repeat split; congruence.
Qed.

Lemma mcStep_spec c0 E0 (m : Mach) : wp (mcStep c0 E0) (mcStep_post c0 E0 m) m.
Proof.
  unfold mcStep.
  wp_step. wp_step.
  2: { split; [apply same_collaborators_refl|]. do 2 (split; [reflexivity|]).
       exists []. rewrite app_nil_r. split; [reflexivity|].
       split; [intros x Hx; inversion Hx|].
       split; [intros x Hx; inversion Hx|].
       split; [intros x e Hx; inversion Hx|]. split; auto. }
  wp_step. wp_step. wp_step. wp_step.
  set (l := length (heap (store m))) in *.
  set (s1 := mkStore (heap (store m) ++ [v]) (ext (store m))) in *.
  set (e1 := mkEntry (CTakeStep l) s1 (ret_of r_unit o)).
  assert (Hfresh : forall x, x = e1 -> is_takeStep (e_call x) = true ->
            e_call x = CTakeStep l /\
            exists v, heap (store m) !! c0 = Some v /\
                      heap (e_store x) = heap (store m) ++ [v]).
  { intros x -> _. split; [reflexivity|]. exists v. split; auto. }
  destruct o as [[]|e].
  2: { (* the perturbation raises *)
       split; [apply same_collaborators_refl|]. do 2 (split; [reflexivity|]).
       exists [e1]. split; [reflexivity|].
       split; [intros x Hx; apply list_elem_of_singleton in Hx as ->; exact I|].
       split; [intros x Hx; apply list_elem_of_singleton in Hx; auto|].
       split; [intros x e' Hx Hr; apply list_elem_of_singleton in Hx as ->;
               simpl in Hr; congruence|].
       split; [|exact I].
       intros (Ht & _) l' Hl'. cbn [self store trace].
       rewrite (Ht l s1 (Raise e) s l' Hcall) by (subst s1; simpl; rewrite ?length_app; simpl; lia).
       subst s1. simpl. now apply lookup_app_l. }
  assert (F1 : keeps_to_arguments (self m) ->
            forall l' : loc, (l' < l)%nat -> heap s !! l' = heap (store m) !! l').
  { intros (Ht & _) l' Hl'.
    rewrite (Ht l s1 (Ok tt) s l' Hcall)
      by (subst s1; simpl; rewrite ?length_app; simpl; lia).
    subst s1. simpl. now apply lookup_app_l. }
  wp_step. wp_step. wp_step. wp_step.
  set (e2 := mkEntry (CQuench l) s (ret_of r_quench o)).
  assert (F2 : keeps_to_arguments (self m) ->
            forall l' : loc, (l' < l)%nat -> heap s0 !! l' = heap (store m) !! l').
  { intros K l' Hl'. pose proof K as (_ & Hq & _).
    rewrite <- (F1 K l' Hl').
    apply (Hq l s o s0 l' Hcall0); [lia|].
    apply lookup_lt_is_Some. rewrite (F1 K l' Hl').
    apply lookup_lt_is_Some. exact Hl'. }
  destruct o as [[[[qc E] r] f]|e].
  2: { (* the quench raises *)
       split; [apply same_collaborators_refl|]. do 2 (split; [reflexivity|]).
       exists [e1; e2]. split; [now rewrite <- app_assoc|].
       split; [intros x Hx; apply elem_of_cons in Hx as [-> | Hx];
               [|apply list_elem_of_singleton in Hx as ->]; exact I|].
       split; [intros x Hx; apply elem_of_cons in Hx as [-> | Hx];
               [auto|apply list_elem_of_singleton in Hx as ->; discriminate]|].
       split; [intros x e' Hx Hr; apply elem_of_cons in Hx as [-> | Hx];
               [|apply list_elem_of_singleton in Hx as ->];
               cbv in Hr; congruence|].
       split; [|exact I]. intros K l' Hl'. cbn [self store trace]. auto. }
  wp_step. wp_step. wp_step. wp_step. wp_step.
  apply wp_intro. intros ob m' Hloop.
  apply (tests_loop E0 E qc) in Hloop.
  destruct Hloop as (Hself & ttr & Htr & Hlen & Hk & Hfr & Ho).
  cbn [self store trace] in *.
  change (acceptTests (set_rms_funcalls r f (self m)))
    with (acceptTests (self m)) in *.
  change (0 + ?k)%nat with k in Hk.
  assert (Hin : forall x, x ∈ ttr -> exists k, e_call x = CTest k E0 E qc).
  { intros x Hx. apply list_elem_of_lookup in Hx as [k Hx].
    exists k. now destruct (Hk k x Hx). }
  assert (Hpost : forall o' : Outcome (bool * loc * float),
            (forall x e, x ∈ ttr -> e_ret x = RRaise e -> o' = Raise e) ->
            match o' with
            | Ok (a, c, E') =>
                c = qc /\ E' = E /\
                length ttr = length (acceptTests (self m)) /\
                (forall y, y ∈ ttr -> exists b', e_ret y = RBool b') /\
                length (test_results ttr) = length (acceptTests (self m)) /\
                a = forallb id (test_results ttr)
            | Raise _ => True
            end ->
            mcStep_post c0 E0 m o' m').
  { intros o' Hraise Hok.
    split; [rewrite Hself; repeat split|].
    do 2 (split; [now rewrite Hself|]).
    exists (e1 :: e2 :: ttr). split; [now rewrite Htr, <- !app_assoc|].
    split; [|split; [|split; [|split]]].
    - intros x Hx. apply elem_of_cons in Hx as [-> | Hx]; [exact I|].
      apply elem_of_cons in Hx as [-> | Hx]; [exact I|].
      destruct (Hin x Hx) as [k ->]. exact I.
    - intros x Hx Hts. apply elem_of_cons in Hx as [-> | Hx]; [auto|].
      apply elem_of_cons in Hx as [-> | Hx]; [discriminate|].
      destruct (Hin x Hx) as [k Hc]. rewrite Hc in Hts. discriminate.
    - intros x e' Hx Hr. apply elem_of_cons in Hx as [-> | Hx]; [discriminate|].
      apply elem_of_cons in Hx as [-> | Hx]; [discriminate|]. eauto.
    - intros K l' Hl'. pose proof K as (_ & _ & Hown & Hall).
      pose proof (F1 K l' Hl') as G1. pose proof (F2 K l' Hl') as G2.
      assert (Hs : (l' < length (heap s))%nat).
      { apply lookup_lt_is_Some. rewrite G1. apply lookup_lt_is_Some. exact Hl'. }
      assert (Hs0 : (l' < length (heap s0))%nat).
      { apply lookup_lt_is_Some. rewrite G2. apply lookup_lt_is_Some. exact Hl'. }
      rewrite <- G2. apply Hfr; auto.
      destruct (Hown _ _ _ _ _ _ _ _ Hcall0) as [-> | Hge]; lia.
    - destruct o' as [[[a c] E']|e]; [|exact I].
      destruct Hok as (-> & -> & L1 & L2 & L3 & L4).
      exists e1, e2, ttr. rewrite Hself. repeat split; auto.
      + now destruct (Hk k x H).
      + now destruct (Hk k x H). }
  destruct ob as [b|e].
  - wp_step. destruct Ho as (L1 & L2 & L3 & L4). apply Hpost.
    + intros x e Hx Hr. destruct (L2 x Hx) as [b' Hb]. congruence.
    + repeat split; auto.
  - destruct Ho as (tr0 & y & -> & Hy & Htr0). apply Hpost; [|exact I].
    intros x e' Hx Hr. apply elem_of_app in Hx as [Hx | Hx].
    + destruct (Htr0 x Hx) as [b' Hb]. congruence.
    + apply list_elem_of_singleton in Hx as ->. congruence.
Qed.

(** What a step that returned tells about its trace. *)
Lemma mcStep_ok c0 E0 (m : Mach) acc q E m' :
  mcStep_post c0 E0 m (Ok (acc, q, E)) m' ->
  exists tr,
    trace m' = trace m ++ tr /\
    (forall x, x ∈ tr -> step_call (e_call x)) /\
    (forall x e, x ∈ tr -> e_ret x <> RRaise e) /\
    calls is_test tr = test_calls_of (length (acceptTests (self m))) E0 E q /\
    length (test_results tr) = length (acceptTests (self m)) /\
    acc = forallb id (test_results tr) /\
    (exists y c, y ∈ tr /\ e_call y = CQuench c /\
       e_ret y = RQuench q E (rms (self m')) (funcalls (self m'))) /\
    (acc = true ->
     forall (k : nat) t, acceptTests (self m) !! k = Some t ->
       exists s s', t E0 E q s = (Ok true, s')) /\
    (forall (k : nat) t, acceptTests (self m) !! k = Some t ->
       exists x b s', x ∈ tr /\ e_call x = CTest k E0 E q /\
         t E0 E q (e_store x) = (Ok b, s') /\ e_ret x = RBool b).
Proof.
  intros (_ & _ & _ & tr & Htr & Hstep & _ & Hraise & _ & Hok).
  destruct Hok as (e1 & e2 & ttr & -> & He1 & He2 & Hr2 & Hk & L1 & L2 & L3 & L4).
  exists (e1 :: e2 :: ttr). split; [exact Htr|]. split; [exact Hstep|].
  split; [intros x e Hx Hr; specialize (Hraise x e Hx Hr); discriminate|].
  assert (Hres : test_results (e1 :: e2 :: ttr) = test_results ttr).
  { unfold test_results. simpl. now rewrite He1, He2. }
  assert (Hans : forall (k : nat) t, acceptTests (self m) !! k = Some t ->
            exists x b s', x ∈ ttr /\ e_call x = CTest k E0 E q /\
              t E0 E q (e_store x) = (Ok b, s') /\ e_ret x = RBool b).
  { intros k t Ht.
    assert (Hlt : (k < length ttr)%nat)
      by (rewrite L1; apply lookup_lt_is_Some; eauto).
    apply lookup_lt_is_Some in Hlt as [x Hx].
    destruct (Hk k x Hx) as (Hc & t' & r & s' & Ht' & Hrun & Hret).
    assert (t' = t) by congruence. subst t'.
    assert (Hin : x ∈ ttr) by (apply list_elem_of_lookup; eauto).
    destruct (L2 x Hin) as [b Hb].
    destruct r as [b'|e]; simpl in Hret; [|congruence].
    assert (b' = b) by congruence. subst b'.
    exists x, b, s'. auto. }
  split; [|split; [|split; [|split; [|split]]]].
  - unfold calls. simpl. rewrite He1, He2. simpl.
    rewrite (map_by_index (fun k => CTest k E0 E q) e_call ttr)
      by (intros k x Hx; now destruct (Hk k x Hx)).
    rewrite filter_map_true by reflexivity. now rewrite L1.
  - now rewrite Hres.
  - now rewrite Hres.
  - exists e2, (length (heap (store m))).
    split; [apply list_elem_of_further, list_elem_of_here|]. auto.
  - intros -> k t Ht.
    destruct (Hans k t Ht) as (x & b & s' & Hin & Hc & Hrun & Hb).
    assert (b = true).
    { apply (test_results_true ttr (eq_sym L4) x Hin); [now rewrite Hc|exact Hb]. }
    subst b. eauto.
  - intros k t Ht.
    destruct (Hans k t Ht) as (x & b & s' & Hin & Hc & Hrun & Hb).
    exists x, b, s'. split; [|auto].
    now do 2 apply list_elem_of_further.
Qed.

(** The entries of a step that returned, one by one: the perturbation, the
    quench, and one entry per accept test, in the order of the collection. *)
Lemma mcStep_entries c0 E0 (m : Mach) acc q E m' :
  mcStep_post c0 E0 m (Ok (acc, q, E)) m' ->
  exists e1 e2 ttr,
    trace m' = trace m ++ e1 :: e2 :: ttr /\
    e_call e1 = CTakeStep (length (heap (store m))) /\
    e_call e2 = CQuench (length (heap (store m))) /\
    length ttr = length (acceptTests (self m)) /\
    forall (k : nat) t, acceptTests (self m) !! k = Some t ->
      exists x r s', ttr !! k = Some x /\ e_call x = CTest k E0 E q /\
        t E0 E q (e_store x) = (Ok r, s') /\ e_ret x = RBool r.
Proof.
  intros (_ & _ & _ & tr & Htr & _ & _ & _ & _ & Hok).
  destruct Hok as (e1 & e2 & ttr & -> & He1 & He2 & Hr2 & Hk & L1 & L2 & L3 & L4).
  exists e1, e2, ttr. do 4 (split; [assumption|]).
  intros k t Ht.
  assert (Hlt : (k < length ttr)%nat)
    by (rewrite L1; apply lookup_lt_is_Some; eauto).
  apply lookup_lt_is_Some in Hlt as [x Hx].
  destruct (Hk k x Hx) as (Hc & t' & r & s' & Ht' & Hrun & Hret).
  assert (t' = t) by congruence. subst t'.
  assert (Hin : x ∈ ttr) by (apply list_elem_of_lookup; eauto).
  destruct (L2 x Hin) as [b Hb].
  destruct r as [b'|e]; simpl in Hret; [|congruence].
  assert (b' = b) by congruence. subst b'.
  exists x, b, s'. auto.
Qed.

End McStep.

(** ** One iteration of [run] *)

Section RunBody.

Context {float W : Type}.

Local Abbreviation BH := (BasinHopping float W).
Local Abbreviation Mach := (Machine float W BH).

Lemma commit_spec acceptstep newcoords newE (m : Mach) :
  wp (commit_step acceptstep newcoords newE)
     (commit_post acceptstep newcoords newE m) m.
Proof.
  unfold commit_step. destruct acceptstep.
  - wp_step. wp_step. wp_step. wp_step.
    + (* the storage is called *)
      wp_step. destruct o as [[]|e].
      * wp_step. wp_step. wp_step.
        split; [repeat split|]. do 3 (split; [reflexivity|]).
        eexists [_]. split; [reflexivity|]. cbn [self store trace andb].
        rewrite Htv.
        split; [reflexivity|]. split; [reflexivity|].
        intros x Hx. apply list_elem_of_singleton in Hx as ->. reflexivity.
      * split; [repeat split|]. do 3 (split; [reflexivity|]).
        eexists [_]. split; [reflexivity|].
        split; [reflexivity|]. split; [reflexivity|].
        eexists. split; [reflexivity|]. split; reflexivity.
    + (* the storage is absent or false *)
      wp_step. wp_step. wp_step.
      split; [repeat split|]. do 3 (split; [reflexivity|]).
      exists []. rewrite app_nil_r. split; [reflexivity|].
      cbn [self store trace andb]. rewrite Htv.
      split; [reflexivity|]. split; [reflexivity|].
      intros x Hx. inversion Hx.
  - wp_step. split; [repeat split|]. do 3 (split; [reflexivity|]).
    exists []. rewrite app_nil_r. split; [reflexivity|].
    split; [reflexivity|]. split; [reflexivity|].
    intros x Hx. inversion Hx.
Qed.

Lemma step_call_not_event (c : Call float) : step_call c -> is_event c = false.
Proof. destruct c; simpl; tauto. Qed.
Lemma step_call_not_storage (c : Call float) : step_call c -> is_storage c = false.
Proof. destruct c; simpl; tauto. Qed.
Lemma step_call_not_step (c : Call float) : step_call c -> is_step c = false.
Proof. destruct c; simpl; tauto. Qed.
Lemma step_call_not_accepted (c : Call float) :
  step_call c -> is_accepted c = false.
Proof. destruct c; simpl; tauto. Qed.

Lemma run_body_spec (m : Mach) : wp run_body (run_body_post m) m.
Proof.
  unfold run_body.
  wp_step. wp_step. wp_step. wp_step. wp_step.
  eapply wp_mono; [apply mcStep_spec|]. intros o1 m1 Hmc.
  cbn [self store trace] in Hmc.
  destruct o1 as [[[acc q] E]|e].
  2: { (* the step raises *)
       destruct Hmc as (Hsc & Hmk & Hsn & tr & Htr & Hstep & _ & Hraise & _).
       cbn [self store trace] in *.
       split; [exact Hsc|]. split; [exact Hsn|].
       exists tr. split; [exact Htr|].
       split; [|split; [now left|split; [auto|exact I]]].
       intros x e' Hx Hr. split; [eauto|]. split; [auto|].
       intros He. rewrite (step_call_not_event _ (Hstep x Hx)) in He.
       discriminate. }
  pose proof Hmc as (Hsc & Hmk & Hsn & _).
  apply mcStep_ok in Hmc.
  destruct Hmc as (tr1 & Htr1 & Hstep & Hnr & Hts & Hlen & Hacc & Hq & Htrue & _).
  unfold markov, same_collaborators in Hsc, Hmk. fields.
  injection Hmk as Hc1 Hm1.
  wp_step. wp_step. wp_step. wp_step.
  set (line := MsgQu (stepnum (self m1)) E (funcalls (self m1)) (rms (self m1))
                 (markovE (self m1)) (Some acc)) in *.
  set (ew := mkEntry (CWrite line) (store m1) (ret_of r_unit o)).
  assert (Hp1 : forall p : Call float -> bool,
            (forall c, step_call c -> p c = false) -> calls p tr1 = []).
  { intros p Hp. now apply step_call_calls. }
  destruct o as [[]|e].
  2: { (* the write raises *)
       split; [exact Hsc|]. split; [exact Hsn|].
       exists (tr1 ++ [ew]). split; [now rewrite Htr1, <- app_assoc|].
       assert (Hsame : markov (self m1) = markov (self m))
         by (unfold markov; congruence).
       split; [|split; [now left|split; [auto|exact I]]].
       intros x e' Hx Hr. apply elem_of_app in Hx as [Hx | Hx].
       - now destruct (Hnr x e' Hx).
       - apply list_elem_of_singleton in Hx as ->.
         split; [cbv in Hr; congruence|]. split; [auto|discriminate]. }
  wp_step.
  eapply wp_mono; [apply (commit_spec acc q E)|]. intros oc m2 Hc.
  destruct Hc as (Hsc2 & Hsn2 & Hrms2 & Hfc2 & trc & Htrc & Hoc).
  unfold same_collaborators in Hsc2. fields.
  assert (Hsc' : same_collaborators (self m) (self m2)).
  { unfold same_collaborators.
    destruct Hsc as (A1 & A2 & A3 & A4 & A5 & A6 & A7).
    destruct Hsc2 as (B1 & B2 & B3 & B4 & B5 & B6 & B7).
    repeat split; congruence. }
  assert (Hsn' : stepnum (self m2) = stepnum (self m) + 1) by congruence.
  assert (Hsame1 : markov (self m1) = markov (self m))
    by (unfold markov; congruence).
  destruct oc as [[]|e].
  2: { (* the storage raises *)
       destruct Hoc as (Hmk2 & -> & x & -> & Hxc & Hxr).
       split; [exact Hsc'|]. split; [exact Hsn'|].
       exists (tr1 ++ [ew; x]).
       split; [rewrite Htrc, Htr1, <- !app_assoc; reflexivity|].
       assert (Hsame : markov (self m2) = markov (self m)) by congruence.
       split; [|split; [now left|split; [auto|exact I]]].
       intros y e' Hy Hr. apply elem_of_app in Hy as [Hy | Hy].
       - now destruct (Hnr y e' Hy).
       - apply elem_of_cons in Hy as [-> | Hy]; [discriminate|].
         apply list_elem_of_singleton in Hy as ->.
         split; [congruence|]. split; [auto|]. rewrite Hxc. discriminate. }
  destruct Hoc as (Hmk2 & Hcc & Hcr).
  wp_step. wp_step. wp_step.
  apply wp_intro. intros oe m3 He. apply (events_loop acc) in He.
  destruct He as (Hself3 & tre & Htre & Hlene & Hke & Hoe).
  change (0 + ?k)%nat with k in Hke.
  rewrite <- Hself3 in Hsc', Hsn', Hmk2, Hke, Hrms2, Hfc2, Hsn2.
  assert (Hline : CWrite line = step_line m m3 E acc).
  { unfold step_line, line. now rewrite Hsn2, Hrms2, Hfc2, Hm1. }
  assert (Hmk3 : markov (self m3) = (if acc then (q, E) else markov (self m))).
  { rewrite Hmk2. destruct acc; congruence. }
  assert (Hev : forall x, x ∈ tre -> is_event (e_call x) = true /\
            exists k, e_call x = CEvent k (markovE (self m3)) (coords (self m3)) acc).
  { intros x Hx. apply list_elem_of_lookup in Hx as [k Hx].
    rewrite (Hke k x Hx). eauto. }
  set (pre := tr1 ++ ew :: trc).
  assert (Htr : trace m3 = trace m ++ pre ++ tre).
  { rewrite Htre, Htrc, Htr1. unfold pre. rewrite <- !app_assoc. reflexivity. }
  assert (Hcalls : forall p : Call float -> bool,
            (forall c, step_call c -> p c = false) ->
            calls p pre = List.filter p (CWrite line :: map e_call trc)).
  { intros p Hp. unfold pre. rewrite calls_app, (Hp1 p Hp). reflexivity. }
  assert (Hpe : forall p : Call float -> bool,
            (forall c, is_event c = true -> p c = false) -> calls p tre = []).
  { intros p Hp. apply calls_none. intros x Hx. apply Hp. now apply Hev. }
  assert (Hacc_calls : calls is_accepted (pre ++ tre) =
                       if acc then [step_line m m3 E acc] else []).
  { rewrite calls_app, (Hcalls _ step_call_not_accepted), Hpe
      by (intros []; simpl; congruence).
    rewrite Hcc, app_nil_r, <- Hline.
    unfold line. destruct acc; [destruct (truth_value (storage (self m1)) s)|]; reflexivity. }
  assert (Hcom : acc = true -> committed m (pre ++ tre) m3).
  { intros ->. unfold markov in Hmk3. injection Hmk3 as Hc3 He3.
    split; [|split].
    - destruct Hq as (y & c & Hy & Hyc & Hyr). exists y, c.
      split; [unfold pre; rewrite !elem_of_app; auto|]. split; [exact Hyc|].
      now rewrite Hc3, He3, Hrms2, Hfc2.
    - rewrite Hacc_calls. discriminate.
    - intros k t Ht. rewrite Hc3, He3. now apply (Htrue eq_refl k t). }
  assert (Hno : calls is_accepted (pre ++ tre) = [] ->
                markov (self m3) = markov (self m)).
  { rewrite Hacc_calls, Hmk3. destruct acc; [discriminate|reflexivity]. }
  assert (Hdisj : markov (self m3) = markov (self m) \/ committed m (pre ++ tre) m3).
  { destruct acc eqn:Ha; [right; auto|left; exact Hmk3]. }
  assert (Hraise : forall o' : Outcome (bool * loc * float),
            (forall x e, x ∈ tre -> e_ret x = RRaise e -> o' = Raise e) ->
            forall x e, x ∈ pre ++ tre -> e_ret x = RRaise e ->
              o' = Raise e /\
              (is_event (e_call x) = false -> markov (self m3) = markov (self m)) /\
              (is_event (e_call x) = true ->
               exists i acceptstep,
                 e_call x = CEvent i (markovE (self m3)) (coords (self m3)) acceptstep /\
                 (acceptstep = false -> markov (self m3) = markov (self m)) /\
                 (acceptstep = true -> committed m (pre ++ tre) m3))).
  { intros o' Ho' x e' Hx Hr. apply elem_of_app in Hx as [Hx | Hx].
    - unfold pre in Hx. apply elem_of_app in Hx as [Hx | Hx];
        [now destruct (Hnr x e' Hx)|].
      apply elem_of_cons in Hx as [-> | Hx]; [discriminate|].
      rewrite (Hcr x Hx) in Hr. discriminate.
    - split; [eauto|]. destruct (Hev x Hx) as (Hie & k & Hk).
      split; [congruence|]. intros _. exists k, acc.
      split; [exact Hk|]. split; [|exact Hcom].
      intros ->. exact Hmk3. }
  destruct oe as [[]|e].
  - (* every observer returned *)
    wp_step. destruct Hoe as (Hle & Hre).
    split; [exact Hsc'|]. split; [exact Hsn'|].
    exists (pre ++ tre). split; [exact Htr|].
    split; [|split; [exact Hdisj|split; [exact Hno|]]].
    { apply Hraise. intros x e Hx Hr. rewrite (Hre x Hx) in Hr. discriminate. }
    split; [exact Hmk3|].
    assert (Hres : test_results (pre ++ tre) = test_results tr1).
    { unfold pre. rewrite !test_results_app.
      rewrite (test_results_none (ew :: trc)), (test_results_none tre), !app_nil_r;
        [reflexivity| |].
      - intros x Hx. destruct (Hev x Hx) as (_ & k & ->). reflexivity.
      - intros x Hx. apply elem_of_cons in Hx as [-> | Hx]; [reflexivity|].
        assert (Hc : e_call x ∈ map e_call trc) by now apply list_elem_of_fmap_2.
        rewrite Hcc in Hc. destruct acc; [destruct (truth_value (storage (self m1)) s)|];
          try (inversion Hc; fail).
        apply list_elem_of_singleton in Hc. now rewrite Hc. }
    split.
    { rewrite calls_app, Hpe by (intros []; simpl; congruence).
      unfold pre. rewrite calls_app, Hts, app_nil_r.
      rewrite (calls_map is_test (ew :: trc) (CWrite line :: map e_call trc) eq_refl).
      rewrite Hcc. simpl.
      destruct acc; [destruct (truth_value (storage (self m1)) s)|]; simpl;
        now rewrite app_nil_r. }
    split; [now rewrite Hres|]. split; [now rewrite Hres|].
    split.
    { rewrite calls_app, (Hcalls _ step_call_not_step), Hpe
        by (intros []; simpl; congruence).
      rewrite Hcc, app_nil_r, <- Hline.
      unfold line. destruct acc; [destruct (truth_value (storage (self m1)) s)|]; reflexivity. }
    split; [exact Hacc_calls|].
    split.
    { exists s. split.
      - exists ew, line.
        split; [unfold pre; rewrite !elem_of_app, elem_of_cons; auto|].
        split; [reflexivity|]. split; [reflexivity|].
        destruct Hsc as (_ & _ & _ & _ & _ & _ & <-). exact Hcall.
      - rewrite calls_app, (Hcalls _ step_call_not_storage), Hpe
          by (intros []; simpl; congruence).
        rewrite Hcc, app_nil_r.
        destruct Hsc as (-> & _).
        destruct acc; [destruct (truth_value (storage (self m)) s)|];
          reflexivity. }
    split.
    { exists pre, tre. split; [reflexivity|]. split.
      - rewrite (Hcalls _ step_call_not_event), Hcc.
        destruct acc; [destruct (truth_value (storage (self m1)) s)|]; reflexivity.
      - rewrite (map_by_index
                   (fun k => CEvent k (markovE (self m3)) (coords (self m3)) acc)
                   e_call tre Hke).
        rewrite Hle, Hself3. destruct Hsc2 as (_ & _ & _ & -> & _).
        destruct Hsc as (_ & _ & _ & -> & _). reflexivity. }
    destruct Hq as (y & c & Hy & Hyc & Hyr). exists y, c.
    split; [unfold pre; rewrite !elem_of_app; auto|]. split; [exact Hyc|].
    now rewrite Hrms2, Hfc2.
  - (* an observer raises *)
    destruct Hoe as (tr0 & y & -> & Hy & Htr0).
    split; [exact Hsc'|]. split; [exact Hsn'|].
    exists (pre ++ tr0 ++ [y]). split; [exact Htr|].
    split; [|split; [exact Hdisj|split; [exact Hno|exact I]]].
    apply Hraise. intros x e' Hx Hr. apply elem_of_app in Hx as [Hx | Hx].
    + rewrite (Htr0 x Hx) in Hr. discriminate.
    + apply list_elem_of_singleton in Hx as ->. congruence.
Qed.

End RunBody.

(** ** The loop of [run] *)

Section Run.

Context {float W : Type}.

Local Abbreviation BH := (BasinHopping float W).
Local Abbreviation Mach := (Machine float W BH).

Lemma for_in_run_loop {A} (xs : list A) : forall i (m : Mach),
  for_in i xs (fun _ _ _ => run_body ;;; ret tt) tt m = run_loop (length xs) m.
Proof.
  set (c := (run_body ;;; ret tt) : M float W BH unit).
  induction xs as [|x xs IH]; intros i m; simpl; [reflexivity|].
  fold c. unfold bind.
  destruct (c m) as [[[]|e] m1]; [apply IH|reflexivity].
Qed.

Lemma run_eq (nsteps : Z) (m : Mach) :
  run nsteps m = run_loop (Z.to_nat nsteps) m.
Proof.
  unfold run. rewrite for_in_run_loop. unfold xrange.
  now rewrite length_map, length_seq.
Qed.

Lemma run_loop_S n (m : Mach) :
  run_loop (S n) m =
  match run_body m with
  | (Ok _, m1) => run_loop n m1
  | (Raise e, m1) => (Raise e, m1)
  end.
Proof.
  simpl. unfold bind, ret. now destruct (run_body m) as [[r|e] m1].
Qed.

(** Induction over the iterations of [run]. *)
Lemma run_loop_ind (R : nat -> Mach -> Outcome unit -> Mach -> Prop) :
  (forall m, R O m (Ok tt) m) ->
  (forall n m e m1, run_body m = (Raise e, m1) -> R (S n) m (Raise e) m1) ->
  (forall n m r m1 o m2,
     run_body m = (Ok r, m1) -> run_loop n m1 = (o, m2) ->
     R n m1 o m2 -> R (S n) m o m2) ->
  forall n m, R n m (fst (run_loop n m)) (snd (run_loop n m)).
Proof.
  intros H0 Hr Hs. induction n as [|n IH]; intros m.
  - apply H0.
  - rewrite run_loop_S. destruct (run_body m) as [[r|e] m1] eqn:Hb.
    + eapply Hs; eauto. apply surjective_pairing.
    + now apply Hr.
Qed.

Lemma run_body_post_of (m : Mach) o m1 :
  run_body m = (o, m1) -> run_body_post m o m1.
Proof. intros H. exact (wp_run _ _ _ (run_body_spec m) o m1 H). Qed.

Lemma run_states_S n (m : Mach) :
  run_states (S n) m =
  run_body m :: (if is_ok (fst (run_body m))
                 then run_states n (snd (run_body m)) else []).
Proof. reflexivity. Qed.

End Run.

(** ** The constructor *)

Section Init.

Context {float W : Type}.

Local Abbreviation BH := (BasinHopping float W).

Variable Metropolis : float -> MetropolisT float W.

Ltac in_cases Hx :=
  repeat first [ apply elem_of_app in Hx as [Hx | Hx]
               | apply elem_of_cons in Hx as [-> | Hx]
               | apply elem_of_nil in Hx; destruct Hx ].

Ltac raised :=
  eexists; split; [rewrite <- ?app_assoc; reflexivity|];
  split; [|exact I];
  let x := fresh "x" in let e := fresh "e" in
  let Hx := fresh "Hx" in let Hr := fresh "Hr" in
  intros x e Hx Hr; in_cases Hx; cbv in Hr; congruence.

(** The leaf of a construction that returned. *)
Ltac built :=
  eexists; split; [rewrite <- ?app_assoc; reflexivity|];
  split; [let x := fresh "x" in let e := fresh "e" in
          let Hx := fresh "Hx" in let Hr := fresh "Hr" in
          intros x e Hx Hr; in_cases Hx; cbv in Hr; congruence|];
  split; [match goal with |- context [negb ?n] => destruct n end;
          simpl; now rewrite ?app_nil_r|];
  split; [match goal with |- context [negb ?n] => now destruct n end|];
  do 9 (split; [reflexivity|]);
  match goal with
  | H0 : getEnergy _ ?l ?sg = (Ok ?potel, _),
    H1 : _ (MsgInitial ?potel) ?a = (Ok _, ?s1),
    H2 : _ (MsgQu ?n ?E ?f ?r ?E' None) ?c = (Ok _, ?s2),
    H3 : _ ?l _ ?sq = (Ok (?nc, ?E, ?r, ?f), _) |- _ =>
      exists potel, (mkEntry (CGetEnergy l) sg (RFloat potel)),
        (mkEntry (CQuench l) sq (RQuench nc E r f));
      split;
      [ exists s1, s2; split;
        [ exists (mkEntry (CWrite (MsgInitial potel)) a RUnit),
                 (mkEntry (CWrite (MsgQu n E f r E' None)) c RUnit);
          cbn zeta;
          repeat first [ exact H1 | exact H2 | apply list_elem_of_here
                       | apply list_elem_of_further | split ]
        | repeat match goal with
                 | H : truth_value _ _ = _ |- _ => rewrite H; clear H
                 end; reflexivity ]
      | repeat first [ apply list_elem_of_here | apply list_elem_of_further
                     | split ] ]
  end.

Lemma init_spec coords potential takeStep storage event_after_step acceptTests
    temperature nometropolis quenchRoutine outstream
    (w : Machine float W unit) :
  wp (__init__ Metropolis coords potential takeStep storage event_after_step
        acceptTests temperature nometropolis quenchRoutine outstream)
     (init_post Metropolis potential takeStep storage event_after_step
        acceptTests temperature nometropolis quenchRoutine outstream w)
     w.
Proof.
  unfold __init__.
  wp_step. wp_step.
  2: { exists []. rewrite app_nil_r. split; [reflexivity|].
       split; [|exact I]. intros x e Hx. inversion Hx. }
  cbn zeta. wp_step. wp_step. destruct o as [potel|e]; [|raised].
  wp_step. wp_step. destruct o as [[]|e]; [|raised].
  wp_step. wp_step.
  - wp_step. destruct o as [[]|e]; [|raised].
    wp_step. wp_step. destruct o as [[[[nc Eq] r] f]|e]; [|raised].
    cbn beta iota zeta. wp_step. wp_step. destruct o as [[]|e]; [|raised].
    wp_step. wp_step.
    + wp_step. destruct o as [[]|e]; [|raised]. wp_step. built.
    + wp_step. built.
  - wp_step. wp_step. destruct o as [[[[nc Eq] r] f]|e]; [|raised].
    cbn beta iota zeta. wp_step. wp_step. destruct o as [[]|e]; [|raised].
    wp_step. wp_step.
    + wp_step. destruct o as [[]|e]; [|raised]. wp_step. built.
    + wp_step. built.
Qed.

Lemma init_post_of coords potential takeStep storage event_after_step acceptTests
    temperature nometropolis quenchRoutine outstream
    (w : Machine float W unit) o w' :
  __init__ Metropolis coords potential takeStep storage event_after_step
    acceptTests temperature nometropolis quenchRoutine outstream w = (o, w') ->
  init_post Metropolis potential takeStep storage event_after_step
    acceptTests temperature nometropolis quenchRoutine outstream w o w'.
Proof. intros H. exact (wp_run _ _ _ (init_spec _ _ _ _ _ _ _ _ _ _ w) o w' H). Qed.

End Init.

(** ** Calls that took place *)

Section Threading.

Context {float W : Type}.

Local Abbreviation BH := (BasinHopping float W).
Local Abbreviation Mach := (Machine float W BH).

Lemma grown_trans (s1 s2 s3 : Store float W) :
  grown s1 s2 -> grown s2 s3 -> grown s1 s3.
Proof.
  induction 1 as [s|s a v s' Hv _ IH]; [auto|].
  intros H. eapply grown_copy; eauto.
Qed.

Lemma grown_ext (s s' : Store float W) : grown s s' -> ext s' = ext s.
Proof. induction 1 as [s|s a v s' Hv _ IH]; [reflexivity|exact IH]. Qed.

Lemma threaded_grown (b : BH) (s0 s : Store float W) tr s' :
  grown s0 s -> threaded b s tr s' -> threaded b s0 tr s'.
Proof.
  intros Hg. destruct tr as [|x tr]; simpl.
  - now apply grown_trans.
  - intros (Hx & Hrest). split; [now apply (grown_trans _ s)|exact Hrest].
Qed.

Lemma threaded_app (b : BH) tr1 : forall s s1 tr2 s2,
  threaded b s tr1 s1 -> threaded b s1 tr2 s2 -> threaded b s (tr1 ++ tr2) s2.
Proof.
  induction tr1 as [|x tr1 IH]; simpl; intros s s1 tr2 s2 H1 H2.
  - eapply threaded_grown; eauto.
  - destruct H1 as (Hg & s' & Ha & Ht). split; [exact Hg|].
    exists s'. split; [exact Ha|]. eapply IH; eauto.
Qed.

Lemma threaded_applied (b : BH) tr : forall s s' x,
  threaded b s tr s' -> x ∈ tr -> exists s1, applied b x s1.
Proof.
  induction tr as [|y tr IH]; simpl; intros s s' x H Hx; [inversion Hx|].
  destruct H as (_ & s1 & Ha & Ht).
  apply elem_of_cons in Hx as [-> | Hx]; eauto.
Qed.

(** What an entry that records a call says, callee by callee. *)
Lemma applied_inv (b : BH) (x : Entry float W) s1 :
  applied b x s1 ->
  match e_call x with
  | CGetEnergy l =>
      exists o, getEnergy (potential b) l (e_store x) = (o, s1) /\
                e_ret x = ret_of RFloat o
  | CWrite msg =>
      exists o, outstream b msg (e_store x) = (o, s1) /\
                e_ret x = ret_of r_unit o
  | CStorage E l =>
      exists st o, storage b = Some st /\
                   __nonzero__ st (e_store x) = true /\
                   __call__ st E l (e_store x) = (o, s1) /\
                   e_ret x = ret_of r_unit o
  | CQuench l =>
      exists o, quenchRoutine b l (getEnergyGradient (potential b)) (e_store x)
                = (o, s1) /\
                e_ret x = ret_of r_quench o
  | CTakeStep l =>
      exists o, takeStep b l (e_store x) = (o, s1) /\
                e_ret x = ret_of r_unit o
  | CTest i Eold Enew l =>
      exists t o, acceptTests b !! i = Some t /\
                  t Eold Enew l (e_store x) = (o, s1) /\
                  e_ret x = ret_of RBool o
  | CEvent i E l acc =>
      exists ev o, event_after_step b !! i = Some ev /\
                   ev E l acc (e_store x) = (o, s1) /\
                   e_ret x = ret_of r_unit o
  end.
Proof.
  intros ((f & Hf & Hrun) & Htruth).
  destruct (e_call x) as [l|msg|E l|l|l|i Eold Enew l|i E l acc];
    cbn [callee_of] in Hf.
  - injection Hf as <-. unfold answer in Hrun. injection Hrun as Hr Hs.
    eexists. split; [rewrite <- Hs; apply surjective_pairing|now rewrite Hr].
  - injection Hf as <-. unfold answer in Hrun. injection Hrun as Hr Hs.
    eexists. split; [rewrite <- Hs; apply surjective_pairing|now rewrite Hr].
  - specialize (Htruth eq_refl). unfold truth_value in Htruth.
    destruct (storage b) as [st|]; [|discriminate].
    injection Hf as <-. unfold answer in Hrun. injection Hrun as Hr Hs.
    eexists st, _. split; [reflexivity|]. split; [exact Htruth|].
    split; [rewrite <- Hs; apply surjective_pairing|now rewrite Hr].
  - injection Hf as <-. unfold answer in Hrun. injection Hrun as Hr Hs.
    eexists. split; [rewrite <- Hs; apply surjective_pairing|now rewrite Hr].
  - injection Hf as <-. unfold answer in Hrun. injection Hrun as Hr Hs.
    eexists. split; [rewrite <- Hs; apply surjective_pairing|now rewrite Hr].
  - destruct (acceptTests b !! i) as [t|]; [|discriminate].
    injection Hf as <-. unfold answer in Hrun. injection Hrun as Hr Hs.
    eexists t, _. split; [reflexivity|].
    split; [rewrite <- Hs; apply surjective_pairing|now rewrite Hr].
  - destruct (event_after_step b !! i) as [ev|]; [|discriminate].
    injection Hf as <-. unfold answer in Hrun. injection Hrun as Hr Hs.
    eexists ev, _. split; [reflexivity|].
    split; [rewrite <- Hs; apply surjective_pairing|now rewrite Hr].
Qed.

Section Rules.

Context {S : Type}.

Variable b : BH.
Variable inv : S -> Prop.

Lemma tracks_ret {A} (a : A) : tracks b inv (ret a : M float W S A).
Proof.
  intros m Hm. split; [exact Hm|]. exists []. rewrite app_nil_r.
  split; [reflexivity|apply grown_refl].
Qed.

Lemma tracks_get {B} (k : S -> M float W S B) :
  (forall this, inv this -> tracks b inv (k this)) ->
  tracks b inv (bind get_self k).
Proof. intros Hk m Hm. exact (Hk (self m) Hm m Hm). Qed.

Lemma tracks_modify_self (f : S -> S) :
  (forall s, inv s -> inv (f s)) ->
  tracks b inv (modify_self f : M float W S unit).
Proof.
  intros Hf m Hm. split; [now apply Hf|]. exists []. rewrite app_nil_r.
  split; [reflexivity|apply grown_refl].
Qed.

Lemma tracks_copy (a : loc) : tracks b inv (copy a : M float W S loc).
Proof.
  intros m Hm. unfold copy.
  destruct (heap (store m) !! a) as [v|] eqn:Hv; simpl;
    (split; [exact Hm|]); exists []; rewrite app_nil_r;
    (split; [reflexivity|]); simpl.
  - eapply grown_copy; [exact Hv|apply grown_refl].
  - apply grown_refl.
Qed.

Lemma tracks_call {A} (c : Call float) (r : A -> Ret float)
    (f : Callee float W A) :
  callee_of b c = Some (answer r f) -> is_storage c = false ->
  tracks b inv (call c r f : M float W S A).
Proof.
  intros Hc Hs m Hm. unfold call.
  destruct (f (store m)) as [o s'] eqn:Hf. simpl.
  split; [exact Hm|]. eexists [_]. split; [reflexivity|]. simpl.
  split; [apply grown_refl|]. exists s'. split; [|apply grown_refl].
  split.
  - exists (answer r f). split; [exact Hc|]. unfold answer. simpl.
    now rewrite Hf.
  - simpl. rewrite Hs. discriminate.
Qed.

Lemma tracks_store_if (sink : option (Storage float W)) (E : float) (c : loc) :
  storage b = sink -> tracks b inv (store_if sink E c : M float W S unit).
Proof.
  intros <- m Hm. unfold store_if.
  destruct (storage b) as [st|] eqn:Hst;
    [destruct (__nonzero__ st (store m)) eqn:Ht|].
  - unfold call. destruct (__call__ st E c (store m)) as [o s'] eqn:Hf. simpl.
    split; [exact Hm|]. eexists [_]. split; [reflexivity|]. simpl.
    split; [apply grown_refl|]. exists s'. split; [|apply grown_refl].
    split.
    + exists (answer r_unit (__call__ st E c)). cbn [e_call callee_of].
      rewrite Hst. split; [reflexivity|]. unfold answer. simpl.
      now rewrite Hf.
    + intros _. cbn [e_store]. rewrite Hst. exact Ht.
  - apply (tracks_ret tt m Hm).
  - apply (tracks_ret tt m Hm).
Qed.

Lemma tracks_bind {A B} (c : M float W S A) (k : A -> M float W S B) :
  tracks b inv c -> (forall a, tracks b inv (k a)) -> tracks b inv (bind c k).
Proof.
  intros Hc Hk m Hm. unfold bind.
  destruct (Hc m Hm) as (Hi & tr1 & Htr1 & Ht1).
  destruct (c m) as [[a|e] m1]; simpl in *.
  - destruct (Hk a m1 Hi) as (Hi2 & tr2 & Htr2 & Ht2).
    split; [exact Hi2|]. exists (tr1 ++ tr2).
    split; [now rewrite Htr2, Htr1, <- app_assoc|].
    eapply threaded_app; eauto.
  - split; [exact Hi|]. exists tr1. auto.
Qed.

Lemma tracks_for_in {A B} (body : nat -> A -> B -> M float W S B)
    (xs : list A) : forall i acc,
  (forall (k : nat) x acc', xs !! k = Some x ->
     tracks b inv (body (i + k)%nat x acc')) ->
  tracks b inv (for_in i xs body acc).
Proof.
  induction xs as [|x xs IH]; intros i acc Hb; simpl.
  - apply tracks_ret.
  - apply tracks_bind.
    + specialize (Hb O x acc eq_refl). now rewrite Nat.add_0_r in Hb.
    + intros acc'. apply IH. intros k y acc2 Hk.
      specialize (Hb (Datatypes.S k) y acc2 Hk).
      now rewrite Nat.add_succ_r in Hb.
Qed.

End Rules.

End Threading.

(** The callee a call names is the one the driver called. *)
Ltac named :=
  cbn [callee_of];
  repeat match goal with
         | H : same_collaborators _ _ |- _ =>
             destruct H as (? & ? & ? & ? & ? & ? & ?)
         end;
  change (0 + ?k)%nat with k;
  repeat match goal with
         | Heq : acceptTests ?this = acceptTests _,
           Hk : acceptTests ?this !! _ = Some _ |- _ => rewrite Heq in Hk
         | Heq : event_after_step ?this = event_after_step _,
           Hk : event_after_step ?this !! _ = Some _ |- _ => rewrite Heq in Hk
         end;
  try match goal with
      | Hk : ?l = Some _ |- match ?l' with _ => _ end = _ =>
          change l' with l; rewrite Hk
      end;
  congruence.

Ltac track :=
  repeat first
    [ apply tracks_ret | apply tracks_copy
    | apply tracks_get; intros ? ?
    | apply tracks_modify_self; intros ? ?; assumption
    | apply tracks_call; [named|reflexivity]
    | apply tracks_store_if; named
    | apply tracks_for_in; intros ? ? ? ?
    | apply tracks_bind; [|intros ?]
    | match goal with
      | |- tracks _ _ (match ?x with _ => _ end) => destruct x
      end ].

Section Tracked.

Context {float W : Type}.

Local Abbreviation BH := (BasinHopping float W).
Local Abbreviation Mach := (Machine float W BH).

Lemma mcStep_tracks (b : BH) c0 E0 :
  tracks b (same_collaborators b) (mcStep c0 E0).
Proof. unfold mcStep. track. Qed.

Lemma run_body_tracks (b : BH) : tracks b (same_collaborators b) run_body.
Proof. unfold run_body. track. Qed.

Lemma run_loop_tracks (b : BH) n : tracks b (same_collaborators b) (run_loop n).
Proof.
  induction n as [|n IH]; simpl; [apply tracks_ret|].
  apply tracks_bind; [|intros _; exact IH].
  apply tracks_bind; [apply run_body_tracks|intros _; apply tracks_ret].
Qed.

Lemma tracked_threaded {A} (c : M float W BH A) (m : Mach) :
  tracks (self m) (same_collaborators (self m)) c ->
  threaded (self m) (store m) (new_trace m (snd (c m))) (store (snd (c m))).
Proof.
  intros H. destruct (H m (same_collaborators_refl _)) as (_ & tr & Htr & Ht).
  now rewrite (new_trace_app _ _ _ Htr).
Qed.

Lemma mcStep_threaded c0 E0 (m : Mach) :
  threaded (self m) (store m) (new_trace m (snd (mcStep c0 E0 m)))
    (store (snd (mcStep c0 E0 m))).
Proof. apply tracked_threaded, mcStep_tracks. Qed.

Lemma run_body_threaded (m : Mach) :
  threaded (self m) (store m) (new_trace m (snd (run_body m)))
    (store (snd (run_body m))).
Proof. apply tracked_threaded, run_body_tracks. Qed.

Lemma run_loop_threaded n (m : Mach) :
  threaded (self m) (store m) (new_trace m (snd (run_loop n m)))
    (store (snd (run_loop n m))).
Proof. apply tracked_threaded, run_loop_tracks. Qed.

Lemma init_tracks (Metropolis : float -> MetropolisT float W) (b : BH)
    start pot step sink events tests T nomet quench out :
  potential b = pot -> storage b = sink -> quenchRoutine b = quench ->
  outstream b = out ->
  tracks b (fun _ : unit => True)
    (__init__ Metropolis start pot step sink events tests T nomet quench out).
Proof. intros Hp Hs Hq Ho. unfold __init__. cbn zeta. track. Qed.

Lemma init_threaded (Metropolis : float -> MetropolisT float W) (b : BH)
    start pot step sink events tests T nomet quench out
    (w : Machine float W unit) :
  potential b = pot -> storage b = sink -> quenchRoutine b = quench ->
  outstream b = out ->
  let r := __init__ Metropolis start pot step sink events tests T nomet
             quench out w in
  threaded b (store w) (new_trace w (snd r)) (store (snd r)).
Proof.
  intros Hp Hs Hq Ho r.
  destruct (init_tracks Metropolis b start pot step sink events tests T nomet
              quench out Hp Hs Hq Ho w I) as (_ & tr & Htr & Ht).
  fold r in Htr, Ht. now rewrite (new_trace_app _ _ _ Htr).
Qed.

(** A call that did not raise returned. *)
Lemma returned {A} (r : A -> Ret float) (o : Outcome A) (x : Ret float) :
  x = ret_of r o -> (forall e, x <> RRaise e) -> exists a, o = Ok a /\ x = r a.
Proof.
  intros -> Hq. destruct o as [a|e]; [eauto|]. now destruct (Hq e).
Qed.

Lemma run_body_quiet (m : Mach) r :
  fst (run_body m) = Ok r -> quiet (new_trace m (snd (run_body m))).
Proof.
  intros H x e Hx Hr.
  pose proof (run_body_post_of m _ _ (surjective_pairing _)) as Hp.
  destruct Hp as (_ & _ & tr & Htr & Hraise & _).
  rewrite (new_trace_app _ _ _ Htr) in Hx.
  destruct (Hraise x e Hx Hr) as (Ho & _). congruence.
Qed.

Lemma run_loop_quiet n (m : Mach) :
  fst (run_loop n m) = Ok tt -> quiet (new_trace m (snd (run_loop n m))).
Proof.
  revert n m.
  apply (run_loop_ind (fun _ (m : Mach) o (m' : Mach) =>
                         o = Ok tt -> quiet (new_trace m m'))).
  - intros m _ x e Hx. unfold new_trace in Hx. rewrite drop_all in Hx.
    inversion Hx.
  - discriminate.
  - intros n m r m1 o m2 Hb Hl IH Ho x e Hx.
    pose proof (run_body_post_of _ _ _ Hb) as (_ & _ & tr & Htr & Hraise & _).
    assert (Hq2 : trace m2 = trace m1 ++ new_trace m1 m2).
    { pose proof (run_loop_tracks (self m1) n m1 (same_collaborators_refl _))
        as (_ & tr2 & Htr2 & _).
      rewrite Hl in Htr2. simpl in Htr2.
      now rewrite (new_trace_app _ _ _ Htr2). }
    assert (Hall : trace m2 = trace m ++ tr ++ new_trace m1 m2)
      by (now rewrite Hq2, Htr, <- app_assoc).
    rewrite (new_trace_app _ _ _ Hall) in Hx.
    apply elem_of_app in Hx as [Hx | Hx].
    + intros Hr. destruct (Hraise x e Hx Hr) as (Habs & _). discriminate.
    + now apply IH.
Qed.


Lemma threaded_storage (b : BH) tr s s' (x : Entry float W) E c :
  threaded b s tr s' -> quiet tr -> x ∈ tr -> e_call x = CStorage E c ->
  exists st s1,
    storage b = Some st /\ __nonzero__ st (e_store x) = true /\
    __call__ st E c (e_store x) = (Ok tt, s1) /\ e_ret x = RUnit.
Proof.
  intros Ht Hq Hx Hc.
  destruct (threaded_applied _ _ _ _ _ Ht Hx) as (s1 & Ha).
  apply applied_inv in Ha. rewrite Hc in Ha.
  destruct Ha as (st & o & Hst & Htv & Hrun & Hret).
  destruct (returned _ _ _ Hret (fun e => Hq x e Hx)) as ([] & -> & Hr).
  eauto 8.
Qed.

Lemma threaded_takeStep (b : BH) tr s s' (x : Entry float W) l :
  threaded b s tr s' -> quiet tr -> x ∈ tr -> e_call x = CTakeStep l ->
  exists s1, takeStep b l (e_store x) = (Ok tt, s1) /\ e_ret x = RUnit.
Proof.
  intros Ht Hq Hx Hc.
  destruct (threaded_applied _ _ _ _ _ Ht Hx) as (s1 & Ha).
  apply applied_inv in Ha. rewrite Hc in Ha.
  destruct Ha as (o & Hrun & Hret).
  destruct (returned _ _ _ Hret (fun e => Hq x e Hx)) as ([] & -> & Hr).
  eauto.
Qed.

Lemma threaded_quench (b : BH) tr s s' (x : Entry float W) l :
  threaded b s tr s' -> quiet tr -> x ∈ tr -> e_call x = CQuench l ->
  exists q E r f s1,
    quenchRoutine b l (getEnergyGradient (potential b)) (e_store x)
      = (Ok (q, E, r, f), s1) /\
    e_ret x = RQuench q E r f.
Proof.
  intros Ht Hq Hx Hc.
  destruct (threaded_applied _ _ _ _ _ Ht Hx) as (s1 & Ha).
  apply applied_inv in Ha. rewrite Hc in Ha.
  destruct Ha as (o & Hrun & Hret).
  destruct (returned _ _ _ Hret (fun e => Hq x e Hx))
    as ([[[q E] r] f] & -> & Hr).
  exists q, E, r, f, s1. auto.
Qed.

End Tracked.

(** * Properties of the driver *)

Lemma forallb_id_true (l : list bool) :
  forallb id l = true <-> Forall (fun b => b = true) l.
Proof.
  induction l as [|b l IH]; simpl.
  - split; auto.
  - unfold id at 1. rewrite andb_true_iff, IH. split.
    + intros [-> H]. now constructor.
    + intros H. inversion H; auto.
Qed.

Lemma mcStep_post_of {float W} (m : Machine float W (BasinHopping float W))
    c0 E0 o m' :
  mcStep c0 E0 m = (o, m') -> mcStep_post c0 E0 m o m'.
Proof. intros H. exact (wp_run _ _ _ (mcStep_spec c0 E0 m) o m' H). Qed.

(** C1.  A step that returns has called every accept test of the collection
    exactly once, in collection order, each with the old energy, the
    quenched energy and the quenched configuration, whatever the earlier
    tests answered; the answer logged at a position is what the test at
    that position of the collection returned; and the step is accepted
    exactly when all the answers are true (so always for an empty
    collection).  The energy and configuration passed are the ones the
    quench routine returned, and the old energy [run] passes is the Markov
    energy. *)
Theorem mcStep_evaluates_every_test {float W}
    (m : Machine float W (BasinHopping float W))
    (coordsold : loc) (Equench_old : float)
    (acceptstep : bool) (qcoords : loc) (Equench : float) :
  fst (mcStep coordsold Equench_old m) = Ok (acceptstep, qcoords, Equench) ->
  let tr := new_trace m (snd (mcStep coordsold Equench_old m)) in
  calls is_test tr =
    test_calls_of (length (acceptTests (self m))) Equench_old Equench qcoords /\
  length (test_results tr) = length (acceptTests (self m)) /\
  (acceptstep = true <-> Forall (fun b => b = true) (test_results tr)) /\
  (acceptTests (self m) = [] -> acceptstep = true) /\
  (forall (k : nat) t, acceptTests (self m) !! k = Some t ->
     exists x b s', x ∈ tr /\
       e_call x = CTest k Equench_old Equench qcoords /\
       t Equench_old Equench qcoords (e_store x) = (Ok b, s') /\
       e_ret x = RBool b) /\
  (exists y c r f, y ∈ tr /\ e_call y = CQuench c /\
                   e_ret y = RQuench qcoords Equench r f) /\
  (forall a c E,
     fst (run_body m) = Ok (a, c, E) ->
     calls is_test (new_trace m (snd (run_body m))) =
       test_calls_of (length (acceptTests (self m))) (markovE (self m)) E c).
Proof.
  intros H tr.
  pose proof (mcStep_post_of m coordsold Equench_old _ _
                (surjective_pairing _)) as Hpost.
  rewrite H in Hpost. apply mcStep_ok in Hpost.
  destruct Hpost as (tr' & Htr & _ & _ & Hts & Hlen & Hacc & Hq & _ & Hans).
  assert (tr = tr') as -> by (now apply new_trace_app).
  split; [exact Hts|]. split; [exact Hlen|].
  split; [|split; [|split; [|split]]].
  - rewrite Hacc. apply forallb_id_true.
  - intros Hnil. rewrite Hnil in Hlen. simpl in Hlen.
    apply nil_length_inv in Hlen. now rewrite Hacc, Hlen.
  - exact Hans.
  - destruct Hq as (y & c & Hy & Hc & Hr). eauto 8.
  - intros a c E Hb.
    pose proof (run_body_post_of m _ _ (surjective_pairing _)) as Hp.
    rewrite Hb in Hp.
    destruct Hp as (_ & _ & tr1 & Htr1 & _ & _ & _ & _ & Hc & _).
    now rewrite (new_trace_app _ _ _ Htr1).
Qed.

(** Two tests that count their calls: the first answers false, the second is
    still called. *)
Lemma mcStep_evaluates_every_test_witness :
  let m := Scenario.driver [Scenario.reject; Scenario.accept] [] None [-1; 0] in
  fst (mcStep 1%nat 9 m) = Ok (false, 3%nat, 4) /\
  calls is_test (new_trace m (snd (mcStep 1%nat 9 m))) =
    [CTest 0 9 4 3%nat; CTest 1 9 4 3%nat] /\
  test_results (new_trace m (snd (mcStep 1%nat 9 m))) = [false; true] /\
  ext (store (snd (mcStep 1%nat 9 m))) = 2%nat.
Proof.
  intros m.
  assert (H : fst (mcStep 1%nat 9 m) = Ok (false, 3%nat, 4))
    by (vm_compute; reflexivity).
  pose proof (mcStep_evaluates_every_test m 1%nat 9 false 3%nat 4 H)
    as (Hc & Hl & _).
  split; [exact H|]. split; [exact Hc|].
  split; vm_compute; reflexivity.
Defined.

(** ** Rejection *)

Section Rejection.

Context {float W : Type}.

Local Abbreviation BH := (BasinHopping float W).
Local Abbreviation Mach := (Machine float W BH).

(** A step whose tests never answer true commits nothing. *)
Lemma committed_not_always_false (m : Mach) tr m' :
  acceptTests (self m) <> [] ->
  Forall always_false (acceptTests (self m)) ->
  ~ committed m tr m'.
Proof.
  intros Hne Hall (_ & _ & Htrue).
  destruct (acceptTests (self m)) as [|t ts] eqn:Hts; [congruence|].
  destruct (Htrue O t eq_refl) as (s & s' & Hrun).
  exact (Forall_inv Hall _ _ _ _ _ Hrun).
Qed.

Lemma run_loop_rejection n (m : Mach) :
  let m' := snd (run_loop n m) in
  same_collaborators (self m) (self m') /\
  exists tr,
    trace m' = trace m ++ tr /\
    (calls is_accepted tr = [] -> markov (self m') = markov (self m)) /\
    (acceptTests (self m) <> [] ->
     Forall always_false (acceptTests (self m)) ->
     markov (self m') = markov (self m)).
Proof.
  revert n m.
  apply (run_loop_ind (fun _ (m : Mach) _ (m' : Mach) =>
    same_collaborators (self m) (self m') /\
    exists tr,
      trace m' = trace m ++ tr /\
      (calls is_accepted tr = [] -> markov (self m') = markov (self m)) /\
      (acceptTests (self m) <> [] ->
       Forall always_false (acceptTests (self m)) ->
       markov (self m') = markov (self m)))).
  - intros m. split; [apply same_collaborators_refl|].
    exists []. rewrite app_nil_r. auto.
  - intros _ m e m1 Hb. apply run_body_post_of in Hb.
    destruct Hb as (Hsc & _ & tr & Htr & _ & Hdisj & Hno & _).
    split; [exact Hsc|]. exists tr. split; [exact Htr|]. split; [exact Hno|].
    intros Hne Hall. destruct Hdisj as [H | H]; [exact H|].
    destruct (committed_not_always_false m tr m1 Hne Hall H).
  - intros n m r m1 o m2 Hb _ (Hsc2 & tr2 & Htr2 & Hno2 & Haf2).
    apply run_body_post_of in Hb.
    destruct Hb as (Hsc & _ & tr & Htr & _ & Hdisj & Hno & _).
    split; [eapply same_collaborators_trans; eauto|].
    exists (tr ++ tr2). split; [now rewrite Htr2, Htr, <- app_assoc|].
    split.
    + rewrite calls_app. intros H. apply app_eq_nil in H as [H1 H2].
      rewrite (Hno2 H2). auto.
    + intros Hne Hall.
      assert (Hts : acceptTests (self m1) = acceptTests (self m))
        by (now destruct Hsc as (_ & _ & _ & _ & ? & _)).
      rewrite Haf2 by (rewrite Hts; auto).
      destruct Hdisj as [H | H]; [exact H|].
      destruct (committed_not_always_false m tr m1 Hne Hall H).
Qed.

End Rejection.

(** C2, as the code has it.  A step that returns a rejection leaves
    [coords] and [markovE] as they were; a call of [run] none of whose steps
    was reported accepted leaves them as they were, whether it returns or
    raises; and so does every call of [run] on a driver that has at least
    one accept test and whose accept tests never answer true. *)
Theorem rejected_steps_keep_markov_state {float W}
    (m : Machine float W (BasinHopping float W)) (n : Z) :
  (forall newcoords newE,
     fst (run_body m) = Ok (false, newcoords, newE) ->
     markov (self (snd (run_body m))) = markov (self m)) /\
  (calls is_accepted (new_trace m (snd (run n m))) = [] ->
   markov (self (snd (run n m))) = markov (self m)) /\
  (acceptTests (self m) <> [] ->
   Forall always_false (acceptTests (self m)) ->
   markov (self (snd (run n m))) = markov (self m)).
Proof.
  split; [|rewrite run_eq].
  - intros q E H.
    pose proof (run_body_post_of m _ _ (surjective_pairing _)) as Hp.
    rewrite H in Hp.
    destruct Hp as (_ & _ & tr & _ & _ & _ & _ & Hmk & _). exact Hmk.
  - destruct (run_loop_rejection (Z.to_nat n) m) as (_ & tr & Htr & Hno & Haf).
    rewrite (new_trace_app _ _ _ Htr). auto.
Qed.

(** The descent from [(3, 0)] against a test that always answers false. *)
Lemma rejected_steps_keep_markov_state_witness :
  let m := Scenario.driver [Scenario.reject] [Scenario.watch]
             (Some Scenario.keep) [-1; 0] in
  (acceptTests (self m) <> [] /\ Forall always_false (acceptTests (self m))) /\
  markov (self (snd (run 5 m))) = markov (self m) /\
  fst (run 5 m) = Ok tt.
Proof.
  intros m.
  assert (Hne : acceptTests (self m) <> []) by discriminate.
  assert (Hall : Forall always_false (acceptTests (self m))).
  { repeat constructor. intros Eold Enew q s s' H. discriminate H. }
  split; [split; assumption|].
  split; [|vm_compute; reflexivity].
  exact (proj2 (proj2 (rejected_steps_keep_markov_state m 5)) Hne Hall).
Defined.

(** C2, as stated, fails for the empty collection: all of its (no) tests
    answer false, and the step is accepted. *)
Lemma rejection_counterexample :
  let m := Scenario.driver [] [] None [-1; 0] in
  Forall always_false (acceptTests (self m)) /\
  markov (self m) = (1%nat, 9) /\
  markov (self (snd (run 1 m))) = (3%nat, 4) /\
  markov (self (snd (run 1 m))) <> markov (self m).
Proof.
  intros m. split; [constructor|].
  split; [reflexivity|]. split; [vm_compute; reflexivity|].
  vm_compute. discriminate.
Qed.

(** ** Observers *)

Section Observers.

Context {float W : Type}.

Local Abbreviation BH := (BasinHopping float W).
Local Abbreviation Mach := (Machine float W BH).





End Observers.



(** ** Storage *)

Section Counts.

Context {float W : Type}.

Local Abbreviation BH := (BasinHopping float W).
Local Abbreviation Mach := (Machine float W BH).

Lemma run_loop_counts n (m : Mach) :
  let m' := snd (run_loop n m) in
  same_collaborators (self m) (self m') /\
  exists tr,
    trace m' = trace m ++ tr /\
    (fst (run_loop n m) = Ok tt ->
     length (calls is_step tr) = n /\
     (forall t, (forall s, truth_value (storage (self m)) s = t) ->
        length (calls is_storage tr) =
          if t then length (calls is_accepted tr) else O) /\
     (acceptTests (self m) = [] -> length (calls is_accepted tr) = n) /\
     stepnum (self m') = stepnum (self m) + Z.of_nat n).
Proof.
  revert n m.
  apply (run_loop_ind (fun n (m : Mach) o (m' : Mach) =>
    same_collaborators (self m) (self m') /\
    exists tr,
      trace m' = trace m ++ tr /\
      (o = Ok tt ->
       length (calls is_step tr) = n /\
       (forall t, (forall s, truth_value (storage (self m)) s = t) ->
          length (calls is_storage tr) =
            if t then length (calls is_accepted tr) else O) /\
       (acceptTests (self m) = [] -> length (calls is_accepted tr) = n) /\
       stepnum (self m') = stepnum (self m) + Z.of_nat n))).
  - intros m. split; [apply same_collaborators_refl|].
    exists []. rewrite app_nil_r. split; [reflexivity|]. intros _.
    repeat split; simpl; try lia. intros t _. now destruct t.
  - intros n m e m1 Hb. apply run_body_post_of in Hb.
    destruct Hb as (Hsc & _ & tr & Htr & _).
    split; [exact Hsc|]. exists tr. split; [exact Htr|]. discriminate.
  - intros n m [[acc q] E] m1 o m2 Hb _ (Hsc2 & tr2 & Htr2 & Hok2).
    apply run_body_post_of in Hb.
    destruct Hb as (Hsc & Hsn & tr & Htr & _ & _ & _ & Hok).
    destruct Hok as (_ & _ & Hlen & Hacc & Hstep & Hac & (sw & _ & Hsto) & _).
    split; [eapply same_collaborators_trans; eauto|].
    exists (tr ++ tr2). split; [now rewrite Htr2, Htr, <- app_assoc|].
    intros Ho. destruct (Hok2 Ho) as (Hn2 & Hs2 & Ha2 & Hsn2).
    destruct Hsc as (Hst & _ & _ & _ & Hts & _). rewrite Hst, Hts in *.
    split; [|split; [|split]].
    + now rewrite calls_app, length_app, Hstep, Hn2.
    + intros t Ht.
      rewrite !calls_app, !length_app, Hsto, (Hs2 t Ht), (Ht sw), Hac.
      destruct acc, t; reflexivity.
    + intros Hnil. rewrite calls_app, length_app, (Ha2 Hnil), Hac.
      rewrite Hnil in Hlen. simpl in Hlen.
      apply nil_length_inv in Hlen. rewrite Hlen in Hacc. now subst acc.
    + lia.
Qed.

End Counts.

(** C4, as the code has it.  The driver tests the truth value of the
    storage before each call.  A constructor that is given a storage whose
    truth value is true and returns has called it exactly twice: with the
    energy the potential returned for the copy of the starting configuration
    and that copy, then with the energy and the configuration the quench
    routine returned, which are the Markov state.  An iteration of [run]
    that returns has called such a storage once, with the candidate, if the
    step was accepted, and not at all otherwise.  So a call [run(n)] that
    returns after such a construction leaves two storage calls plus one for
    each step reported accepted; each of them is a call of the storage that
    took place, in the store the call before it left, and returned.  A
    storage whose truth value is false is not called at all.  The truth
    value [t] of the storage is taken to be the same in every store. *)
Theorem storage_call_count {float W} (Metropolis : float -> MetropolisT float W)
    start potential takeStep (st : Storage float W) (t : bool) event_after_step
    acceptTests temperature nometropolis quenchRoutine outstream
    (w : Machine float W unit) (b : BasinHopping float W) (n : Z) :
  (forall s, __nonzero__ st s = t) ->
  let init := __init__ Metropolis start potential takeStep (Some st)
                event_after_step acceptTests temperature nometropolis
                quenchRoutine outstream in
  fst (init w) = Ok b ->
  let m := with_self b (snd (init w)) in
  let c := length (heap (store w)) in
  (exists potel x y,
     calls is_storage (new_trace w m) =
       (if t then [CStorage potel c; CStorage (markovE b) (coords b)]
        else []) /\
     x ∈ new_trace w m /\ e_call x = CGetEnergy c /\ e_ret x = RFloat potel /\
     y ∈ new_trace w m /\ e_call y = CQuench c /\
     e_ret y = RQuench (coords b) (markovE b) (rms b) (funcalls b)) /\
  threaded b (store w) (new_trace w m) (store m) /\
  (forall (m1 : Machine float W (BasinHopping float W)) st1 acceptstep newcoords newE,
     storage (self m1) = Some st1 -> (forall s, __nonzero__ st1 s = t) ->
     fst (run_body m1) = Ok (acceptstep, newcoords, newE) ->
     calls is_storage (new_trace m1 (snd (run_body m1))) =
       (if acceptstep && t then [CStorage newE newcoords] else []) /\
     threaded (self m1) (store m1) (new_trace m1 (snd (run_body m1)))
       (store (snd (run_body m1)))) /\
  (fst (run n m) = Ok tt ->
   let tr := new_trace w (snd (run n m)) in
   length (calls is_storage tr) =
     (if t
      then 2 + length (calls is_accepted (new_trace m (snd (run n m))))
      else 0)%nat /\
   (forall x E a, x ∈ tr -> e_call x = CStorage E a ->
      exists s', __call__ st E a (e_store x) = (Ok tt, s') /\ e_ret x = RUnit) /\
   threaded b (store w) tr (store (snd (run n m)))).
Proof.
  intros Htrue init H m c.
  pose proof (init_post_of Metropolis start potential takeStep (Some st)
                event_after_step acceptTests temperature nometropolis
                quenchRoutine outstream w _ _ (surjective_pairing _)) as Hp.
  fold init in Hp. rewrite H in Hp.
  destruct Hp as (tr & Htr & Hquiet & _ & _ & Hst & _ & Hpot & _ & Hqr & Hout & _ & _ & _ & Hcalls).
  destruct Hcalls as (potel & x & y & (s1 & s2 & _ & Hmap) & Hx & Hxc & Hxr & Hy & Hyc & Hyr).
  assert (Hnew : new_trace w m = tr) by (now apply new_trace_app).
  cbn [truth_value] in Hmap. rewrite !Htrue in Hmap.
  assert (Hsto : calls is_storage tr =
                 if t then [CStorage potel c; CStorage (markovE b) (coords b)]
                 else [])
    by (rewrite (calls_map _ _ _ Hmap); now destruct t).
  assert (Hti : threaded b (store w) tr (store m)).
  { pose proof (init_threaded Metropolis b start potential takeStep (Some st)
                  event_after_step acceptTests temperature nometropolis
                  quenchRoutine outstream w Hpot Hst Hqr Hout) as Ht.
    cbn zeta in Ht. fold init in Ht. now rewrite (new_trace_app _ _ _ Htr) in Ht. }
  split; [|split; [|split]].
  - exists potel, x, y. rewrite Hnew. auto 10.
  - now rewrite Hnew.
  - intros m1 st1 acc q E Hs1 Ht1 Hb.
    pose proof (run_body_post_of m1 _ _ (surjective_pairing _)) as Hp.
    rewrite Hb in Hp.
    destruct Hp as (_ & _ & tr1 & Htr1 & _ & _ & _ & Hok).
    destruct Hok as (_ & _ & _ & _ & _ & _ & (sw & _ & Hs) & _).
    split; [|apply run_body_threaded].
    rewrite (new_trace_app _ _ _ Htr1), Hs, Hs1. cbn [truth_value].
    now rewrite Ht1.
  - rewrite run_eq. intros Hrun.
    destruct (run_loop_counts (Z.to_nat n) m) as (_ & tr2 & Htr2 & Hok).
    destruct (Hok Hrun) as (_ & Hs & _).
    specialize (Hs t).
    change (storage (self m)) with (storage b) in Hs. rewrite Hst in Hs.
    specialize (Hs Htrue).
    pose proof (run_loop_threaded (Z.to_nat n) m) as Ht2.
    pose proof (run_loop_quiet _ m Hrun) as Hq2.
    rewrite (new_trace_app m _ _ Htr2) in *.
    assert (Hall : trace (snd (run_loop (Z.to_nat n) m)) = trace w ++ tr ++ tr2).
    { rewrite Htr2. change (trace m) with (trace (snd (init w))).
      now rewrite Htr, <- app_assoc. }
    cbn zeta. rewrite (new_trace_app w _ _ Hall).
    assert (Hthr : threaded b (store w) (tr ++ tr2)
                     (store (snd (run_loop (Z.to_nat n) m))))
      by (eapply threaded_app; [exact Hti|exact Ht2]).
    assert (Hq : quiet (tr ++ tr2)).
    { intros z e Hz Hr. apply elem_of_app in Hz as [Hz | Hz].
      - specialize (Hquiet z e Hz Hr). discriminate.
      - exact (Hq2 z e Hz Hr). }
    split; [|split; [|exact Hthr]].
    + rewrite calls_app, length_app, Hsto, Hs. now destruct t.
    + intros z E a Hz Hc.
      destruct (threaded_storage _ _ _ _ _ _ _ Hthr Hq Hz Hc)
        as (st' & s' & Hst' & _ & Hcall & Hret).
      assert (st' = st) by congruence. subst st'. eauto.
Qed.

(** The scenario: constructed with a storage that counts its calls, then
    three steps of the descent from [(3, 0)], all accepted: five storage
    calls, and the count stands at five. *)
Lemma storage_call_count_witness :
  let init := __init__ Scenario.Metropolis 0%nat Scenario.quadratic
                (Scenario.shift [-1; 0]) (Some Cases.tally) []
                [Scenario.downhill] 1 true Scenario.identity_quench
                Scenario.out in
  let w := Scenario.world in
  let b := self (Scenario.driver [Scenario.downhill] [] (Some Cases.tally)
                   [-1; 0]) in
  let m := with_self b (snd (init w)) in
  (forall s, __nonzero__ Cases.tally s = true) /\
  fst (init w) = Ok b /\
  fst (run 3 m) = Ok tt /\
  length (calls is_accepted (new_trace m (snd (run 3 m)))) = 3%nat /\
  length (calls is_storage (new_trace w (snd (run 3 m)))) = (2 + 3)%nat /\
  ext (store w) = 0%nat /\ ext (store (snd (run 3 m))) = 5%nat.
Proof.
  intros init w b m.
  assert (Ht : forall s, __nonzero__ Cases.tally s = true) by reflexivity.
  assert (Hb : fst (init w) = Ok b) by (vm_compute; reflexivity).
  assert (Hrun : fst (run 3 m) = Ok tt) by (vm_compute; reflexivity).
  assert (Hacc : length (calls is_accepted (new_trace m (snd (run 3 m)))) = 3%nat)
    by (vm_compute; reflexivity).
  pose proof (storage_call_count Scenario.Metropolis 0%nat Scenario.quadratic
                (Scenario.shift [-1; 0]) Cases.tally true []
                [Scenario.downhill] 1 true Scenario.identity_quench
                Scenario.out w b 3 Ht Hb) as (_ & _ & _ & Hcount).
  destruct (Hcount Hrun) as (Hlen & _).
  split; [exact Ht|]. split; [exact Hb|]. split; [exact Hrun|].
  split; [exact Hacc|]. split.
  - etransitivity; [exact Hlen|].
    exact (f_equal (fun k => (2 + k)%nat) Hacc).
  - split; vm_compute; reflexivity.
Defined.

(** C4, as stated, fails for a storage that is present and whose truth value
    is false: a container that is false while it is empty is never called,
    neither by the constructor nor for the three accepted steps. *)
Lemma storage_call_count_counterexample :
  let init := __init__ Scenario.Metropolis 0%nat Scenario.quadratic
                (Scenario.shift [-1; 0]) (Some Cases.shelf) []
                [Scenario.downhill] 1 true Scenario.identity_quench
                Scenario.out in
  let w := Scenario.world in
  let b := self (Scenario.driver [Scenario.downhill] [] (Some Cases.shelf)
                   [-1; 0]) in
  let m := with_self b (snd (init w)) in
  fst (init w) = Ok b /\ storage b = Some Cases.shelf /\
  fst (run 3 m) = Ok tt /\
  length (calls is_accepted (new_trace m (snd (run 3 m)))) = 3%nat /\
  calls is_storage (new_trace w (snd (run 3 m))) = [] /\
  length (calls is_storage (new_trace w (snd (run 3 m)))) <> (2 + 3)%nat.
Proof.
  intros init w b m.
  split; [vm_compute; reflexivity|]. split; [reflexivity|].
  split; [vm_compute; reflexivity|]. split; [vm_compute; reflexivity|].
  split; [vm_compute; reflexivity|]. vm_compute. discriminate.
Qed.

(** ** Exceptions *)

Section Exceptions.

Context {float W : Type}.

Local Abbreviation BH := (BasinHopping float W).
Local Abbreviation Mach := (Machine float W BH).


End Exceptions.




(** ** Failing construction *)

(** C6, as the code has it.  The constructor has no handler: whatever a
    collaborator raises during construction, the potential and the quench
    routine included, is what the constructor raises; in particular, when the
    energy evaluation of the copy of the starting configuration raises, the
    constructor raises that exception. *)
Theorem init_propagates_exceptions {float W}
    (Metropolis : float -> MetropolisT float W)
    start potential takeStep storage event_after_step acceptTests temperature
    nometropolis quenchRoutine outstream (w : Machine float W unit) :
  let r := __init__ Metropolis start potential takeStep storage
             event_after_step acceptTests temperature nometropolis
             quenchRoutine outstream w in
  (forall x e, x ∈ new_trace w (snd r) -> e_ret x = RRaise e ->
     fst r = Raise e) /\
  (forall v e s',
     heap (store w) !! start = Some v ->
     getEnergy potential (length (heap (store w)))
       (mkStore (heap (store w) ++ [v]) (ext (store w))) = (Raise e, s') ->
     fst r = Raise e).
Proof.
  intros r. split.
  - intros x e Hx He.
    pose proof (init_post_of Metropolis start potential takeStep storage
                  event_after_step acceptTests temperature nometropolis
                  quenchRoutine outstream w _ _ (surjective_pairing _)) as Hp.
    fold r in Hp. destruct Hp as (tr & Htr & Hr & _).
    rewrite (new_trace_app _ _ _ Htr) in Hx. eauto.
  - intros v e s' Hv Hg. unfold r, __init__, bind, copy, call.
    rewrite Hv. cbn [fst snd self store trace]. rewrite Hg. reflexivity.
Qed.

(** A quench routine that raises on the starting point [(3, 0)]. *)
Lemma init_propagates_exceptions_witness :
  let r := __init__ Scenario.Metropolis 0%nat Scenario.quadratic
             (Scenario.shift [-1; 0]) None [] [] 1 true Scenario.broken_quench
             Scenario.out Scenario.world in
  let x := mkEntry (CQuench 1%nat) (mkStore [[3; 0]; [3; 0]] O)
             (RRaise (PyExc "RuntimeError")) : Entry Z nat in
  x ∈ new_trace Scenario.world (snd r) /\
  fst r = Raise (PyExc "RuntimeError").
Proof.
  intros r x.
  assert (Hx : x ∈ new_trace Scenario.world (snd r)).
  { vm_compute. do 2 apply list_elem_of_further. apply list_elem_of_here. }
  split; [exact Hx|].
  exact (proj1 (init_propagates_exceptions Scenario.Metropolis 0%nat
                  Scenario.quadratic (Scenario.shift [-1; 0]) None [] [] 1 true
                  Scenario.broken_quench Scenario.out Scenario.world)
           x _ Hx eq_refl).
Defined.

(** C6, as stated, fails: a potential that raises [ValueError] on the
    starting configuration makes the constructor raise [ValueError], and a
    quench routine that raises [RuntimeError] makes it raise
    [RuntimeError]; neither is [InvalidInitialStateError]. *)
Lemma init_error_counterexample :
  let r1 := __init__ Scenario.Metropolis 0%nat Scenario.broken_potential
              (Scenario.shift [-1; 0]) None [] [] 1 true
              Scenario.identity_quench Scenario.out Scenario.world in
  let r2 := __init__ Scenario.Metropolis 0%nat Scenario.quadratic
              (Scenario.shift [-1; 0]) None [] [] 1 true
              Scenario.broken_quench Scenario.out Scenario.world in
  (map e_call (new_trace Scenario.world (snd r1)) = [CGetEnergy 1%nat] /\
   map e_ret (new_trace Scenario.world (snd r1)) = [RRaise (PyExc "ValueError")] /\
   fst r1 = Raise (PyExc "ValueError") /\
   fst r1 <> Raise InvalidInitialStateError) /\
  (map e_call (new_trace Scenario.world (snd r2)) =
     [CGetEnergy 1%nat; CWrite (MsgInitial 9); CQuench 1%nat] /\
   map e_ret (new_trace Scenario.world (snd r2)) =
     [RFloat 9; RUnit; RRaise (PyExc "RuntimeError")] /\
   fst r2 = Raise (PyExc "RuntimeError") /\
   fst r2 <> Raise InvalidInitialStateError).
Proof.
  intros r1 r2.
  split; (do 3 (split; [vm_compute; reflexivity|])); vm_compute; discriminate.
Qed.

(** ** The collection of accept tests *)

Lemma test_calls_of_S {float} n (Eold Enew : float) (q : loc) :
  test_calls_of (S n) Eold Enew q =
  test_calls_of n Eold Enew q ++ [CTest n Eold Enew q].
Proof. unfold test_calls_of. now rewrite seq_S, map_app. Qed.

(** C9.  A constructor that returns leaves, in [acceptTests], the caller's
    tests in their order followed, unless [nometropolis] is set, by exactly
    one test, [acceptReject] of the [Metropolis] object made from
    [temperature]; with [nometropolis] set it leaves the caller's tests
    alone.  In every step of a driver with that collection that returns, the
    calls after the perturbation and the quench are those of the tests: the
    caller's test at position [k] is the callee of the [k]-th of them, was
    applied to the old energy, the quenched energy and the quenched
    configuration, and answered; the Metropolis test is the callee of the
    one after the caller's tests, which is the last call of the step, was
    applied to the same arguments, and answered; and every call was entered
    with the store the call before it left. *)
Theorem metropolis_appended_last {float W}
    (Metropolis : float -> MetropolisT float W)
    start potential takeStep storage event_after_step
    (tests : list (AcceptTest float W)) temperature
    nometropolis quenchRoutine outstream (w : Machine float W unit)
    (b : BasinHopping float W) :
  fst (__init__ Metropolis start potential takeStep storage event_after_step
         tests temperature nometropolis quenchRoutine outstream w) = Ok b ->
  acceptTests b =
    tests ++ (if nometropolis then []
              else [acceptReject (Metropolis temperature)]) /\
  metrop_test b =
    (if nometropolis then None else Some (Metropolis temperature)) /\
  (forall (i : nat), (i < length tests)%nat -> acceptTests b !! i = tests !! i) /\
  (nometropolis = false ->
   acceptTests b !! length tests = Some (acceptReject (Metropolis temperature)) /\
   length (acceptTests b) = S (length tests)) /\
  (forall (m : Machine float W (BasinHopping float W)) coordsold Equench_old
          acceptstep qcoords Equench,
     acceptTests (self m) = acceptTests b ->
     fst (mcStep coordsold Equench_old m) = Ok (acceptstep, qcoords, Equench) ->
     let m' := snd (mcStep coordsold Equench_old m) in
     calls is_test (new_trace m m') =
       test_calls_of (length tests) Equench_old Equench qcoords ++
       (if nometropolis then []
        else [CTest (length tests) Equench_old Equench qcoords]) /\
     (exists e1 e2 ttr,
        new_trace m m' = e1 :: e2 :: ttr /\
        is_test (e_call e1) = false /\ is_test (e_call e2) = false /\
        length ttr = (length tests + if nometropolis then 0 else 1)%nat /\
        (forall (k : nat) t, tests !! k = Some t ->
           exists x r s',
             ttr !! k = Some x /\
             e_call x = CTest k Equench_old Equench qcoords /\
             t Equench_old Equench qcoords (e_store x) = (Ok r, s') /\
             e_ret x = RBool r) /\
        (nometropolis = false ->
         exists x r s',
           ttr !! length tests = Some x /\
           e_call x = CTest (length tests) Equench_old Equench qcoords /\
           acceptReject (Metropolis temperature) Equench_old Equench qcoords
             (e_store x) = (Ok r, s') /\
           e_ret x = RBool r)) /\
     threaded (self m) (store m) (new_trace m m') (store m')).
Proof.
  intros H.
  pose proof (init_post_of Metropolis start potential takeStep storage
                event_after_step tests temperature nometropolis
                quenchRoutine outstream w _ _ (surjective_pairing _)) as Hp.
  rewrite H in Hp. destruct Hp as (tr & _ & _ & Hts & Hmt & _).
  split; [exact Hts|]. split; [exact Hmt|]. split; [|split].
  - intros i Hi. rewrite Hts. now apply lookup_app_l.
  - intros ->. rewrite Hts. split.
    + rewrite lookup_app_r by lia. now rewrite Nat.sub_diag.
    + rewrite length_app. simpl. lia.
  - intros m c0 E0 acc q E Hm Hs m'.
    pose proof (mcStep_post_of m c0 E0 _ _ (surjective_pairing _)) as Hp.
    rewrite Hs in Hp. fold m' in Hp.
    pose proof (mcStep_entries _ _ _ _ _ _ _ Hp)
      as (e1 & e2 & ttr & Htr & He1 & He2 & Hlen & Hk).
    apply mcStep_ok in Hp.
    destruct Hp as (tr' & Htr' & _ & _ & Hc & _).
    split; [|split; [|apply mcStep_threaded]].
    + rewrite (new_trace_app _ _ _ Htr'), Hc, Hm, Hts, length_app.
      destruct nometropolis; simpl.
      * now rewrite Nat.add_0_r, app_nil_r.
      * now rewrite Nat.add_1_r, test_calls_of_S.
    + rewrite Hm, Hts in Hk, Hlen.
      exists e1, e2, ttr. split; [now apply new_trace_app|].
      split; [now rewrite He1|]. split; [now rewrite He2|].
      split; [rewrite Hlen, length_app; now destruct nometropolis|].
      split.
      * intros k t Ht. apply Hk. now apply lookup_app_l_Some.
      * intros ->. apply Hk. rewrite lookup_app_r by exact (le_n _).
        now rewrite Nat.sub_diag.
Qed.

(** One caller test, which counts its calls and answers true, and the
    default test appended behind it, which refuses the step uphill: both
    were called, and the step is rejected. *)
Lemma metropolis_appended_last_witness :
  let init := __init__ Scenario.Metropolis 0%nat Scenario.quadratic
                (Scenario.shift [1; 0]) None [] [Scenario.accept] 1 false
                Scenario.identity_quench Scenario.out in
  let b := mkBasinHopping 1%nat None Scenario.quadratic (Scenario.shift [1; 0])
             [] [Scenario.accept; acceptReject (Scenario.Metropolis 1)] 1 false
             Scenario.identity_quench Scenario.out
             (Some (Scenario.Metropolis 1)) 0 0 1 9 in
  let m := with_self b (snd (init Scenario.world)) in
  fst (init Scenario.world) = Ok b /\
  acceptTests b = [Scenario.accept; acceptReject (Scenario.Metropolis 1)] /\
  fst (mcStep 1%nat 9 m) = Ok (false, 3%nat, 16) /\
  calls is_test (new_trace m (snd (mcStep 1%nat 9 m))) =
    [CTest 0 9 16 3%nat; CTest 1 9 16 3%nat] /\
  test_results (new_trace m (snd (mcStep 1%nat 9 m))) = [true; false] /\
  ext (store m) = 0%nat /\ ext (store (snd (mcStep 1%nat 9 m))) = 1%nat.
Proof.
  intros init b m.
  assert (Hb : fst (init Scenario.world) = Ok b) by (vm_compute; reflexivity).
  assert (Hs : fst (mcStep 1%nat 9 m) = Ok (false, 3%nat, 16))
    by (vm_compute; reflexivity).
  destruct (metropolis_appended_last Scenario.Metropolis 0%nat
              Scenario.quadratic (Scenario.shift [1; 0]) None []
              [Scenario.accept] 1 false Scenario.identity_quench Scenario.out
              Scenario.world b Hb) as (Hts & _ & _ & _ & Hstep).
  destruct (Hstep m 1%nat 9 false 3%nat 16 eq_refl Hs) as (Hc & _).
  split; [exact Hb|]. split; [exact Hts|]. split; [exact Hs|].
  split; [exact Hc|]. repeat split; vm_compute; reflexivity.
Defined.




(** ** The working copy *)

(** C7.  [mcStep] never assigns [coords] or [markovE].  The perturbation it
    calls is handed an array that did not exist when the step began, whose
    contents, at the call, are those of the configuration the step was given;
    it is handed nothing else.  When the perturbation, the quench routine and
    the accept tests write only to the array they are handed, and the quench
    routine returns that array or a new one, every array that existed
    when the step began, the Markov configuration among them, has the same
    contents when the step ends.  And [run] replaces the Markov state only
    in a step it reports as accepted. *)
Theorem perturbation_on_fresh_copy {float W}
    (m : Machine float W (BasinHopping float W))
    (coordsold : loc) (Equench_old : float) (n : Z) :
  let m' := snd (mcStep coordsold Equench_old m) in
  markov (self m') = markov (self m) /\
  (forall x, x ∈ new_trace m m' -> is_takeStep (e_call x) = true ->
     e_call x = CTakeStep (length (heap (store m))) /\
     heap (store m) !! length (heap (store m)) = None /\
     exists v, heap (store m) !! coordsold = Some v /\
               heap (e_store x) = heap (store m) ++ [v]) /\
  (keeps_to_arguments (self m) ->
   forall (l' : loc) v, heap (store m) !! l' = Some v ->
                        heap (store m') !! l' = Some v) /\
  (markov (self (snd (run n m))) <> markov (self m) ->
   calls is_accepted (new_trace m (snd (run n m))) <> []).
Proof.
  intros m'.
  pose proof (mcStep_post_of m coordsold Equench_old _ _
                (surjective_pairing _)) as Hp.
  fold m' in Hp.
  destruct Hp as (_ & Hmk & _ & tr & Htr & _ & Hfresh & _ & Hframe & _).
  rewrite (new_trace_app _ _ _ Htr).
  split; [exact Hmk|]. split; [|split].
  - intros x Hx Ht. destruct (Hfresh x Hx Ht) as (Hc & v & Hv & Hs).
    split; [exact Hc|]. split; [|eauto].
    apply lookup_ge_None. lia.
  - intros K l' v Hl. rewrite <- Hl. apply Hframe; [exact K|].
    apply lookup_lt_is_Some. eauto.
  - intros Hne Hnil. apply Hne. revert Hnil. rewrite run_eq.
    destruct (run_loop_rejection (Z.to_nat n) m) as (_ & tr2 & Htr2 & Hno & _).
    now rewrite (new_trace_app _ _ _ Htr2).
Qed.

(** The collaborators of the scenario keep to their arguments. *)
Lemma scenario_keeps_to_arguments tests events sink d :
  Forall (fun t : AcceptTest Z nat =>
            forall s a b c, heap (snd (t a b c s)) = heap s) tests ->
  keeps_to_arguments (self (Scenario.driver tests events sink d)).
Proof.
  intros Htests. split; [|split; [|split]]; simpl.
  - intros l s o s' l' H Hne Hlt. unfold Scenario.shift in H.
    destruct (heap s !! l); injection H as <- <-; simpl; [|reflexivity].
    now apply list_lookup_insert_ne.
  - intros l s o s' l' H Hne Hlt.
    unfold Scenario.identity_quench, Scenario.getEG in H.
    destruct (heap s !! l); injection H as <- <-; simpl; [|reflexivity].
    now apply lookup_app_l.
  - intros l g s c E r f s' H. unfold Scenario.identity_quench in H.
    destruct (g l s) as [[[E' g']|e] s1]; [|discriminate].
    injection H as <- _ _ _ _. now left.
  - eapply Forall_impl; [exact Htests|]. intros t Ht a b c s o s' l' H _ _.
    specialize (Ht s a b c). rewrite H in Ht. simpl in Ht. now rewrite Ht.
Qed.

(** One step of the descent: the perturbation works on the new array 3, the
    Markov configuration at 1 still holds [(3, 0)]. *)
Lemma perturbation_on_fresh_copy_witness :
  let m := Scenario.driver [Scenario.downhill] [] None [-1; 0] in
  let m' := snd (mcStep (coords (self m)) (markovE (self m)) m) in
  keeps_to_arguments (self m) /\
  calls is_takeStep (new_trace m m') = [CTakeStep 3%nat] /\
  heap (store m) !! 1%nat = Some [3; 0] /\
  heap (store m') !! 1%nat = Some [3; 0] /\
  heap (store m') !! 3%nat = Some [2; 0].
Proof.
  intros m m'.
  assert (K : keeps_to_arguments (self m)).
  { apply scenario_keeps_to_arguments. repeat constructor. }
  destruct (perturbation_on_fresh_copy m (coords (self m)) (markovE (self m)) 1)
    as (_ & _ & Hframe & _).
  split; [exact K|]. split; [vm_compute; reflexivity|].
  split; [reflexivity|]. split; [|vm_compute; reflexivity].
  exact (Hframe K 1%nat [3; 0] eq_refl).
Defined.

(** ** Descent *)

Section Descent.

Context {float W : Type}.

Local Abbreviation BH := (BasinHopping float W).
Local Abbreviation Mach := (Machine float W BH).

Variable leb : float -> float -> bool.
Variable t : AcceptTest float W.

(** An energy that compares [<=] to something compares [<=] to itself:
    among floating-point numbers, it is one that is not a NaN. *)
Hypothesis leb_self : forall a b, leb a b = true -> leb a a = true.
Hypothesis t_descent : descent_test leb t.

Lemma descent_step (m : Mach) :
  descending leb t m ->
  descending leb t (snd (run_body m)) /\
  leb (markovE (self (snd (run_body m)))) (markovE (self m)) = true.
Proof.
  intros (Hts & Hself).
  pose proof (run_body_post_of m _ _ (surjective_pairing _)) as Hp.
  destruct Hp as (Hsc & _ & tr & _ & _ & Hdisj & _).
  assert (Hts' : acceptTests (self (snd (run_body m))) = [t]).
  { destruct Hsc as (_ & _ & _ & _ & -> & _). exact Hts. }
  destruct Hdisj as [Hsame | (_ & _ & Htrue)].
  - unfold markov in Hsame. injection Hsame as _ He.
    unfold descending. rewrite He. auto.
  - rewrite Hts in Htrue. destruct (Htrue O t eq_refl) as (s & s' & Hrun).
    apply t_descent in Hrun. symmetry in Hrun.
    unfold descending. rewrite (leb_self _ _ Hrun). auto.
Qed.

Lemma descent_loop n : forall (m : Mach) tail,
  descending leb t m ->
  descending leb t (snd (run_loop n m)) /\
  (non_increasing leb (markovE (self (snd (run_loop n m))) :: tail) ->
   non_increasing leb
     (markovE (self m)
      :: map (fun r => markovE (self (snd r))) (run_states n m) ++ tail)).
Proof.
  induction n as [|n IH]; intros m tail Hm.
  - simpl. auto.
  - destruct (descent_step m Hm) as (Hm1 & Hle).
    rewrite run_loop_S, run_states_S.
    destruct (run_body m) as [[r|e] m1] eqn:Hb; simpl in *.
    + destruct (IH m1 tail Hm1) as (Hm2 & Hchain). split; [exact Hm2|].
      intros Htail. split; [exact Hle|]. now apply Hchain.
    + split; [exact Hm1|]. intros Htail. split; [exact Hle|exact Htail].
Qed.

Lemma descent_calls ns : forall m : Mach,
  descending leb t m ->
  non_increasing leb (markovE (self m) :: markov_energies ns m).
Proof.
  induction ns as [|n ns IH]; intros m Hm; [exact I|].
  simpl. rewrite run_eq.
  destruct (descent_loop (Z.to_nat n) m
              (markov_energies ns (snd (run_loop (Z.to_nat n) m))) Hm)
    as (Hm' & Hchain).
  apply Hchain, IH, Hm'.
Qed.

End Descent.

(** C8.  When the only accept test answers [new_energy <= old_energy], the
    Markov energies after the iterations of any sequence of calls of [run],
    starting with the Markov energy before the first call, are
    non-increasing, whether the calls return or raise.  The energies are
    compared with the test's own [<=]; the Markov energy at the start is
    taken to be a number, that is, to compare [<=] to itself. *)
Theorem descent_energies_non_increasing {float W}
    (leb : float -> float -> bool) (t : AcceptTest float W)
    (m : Machine float W (BasinHopping float W)) (ns : list Z) :
  (forall a b, leb a b = true -> leb a a = true) ->
  descent_test leb t ->
  acceptTests (self m) = [t] ->
  leb (markovE (self m)) (markovE (self m)) = true ->
  non_increasing leb (markovE (self m) :: markov_energies ns m).
Proof.
  intros Hself Ht Hts H0. apply (descent_calls leb t Hself Ht). now split.
Qed.

(** The descent from [(3, 0)] by steps of [(-1, 0)]: two calls, of two and of
    four steps; the energy falls to 0 and stays there. *)
Lemma descent_energies_non_increasing_witness :
  let m := Scenario.driver [Scenario.downhill] [Scenario.watch]
             (Some Scenario.keep) [-1; 0] in
  (forall a b : Z, (a <=? b) = true -> (a <=? a) = true) /\
  descent_test Z.leb Scenario.downhill /\
  acceptTests (self m) = [Scenario.downhill] /\
  (markovE (self m) <=? markovE (self m)) = true /\
  markovE (self m) :: markov_energies [2; 4] m = [9; 4; 1; 0; 0; 0; 0] /\
  non_increasing Z.leb (markovE (self m) :: markov_energies [2; 4] m).
Proof.
  intros m.
  assert (H1 : forall a b : Z, (a <=? b) = true -> (a <=? a) = true)
    by (intros a b _; apply Z.leb_refl).
  assert (H2 : descent_test Z.leb Scenario.downhill)
    by (intros Eold Enew q s b s' [= <- _]; reflexivity).
  split; [exact H1|]. split; [exact H2|]. split; [reflexivity|].
  split; [reflexivity|]. split; [vm_compute; reflexivity|].
  exact (descent_energies_non_increasing Z.leb Scenario.downhill m [2; 4]
           H1 H2 eq_refl eq_refl).
Defined.

(** * Further properties of the driver *)

(** ** Nothing is called after a raise *)

Section Stops.

Context {float W : Type}.

Lemma quiet_nil : quiet (@nil (Entry float W)).
Proof. intros x e Hx. inversion Hx. Qed.

Lemma quiet_app (a b : list (Entry float W)) :
  quiet a -> quiet b -> quiet (a ++ b).
Proof.
  intros Ha Hb x e Hx. apply elem_of_app in Hx as [Hx | Hx]; eauto.
Qed.

Lemma quiet_app_inv (a b : list (Entry float W)) :
  quiet (a ++ b) -> quiet a /\ quiet b.
Proof.
  intros H. split; intros x e Hx; apply H; apply elem_of_app; auto.
Qed.

Section Rules.

Context {S : Type}.

Lemma stops_ret {A} (a : A) : stops_at_raise (ret a : M float W S A).
Proof. intros m. exists []. rewrite app_nil_r. split; [reflexivity|apply quiet_nil]. Qed.

Lemma stops_get_self : stops_at_raise (get_self : M float W S S).
Proof. intros m. exists []. rewrite app_nil_r. split; [reflexivity|apply quiet_nil]. Qed.

Lemma stops_modify_self (f : S -> S) :
  stops_at_raise (modify_self f : M float W S unit).
Proof. intros m. exists []. rewrite app_nil_r. split; [reflexivity|apply quiet_nil]. Qed.

Lemma stops_copy (a : loc) : stops_at_raise (copy a : M float W S loc).
Proof.
  intros m. exists []. rewrite app_nil_r. unfold copy.
  destruct (heap (store m) !! a); simpl.
  - split; [reflexivity|apply quiet_nil].
  - split; [reflexivity|]. left. apply quiet_nil.
Qed.

Lemma stops_call {A} (c : Call float) (r : A -> Ret float)
    (f : Callee float W A) :
  (forall a e, r a <> RRaise e) ->
  stops_at_raise (call c r f : M float W S A).
Proof.
  intros Hr m. unfold call. destruct (f (store m)) as [[a|e] s'] eqn:Hf; simpl.
  - eexists. split; [reflexivity|].
    intros x e Hx. apply list_elem_of_singleton in Hx as ->. simpl. apply Hr.
  - eexists. split; [reflexivity|]. right.
    eexists [], _. split; [reflexivity|]. split; [apply quiet_nil|reflexivity].
Qed.

Lemma stops_store_if (sink : option (Storage float W)) (E : float) (c : loc) :
  stops_at_raise (store_if sink E c : M float W S unit).
Proof.
  intros m. unfold store_if.
  destruct sink as [st|]; [destruct (__nonzero__ st (store m))|].
  - apply (stops_call (CStorage E c) r_unit (__call__ st E c)).
    intros a e. discriminate.
  - apply (stops_ret tt).
  - apply (stops_ret tt).
Qed.

Lemma stops_bind {A B} (c : M float W S A) (k : A -> M float W S B) :
  stops_at_raise c -> (forall a, stops_at_raise (k a)) ->
  stops_at_raise (bind c k).
Proof.
  intros Hc Hk m. unfold bind. destruct (Hc m) as (tr1 & Htr1 & Ho1).
  destruct (c m) as [[a|e] m1]; simpl in *.
  - destruct (Hk a m1) as (tr2 & Htr2 & Ho2).
    exists (tr1 ++ tr2). split; [now rewrite Htr2, Htr1, <- app_assoc|].
    destruct (fst (k a m1)) as [b|e].
    + now apply quiet_app.
    + destruct Ho2 as [Hq | (tr0 & x & -> & Hq & Hx)].
      * left. now apply quiet_app.
      * right. exists (tr1 ++ tr0), x. rewrite <- app_assoc.
        split; [reflexivity|]. split; [now apply quiet_app|exact Hx].
  - exists tr1. auto.
Qed.

Lemma stops_for_in {A B} (body : nat -> A -> B -> M float W S B) (xs : list A) :
  (forall i x acc, stops_at_raise (body i x acc)) ->
  forall i acc, stops_at_raise (for_in i xs body acc).
Proof.
  intros Hb. induction xs as [|x xs IH]; intros i acc; simpl.
  - apply stops_ret.
  - apply stops_bind; [apply Hb|]. intros a. apply IH.
Qed.

End Rules.

Ltac stops :=
  repeat first
    [ apply stops_ret | apply stops_get_self | apply stops_modify_self
    | apply stops_copy
    | apply stops_call; intros ? ?;
      match goal with
      | |- r_quench ?a <> _ => destruct a as [[[? ?] ?] ?]; discriminate
      | |- _ => discriminate
      end
    | apply stops_store_if
    | apply stops_bind; [|intros ?]
    | apply stops_for_in; intros ? ? ?
    | match goal with
      | |- stops_at_raise (match ?x with _ => _ end) => destruct x
      end ].

Local Abbreviation BH := (BasinHopping float W).

Lemma mcStep_stops c0 E0 : stops_at_raise (mcStep c0 E0 : M float W BH _).
Proof. unfold mcStep. stops. Qed.

Lemma run_body_stops : stops_at_raise (run_body : M float W BH _).
Proof. unfold run_body. stops. Qed.

Lemma run_stops n : stops_at_raise (run n : M float W BH _).
Proof.
  unfold run. apply stops_for_in. intros i x acc.
  apply stops_bind; [apply run_body_stops|intros a; apply stops_ret].
Qed.

Lemma init_stops (Metropolis : float -> MetropolisT float W) coords potential
    takeStep storage event_after_step acceptTests temperature nometropolis
    quenchRoutine outstream :
  stops_at_raise
    (__init__ Metropolis coords potential takeStep storage event_after_step
       acceptTests temperature nometropolis quenchRoutine outstream).
Proof. unfold __init__. cbn zeta. stops. Qed.

End Stops.

(** ** The order of the calls of an iteration *)

Section Order.

Context {float W : Type}.

Local Abbreviation BH := (BasinHopping float W).
Local Abbreviation Mach := (Machine float W BH).

Lemma commit_without_storage acceptstep newcoords newE (m : Mach) :
  storage (self m) = None ->
  is_ok (fst (commit_step acceptstep newcoords newE m)) = true.
Proof.
  intros H. destruct acceptstep; [|reflexivity].
  unfold commit_step, bind, get_self, store_if. cbn [fst snd self].
  now rewrite H.
Qed.

Lemma run_body_order (m : Mach) : wp run_body (order_post m) m.
Proof.
  unfold run_body.
  wp_step. wp_step. wp_step. wp_step. wp_step.
  eapply wp_mono; [apply mcStep_spec|]. intros o1 m1 Hmc.
  cbn [self store trace] in Hmc.
  destruct Hmc as (Hsc & Hmk & Hsn & tr1 & Htr1 & Hstep & _ & _ & _ & Hok).
  unfold markov, same_collaborators in Hsc, Hmk. fields.
  injection Hmk as Hc1 Hm1.
  assert (Hp1 : forall p : Call float -> bool,
            (forall c, step_call c -> p c = false) -> calls p tr1 = []).
  { intros p Hp. now apply step_call_calls. }
  assert (Hns : forall x, x ∈ tr1 -> is_storage (e_call x) = true -> False).
  { intros x Hx Hs. rewrite (step_call_not_storage _ (Hstep x Hx)) in Hs.
    discriminate. }
  destruct o1 as [[[acc q] E]|e].
  2: { exists tr1. split; [exact Htr1|].
       split; [intros _; apply Hp1, step_call_not_storage|].
       split; [left; apply Hp1, step_call_not_storage|].
       split; [|exact I]. intros x e' Hx Hs. destruct (Hns x Hx Hs). }
  destruct Hok as (e1 & e2 & ttr & -> & He1 & He2 & Hr2 & Hk & L1 & _).
  wp_step. wp_step. wp_step. wp_step.
  set (line := MsgQu (stepnum (self m1)) E (funcalls (self m1)) (rms (self m1))
                 (markovE (self m1)) (Some acc)) in *.
  set (ew := mkEntry (CWrite line) (store m1) (ret_of r_unit o)).
  set (tr1 := e1 :: e2 :: ttr) in *.
  destruct o as [[]|e].
  2: { exists (tr1 ++ [ew]). split; [now rewrite Htr1, <- app_assoc|].
       assert (Hs : calls is_storage (tr1 ++ [ew]) = [])
         by (rewrite calls_app, (Hp1 _ step_call_not_storage); reflexivity).
       split; [auto|]. split; [now left|]. split; [|exact I].
       intros x e' Hx Hsx. apply elem_of_app in Hx as [Hx | Hx].
       - destruct (Hns x Hx Hsx).
       - apply list_elem_of_singleton in Hx as ->. discriminate. }
  wp_step.
  apply wp_intro. intros oc m2 Hcommit.
  assert (Hnone : storage (self m1) = None -> is_ok oc = true).
  { intros Hn.
    pose proof (commit_without_storage acc q E
                  (mkMachine (self m1) s (trace m1 ++ [ew])) Hn) as Hok.
    assert (Heq : commit_step acc q E
                    (mkMachine (self m1) s (trace m1 ++ [ew])) = (oc, m2))
      by exact Hcommit.
    now rewrite Heq in Hok. }
  pose proof (wp_run _ _ _ (commit_spec acc q E _) _ _ Hcommit) as Hc.
  destruct Hc as (Hsc2 & Hsn2 & Hrms2 & Hfc2 & trc & Htrc & Hoc).
  unfold same_collaborators in Hsc2. fields.
  assert (Hsto1 : storage (self m1) = storage (self m))
    by (now destruct Hsc as (? & _)).
  assert (Hq : e2 ∈ tr1 /\ e_call e2 = CQuench (length (heap (store m))) /\
               e_ret e2 = RQuench q E (rms (self m1)) (funcalls (self m1))).
  { split; [apply list_elem_of_further, list_elem_of_here|]. auto. }
  destruct oc as [[]|e].
  2: { (* the storage raises *)
       destruct Hoc as (_ & -> & x & -> & Hxc & Hxr).
       exists (tr1 ++ [ew; x]).
       split; [rewrite Htrc, Htr1, <- !app_assoc; reflexivity|].
       assert (Hs : calls is_storage (tr1 ++ [ew; x]) = [CStorage E q]).
       { rewrite calls_app, (Hp1 _ step_call_not_storage).
         unfold calls. simpl. now rewrite Hxc. }
       split; [|split; [|split; [|exact I]]].
       - intros Hn. rewrite <- Hsto1 in Hn. specialize (Hnone Hn).
         discriminate.
       - right. destruct Hq as (Hq1 & Hq2 & Hq3).
         exists E, q, e2, (length (heap (store m))),
           (rms (self m1)), (funcalls (self m1)).
         split; [exact Hs|]. split.
         + rewrite calls_app, (Hp1 _ step_call_not_accepted).
           unfold calls, ew, line. simpl. discriminate.
         + split; [apply elem_of_app; auto|]. auto.
       - intros y e' Hy Hsy Hr. rewrite calls_app, (Hp1 _ step_call_not_event).
         unfold calls. simpl. now rewrite Hxc. }
  clear Hcommit Hnone.
  destruct Hoc as (Hmk2 & Hcc & Hcr).
  wp_step. wp_step. wp_step.
  apply wp_intro. intros oe m3 He. apply (events_loop acc) in He.
  destruct He as (Hself3 & tre & Htre & Hlene & Hke & Hoe).
  change (0 + ?k)%nat with k in Hke.
  rewrite <- Hself3 in Hke, Hrms2, Hfc2, Hsn2.
  rewrite Hsto1 in Hcc.
  assert (Hev : forall x, x ∈ tre -> is_event (e_call x) = true).
  { intros x Hx. apply list_elem_of_lookup in Hx as [k Hx].
    now rewrite (Hke k x Hx). }
  assert (Hpe : forall p : Call float -> bool,
            (forall c, is_event c = true -> p c = false) -> calls p tre = []).
  { intros p Hp. apply calls_none. intros x Hx. apply Hp. now apply Hev. }
  set (tr := tr1 ++ ew :: trc ++ tre).
  assert (Htr : trace m3 = trace m ++ tr).
  { rewrite Htre, Htrc, Htr1. unfold tr. rewrite <- !app_assoc. reflexivity. }
  assert (Hsto : calls is_storage tr =
                 if acc && truth_value (storage (self m)) s
                 then [CStorage E q] else []).
  { unfold tr. rewrite calls_app, (Hp1 _ step_call_not_storage).
    change (ew :: trc ++ tre) with ([ew] ++ trc ++ tre).
    rewrite !calls_app, (calls_map _ _ _ Hcc), Hpe
      by (intros []; simpl; congruence).
    destruct acc; [destruct (truth_value (storage (self m)) s)|];
      reflexivity. }
  assert (Hleft : line_left m tr s).
  { exists ew, line.
    split; [unfold tr; rewrite elem_of_app, elem_of_cons; auto|].
    split; [reflexivity|]. split; [reflexivity|].
    destruct Hsc as (_ & _ & _ & _ & _ & _ & <-). exact Hcall. }
  assert (Hpost : forall o' : Outcome (bool * loc * float),
            match o' with
            | Ok (a, c, E') =>
                map e_call tr =
                  iteration_calls m m3 (length (heap (store m))) a
                    (truth_value (storage (self m)) s) c E'
            | Raise _ => True
            end -> order_post m o' m3).
  { intros o' Ho'. exists tr. split; [exact Htr|].
    split; [|split; [|split]].
    4: { destruct o' as [[[a c] E']|e']; [|exact I]. exists s. auto. }
    - intros Hn. rewrite Hsto, Hn. now destruct acc.
    - rewrite Hsto. destruct acc; [|now left].
      destruct (truth_value (storage (self m)) s); [|now left]. right.
      destruct Hq as (Hq1 & Hq2 & Hq3).
      exists E, q, e2, (length (heap (store m))),
        (rms (self m1)), (funcalls (self m1)).
      split; [reflexivity|]. split.
      + unfold tr. rewrite calls_app, (Hp1 _ step_call_not_accepted).
        unfold calls, ew, line. simpl. discriminate.
      + split; [unfold tr; apply elem_of_app; auto|]. auto.
    - intros x e' Hx Hsx Hr. unfold tr in Hx.
      apply elem_of_app in Hx as [Hx | Hx]; [destruct (Hns x Hx Hsx)|].
      apply elem_of_cons in Hx as [-> | Hx]; [discriminate|].
      apply elem_of_app in Hx as [Hx | Hx].
      + rewrite (Hcr x Hx) in Hr. discriminate.
      + pose proof (Hev x Hx) as Hex. destruct (e_call x); discriminate. }
  destruct oe as [[]|e]; [|apply Hpost; exact I].
  wp_step. apply Hpost. destruct Hoe as (Hle & _).
  unfold tr, iteration_calls, tr1. rewrite !map_app. simpl.
  rewrite He1, He2. do 2 f_equal.
  rewrite (map_by_index (fun k => CTest k (markovE (self m)) E q) e_call ttr)
    by (intros k x Hx; now destruct (Hk k x Hx)).
  rewrite L1. unfold test_calls_of. f_equal.
  assert (Hline : CWrite line = step_line m m3 E acc).
  { unfold step_line, line. now rewrite Hsn2, Hrms2, Hfc2, Hm1. }
  rewrite Hline. f_equal. rewrite map_app, Hcc. f_equal.
  rewrite (map_by_index
             (fun k => CEvent k (markovE (self m3)) (coords (self m3)) acc)
             e_call tre Hke).
  rewrite Hle, Hself3. destruct Hsc2 as (_ & _ & _ & -> & _).
  destruct Hsc as (_ & _ & _ & -> & _). reflexivity.
Qed.

Lemma run_body_order_of (m : Mach) o m1 :
  run_body m = (o, m1) -> order_post m o m1.
Proof. intros H. exact (wp_run _ _ _ (run_body_order m) o m1 H). Qed.

End Order.

(** X1.  An iteration of [run] that returns has made exactly these calls, in
    this order: the perturbation and then the quench routine on the working
    copy, the accept tests, one line on the output stream, the storage if
    the step was accepted and the truth value of the storage was true in
    the store the output stream left, the observers.  Every one of them is a
    call of the collaborator it names that took place, in the store the call
    before it left, and none raised.  The line carries the new step number,
    the energy, residual and iteration count of this iteration's quench,
    kept in [rms] and [funcalls] whether the step was accepted or not, and
    the Markov energy from before the decision. *)
Theorem iteration_call_order {float W}
    (m : Machine float W (BasinHopping float W))
    (acceptstep : bool) (newcoords : loc) (newE : float) :
  fst (run_body m) = Ok (acceptstep, newcoords, newE) ->
  let m' := snd (run_body m) in
  (exists sw,
     line_left m (new_trace m m') sw /\
     map e_call (new_trace m m') =
       iteration_calls m m' (length (heap (store m))) acceptstep
         (truth_value (storage (self m)) sw) newcoords newE) /\
  quiet (new_trace m m') /\
  threaded (self m) (store m) (new_trace m m') (store m') /\
  stepnum (self m') = stepnum (self m) + 1 /\
  exists y c, y ∈ new_trace m m' /\ e_call y = CQuench c /\
    e_ret y = RQuench newcoords newE (rms (self m')) (funcalls (self m')).
Proof.
  intros H m'.
  pose proof (run_body_order_of m _ _ (surjective_pairing _)) as Ho.
  pose proof (run_body_post_of m _ _ (surjective_pairing _)) as Hp.
  pose proof (run_body_threaded m) as Ht.
  pose proof (run_body_quiet m _ H) as Hq.
  rewrite H in Ho, Hp. fold m' in Ho, Hp, Ht, Hq.
  destruct Ho as (tr & Htr & _ & _ & _ & Hcalls).
  destruct Hp as (_ & Hsn & tr' & Htr' & _ & _ & _ & Hok).
  destruct Hok as (_ & _ & _ & _ & _ & _ & _ & _ & Hqu).
  rewrite (new_trace_app _ _ _ Htr) in *. split; [exact Hcalls|].
  split; [exact Hq|]. split; [exact Ht|]. split; [exact Hsn|].
  assert (tr' = tr) as -> by (rewrite Htr in Htr'; now apply app_inv_head in Htr').
  exact Hqu.
Qed.

(** An accepted step with a test, a storage and an observer that count
    their calls: six calls, and the count stands at three. *)
Lemma iteration_call_order_witness :
  let m := Scenario.driver [Scenario.accept] [Scenario.watch]
             (Some Cases.tally) [-1; 0] in
  fst (run_body m) = Ok (true, 3%nat, 4) /\
  map e_call (new_trace m (snd (run_body m))) =
    [CTakeStep 3; CQuench 3; CTest 0 9 4 3%nat;
     CWrite (MsgQu 1 4 1 0 9 (Some true)); CStorage 4 3%nat;
     CEvent 0 4 3%nat true] /\
  ext (store m) = 0%nat /\ ext (store (snd (run_body m))) = 3%nat.
Proof.
  intros m.
  assert (H : fst (run_body m) = Ok (true, 3%nat, 4)) by (vm_compute; reflexivity).
  destruct (iteration_call_order m true 3%nat 4 H) as ((sw & _ & Hc) & _).
  split; [exact H|]. split.
  - etransitivity; [exact Hc|]. vm_compute. reflexivity.
  - split; vm_compute; reflexivity.
Defined.

Section StorageUse.

Context {float W : Type}.

Local Abbreviation BH := (BasinHopping float W).
Local Abbreviation Mach := (Machine float W BH).

Lemma run_loop_storage n (m : Mach) :
  let m' := snd (run_loop n m) in
  same_collaborators (self m) (self m') /\
  exists tr,
    trace m' = trace m ++ tr /\
    (storage (self m) = None -> calls is_storage tr = []) /\
    (length (calls is_storage tr) <= length (calls is_accepted tr))%nat.
Proof.
  revert n m.
  apply (run_loop_ind (fun _ (m : Mach) _ (m' : Mach) =>
    same_collaborators (self m) (self m') /\
    exists tr,
      trace m' = trace m ++ tr /\
      (storage (self m) = None -> calls is_storage tr = []) /\
      (length (calls is_storage tr) <= length (calls is_accepted tr))%nat)).
  - intros m. split; [apply same_collaborators_refl|].
    exists []. rewrite app_nil_r. repeat split; auto.
  - intros _ m e m1 Hb.
    pose proof (run_body_post_of _ _ _ Hb) as (Hsc & _).
    apply run_body_order_of in Hb.
    destruct Hb as (tr & Htr & Hnone & Hone & _).
    split; [exact Hsc|]. exists tr. split; [exact Htr|]. split; [exact Hnone|].
    destruct Hone as [-> | (E & q & y & c & r & f & -> & Hacc & _)];
      [simpl; lia|].
    destruct (calls is_accepted tr); [congruence|simpl; lia].
  - intros n m r m1 o m2 Hb _ (Hsc2 & tr2 & Htr2 & Hnone2 & Hle2).
    pose proof (run_body_post_of _ _ _ Hb) as (Hsc & _).
    apply run_body_order_of in Hb.
    destruct Hb as (tr & Htr & Hnone & Hone & _).
    split; [eapply same_collaborators_trans; eauto|].
    exists (tr ++ tr2). split; [now rewrite Htr2, Htr, <- app_assoc|].
    rewrite !calls_app, !length_app. split.
    + intros Hn. rewrite (Hnone Hn), Hnone2; [reflexivity|].
      destruct Hsc as (-> & _). exact Hn.
    + destruct Hone as [-> | (E & q & y & c & r' & f & -> & Hacc & _)];
        [simpl; lia|].
      destruct (calls is_accepted tr); [congruence|simpl; lia].
Qed.

End StorageUse.

(** X2.  The storage is called only for a step that was reported accepted:
    in an iteration of [run], whether it returns or raises, it is called at
    most once, and then with the energy and configuration this iteration's
    quench returned, after the line that reports the step as accepted; over
    a call of [run] there are never more storage calls than accepted
    steps; and a driver without storage makes none. *)
Theorem storage_only_for_accepted {float W}
    (m : Machine float W (BasinHopping float W)) (n : Z) :
  (calls is_storage (new_trace m (snd (run_body m))) = [] \/
   exists E q y c r f,
     calls is_storage (new_trace m (snd (run_body m))) = [CStorage E q] /\
     calls is_accepted (new_trace m (snd (run_body m))) <> [] /\
     y ∈ new_trace m (snd (run_body m)) /\ e_call y = CQuench c /\
     e_ret y = RQuench q E r f) /\
  (length (calls is_storage (new_trace m (snd (run n m)))) <=
   length (calls is_accepted (new_trace m (snd (run n m)))))%nat /\
  (storage (self m) = None ->
   calls is_storage (new_trace m (snd (run n m))) = []).
Proof.
  split.
  - pose proof (run_body_order_of m _ _ (surjective_pairing _)) as Ho.
    destruct Ho as (tr & Htr & _ & Hone & _).
    now rewrite (new_trace_app _ _ _ Htr).
  - rewrite run_eq.
    destruct (run_loop_storage (Z.to_nat n) m) as (_ & tr & Htr & Hnone & Hle).
    rewrite (new_trace_app _ _ _ Htr). auto.
Qed.

(** A run that raises in its third step after two accepted ones, with a
    storage; and the same without. *)
Lemma storage_only_for_accepted_witness :
  let m := Scenario.driver [Scenario.downhill] [] (Some Scenario.keep) [-1; 0] in
  let m0 := Scenario.driver [Scenario.downhill] [] None [-1; 0] in
  storage (self m0) = None /\
  calls is_storage (new_trace m0 (snd (run 3 m0))) = [] /\
  calls is_storage (new_trace m (snd (run 3 m))) =
    [CStorage 4 3%nat; CStorage 1 5%nat; CStorage 0 7%nat] /\
  (length (calls is_storage (new_trace m (snd (run 3 m)))) <=
   length (calls is_accepted (new_trace m (snd (run 3 m)))))%nat.
Proof.
  intros m m0.
  destruct (storage_only_for_accepted m0 3) as (_ & _ & Hnone).
  destruct (storage_only_for_accepted m 3) as (_ & Hle & _).
  split; [reflexivity|]. split; [exact (Hnone eq_refl)|].
  split; [vm_compute; reflexivity|exact Hle].
Defined.



(** ** The last call of a computation that raises *)

Lemma raise_is_last {float W S A} (c : M float W S A) (m : Machine float W S)
    before x after e :
  stops_at_raise c ->
  new_trace m (snd (c m)) = before ++ x :: after -> e_ret x = RRaise e ->
  after = [] /\ quiet before /\ fst (c m) = Raise e.
Proof.
  intros Hc Hnew Hr. destruct (Hc m) as (tr & Htr & Ho).
  rewrite (new_trace_app _ _ _ Htr) in Hnew. subst tr.
  assert (Hx : x ∈ before ++ x :: after)
    by (apply elem_of_app; right; apply list_elem_of_here).
  assert (Hnq : ~ quiet (before ++ x :: after))
    by (intros Hq; exact (Hq x e Hx Hr)).
  destruct (fst (c m)) as [a|e']; [contradiction|].
  destruct Ho as [Hq | (tr0 & y & Heq & Hq & Hy)]; [contradiction|].
  destruct after as [|z after'] using rev_ind.
  - apply app_inj_tail in Heq as [-> ->]. repeat split; auto. congruence.
  - exfalso. clear IHafter'.
    change (before ++ x :: after' ++ [z])
      with (before ++ (x :: after') ++ [z]) in Heq.
    rewrite app_assoc in Heq. apply app_inj_tail in Heq as [<- _].
    apply (Hq x e); [|exact Hr]. apply elem_of_app. right. apply list_elem_of_here.
Qed.

(** X4.  The driver calls nothing after a collaborator has raised: in the
    calls of [run], and in those of the constructor, a call that raised is
    the last one, no call before it raised, and what it raised is what
    [run], or the constructor, raises. *)
Theorem no_call_after_raise {float W}
    (Metropolis : float -> MetropolisT float W)
    start potential takeStep sink event_after_step acceptTests temperature
    nometropolis quenchRoutine outstream (w : Machine float W unit)
    (m : Machine float W (BasinHopping float W)) (n : Z) :
  (forall before x after e,
     new_trace m (snd (run n m)) = before ++ x :: after ->
     e_ret x = RRaise e ->
     after = [] /\ quiet before /\ fst (run n m) = Raise e) /\
  (forall before x after e,
     let r := __init__ Metropolis start potential takeStep sink
                event_after_step acceptTests temperature nometropolis
                quenchRoutine outstream w in
     new_trace w (snd r) = before ++ x :: after ->
     e_ret x = RRaise e ->
     after = [] /\ quiet before /\ fst r = Raise e).
Proof.
  split.
  - intros before x after e. apply raise_is_last, run_stops.
  - intros before x after e r. apply raise_is_last, init_stops.
Qed.

(** The first of two observers raises in the second step: the second
    observer is not called in that step and the third step is not begun. *)
Lemma no_call_after_raise_witness :
  let fussy : Event Z nat :=
    fun E _ _ s => if E <=? 1 then (Raise (PyExc "RuntimeError"), s)
                   else (Ok tt, s) in
  let m := Scenario.driver [Scenario.downhill] [fussy; Scenario.watch] None
             [-1; 0] in
  map e_call (new_trace m (snd (run 3 m))) =
    [CTakeStep 3; CQuench 3; CTest 0 9 4 3%nat;
     CWrite (MsgQu 1 4 1 0 9 (Some true));
     CEvent 0 4 3%nat true; CEvent 1 4 3%nat true;
     CTakeStep 5; CQuench 5; CTest 0 4 1 5%nat;
     CWrite (MsgQu 2 1 1 0 4 (Some true)); CEvent 0 1 5%nat true] /\
  fst (run 3 m) = Raise (PyExc "RuntimeError").
Proof.
  intros fussy m. split; [vm_compute; reflexivity|].
  destruct (no_call_after_raise Scenario.Metropolis 0%nat Scenario.quadratic
              (Scenario.shift [-1; 0]) None [] [] 1 true
              Scenario.identity_quench Scenario.out Scenario.world m 3)
    as (Hrun & _).
  assert (Hsplit : exists before x,
            new_trace m (snd (run 3 m)) = before ++ x :: [] /\
            e_ret x = RRaise (PyExc "RuntimeError")).
  { vm_compute. eexists (_ :: _ :: _ :: _ :: _ :: _ :: _ :: _ :: _ :: _ :: []), _.
    split; reflexivity. }
  destruct Hsplit as (before & x & Hnew & Hr).
  exact (proj2 (proj2 (Hrun before x [] _ Hnew Hr))).
Defined.

(** ** The step counter *)

Section Counter.

Context {float W : Type}.

Local Abbreviation BH := (BasinHopping float W).
Local Abbreviation Mach := (Machine float W BH).





Lemma run_loop_add a : forall b (m : Mach),
  run_loop (a + b) m = (run_loop a ;;; run_loop b) m.
Proof.
  induction a as [|a IH]; intros b m.
  - reflexivity.
  - change (S a + b)%nat with (S (a + b)). unfold bind at 1.
    rewrite !run_loop_S.
    destruct (run_body m) as [[r|e] m1]; [|reflexivity].
    rewrite IH. reflexivity.
Qed.

End Counter.



(** X6.  Calls of [run] compose, within the range of [xrange]: for [a] and
    [b] not negative whose sum fits a C long, so that [xrange] accepts [a],
    [b] and [a + b], [run(a)] followed by [run(b)] is [run(a + b)], with the
    same result, the same machine and the same calls, also when one of the
    steps raises; and [run(n)] for an [n <= 0] that fits a C long does
    nothing. *)
Theorem run_composes {float W}
    (m : Machine float W (BasinHopping float W)) (a b n : Z) :
  (0 <= a -> 0 <= b -> c_long (a + b) ->
   (run a ;;; run b) m = run (a + b) m) /\
  (n <= 0 -> c_long n -> run n m = (Ok tt, m)).
Proof.
  split.
  - intros Ha Hb _. unfold bind. rewrite !run_eq.
    rewrite Z2Nat.inj_add by assumption. rewrite run_loop_add. unfold bind.
    destruct (run_loop (Z.to_nat a) m) as [[[]|e] m1]; [|reflexivity].
    now rewrite run_eq.
  - intros Hn _. rewrite run_eq. replace (Z.to_nat n) with O by lia.
    reflexivity.
Qed.

(** Two steps and then three are five steps: the same trace. *)
Lemma run_composes_witness :
  let m := Scenario.driver [Scenario.downhill] [Scenario.watch]
             (Some Scenario.keep) [-1; 0] in
  (0 <= 2 /\ 0 <= 3 /\ c_long (2 + 3)) /\
  trace (snd ((run 2 ;;; run 3) m)) = trace (snd (run 5 m)) /\
  markov_energies [2; 3] m = markov_energies [5] m.
Proof.
  intros m.
  assert (Ha : 0 <= 2) by lia. assert (Hb : 0 <= 3) by lia.
  assert (Hc : c_long (2 + 3)) by (unfold c_long; simpl; lia).
  destruct (run_composes m 2 3 0) as (Hrun & _).
  split; [repeat split; assumption|].
  split; [now rewrite (Hrun Ha Hb Hc)|vm_compute; reflexivity].
Defined.

(** ** The starting configuration *)

Section InitCopy.

Context {float W : Type}.

Local Abbreviation BH := (BasinHopping float W).

Variable Metropolis : float -> MetropolisT float W.

Ltac in_cases Hx :=
  repeat first [ apply elem_of_app in Hx as [Hx | Hx]
               | apply elem_of_cons in Hx as [-> | Hx]
               | apply elem_of_nil in Hx; destruct Hx ].

Ltac copy_leaf Hcopy :=
  eexists; split; [rewrite <- ?app_assoc; reflexivity|];
  split; [intros Hn; rewrite Hn in Hcopy; discriminate|];
  split; [intros v' Hv'; rewrite Hv' in Hcopy; injection Hcopy as ->;
          eexists _, _; split; [reflexivity|split; reflexivity]|];
  split; [intros x a Hx [H | H]; in_cases Hx; cbn in H; congruence|];
  split; [|intros x Hx; in_cases Hx; repeat split; reflexivity];
  intros x E a Hx H; in_cases Hx; cbn in H; try discriminate;
  injection H as <- <-; (split; [congruence|]);
  first [ left; reflexivity
        | right;
          match goal with
          | |- context [mkEntry (CQuench ?c) ?s (ret_of r_quench (Ok (?q, ?E, ?r, ?f)))] =>
              exists (mkEntry (CQuench c) s (ret_of r_quench (Ok (q, E, r, f)))), r, f
          end;
          split; [simpl; repeat first [apply list_elem_of_here
                                      | apply list_elem_of_further]|];
          split; reflexivity ].

Lemma init_copy_spec start potential takeStep storage event_after_step
    acceptTests temperature nometropolis quenchRoutine outstream
    (w : Machine float W unit) :
  wp (__init__ Metropolis start potential takeStep storage event_after_step
        acceptTests temperature nometropolis quenchRoutine outstream)
     (init_copy_post start storage w) w.
Proof.
  unfold __init__.
  wp_step. wp_step.
  2: { exists []. rewrite app_nil_r. split; [reflexivity|].
       split; [auto|]. split; [intros v Hv; congruence|].
       split; [intros x a Hx; inversion Hx|].
       split; [intros x E a Hx; inversion Hx|intros x Hx; inversion Hx]. }
  cbn zeta. wp_step. wp_step. destruct o as [potel|e]; [|copy_leaf Hcopy].
  wp_step. wp_step. destruct o as [[]|e]; [|copy_leaf Hcopy].
  wp_step. wp_step.
  - wp_step. destruct o as [[]|e]; [|copy_leaf Hcopy].
    wp_step. wp_step. destruct o as [[[[nc Eq] r] f]|e]; [|copy_leaf Hcopy].
    cbn beta iota zeta. wp_step. wp_step. destruct o as [[]|e]; [|copy_leaf Hcopy].
    wp_step. wp_step.
    + wp_step. destruct o as [[]|e]; [|copy_leaf Hcopy].
      wp_step. copy_leaf Hcopy.
    + wp_step. copy_leaf Hcopy.
  - wp_step. wp_step. destruct o as [[[[nc Eq] r] f]|e]; [|copy_leaf Hcopy].
    cbn beta iota zeta. wp_step. wp_step. destruct o as [[]|e]; [|copy_leaf Hcopy].
    wp_step. wp_step.
    + wp_step. destruct o as [[]|e]; [|copy_leaf Hcopy].
      wp_step. copy_leaf Hcopy.
    + wp_step. copy_leaf Hcopy.
Qed.

End InitCopy.

(** X7.  The constructor works on a copy of the starting configuration.
    When [start] refers to an array, the first call is the energy evaluation,
    on a new array that holds the contents of [start], while [start] still
    holds them too; the energy evaluation and the quench routine are handed
    that copy and nothing else; the storage is called only if there is one
    and its truth value is true at the call, with the copy or with the
    configuration and energy the quench returned; the perturbation, the
    accept tests and the observers are not called.  Whether the constructor
    returns or raises, every call it made is a call of the collaborator it
    was given, which took place in the store the call before it left.  The
    object a constructor that returns has built starts at step 0, and its
    calls were, in order: the energy evaluation, a line, the storage if its
    truth value was true in the store the output stream left, the quench, a
    line, and the storage again under the same condition. *)
Theorem init_works_on_a_copy {float W}
    (Metropolis : float -> MetropolisT float W)
    start potential takeStep sink event_after_step acceptTests temperature
    nometropolis quenchRoutine outstream (w : Machine float W unit) :
  let r := __init__ Metropolis start potential takeStep sink
             event_after_step acceptTests temperature nometropolis
             quenchRoutine outstream w in
  let c := length (heap (store w)) in
  let tr := new_trace w (snd r) in
  (forall v, heap (store w) !! start = Some v ->
     c <> start /\
     exists x rest,
       tr = x :: rest /\ e_call x = CGetEnergy c /\
       heap (e_store x) !! c = Some v /\ heap (e_store x) !! start = Some v) /\
  (forall x a, x ∈ tr ->
     e_call x = CGetEnergy a \/ e_call x = CQuench a -> a = c) /\
  (forall x E a, x ∈ tr -> e_call x = CStorage E a ->
     sink <> None /\
     (a = c \/
      exists y r f, y ∈ tr /\ e_call y = CQuench c /\
                    e_ret y = RQuench a E r f)) /\
  (forall x, x ∈ tr ->
     is_takeStep (e_call x) = false /\ is_test (e_call x) = false /\
     is_event (e_call x) = false) /\
  (forall x, x ∈ tr -> is_storage (e_call x) = true ->
     truth_value sink (e_store x) = true) /\
  (forall b0, built_from b0 potential sink quenchRoutine outstream ->
     threaded b0 (store w) tr (store (snd r))) /\
  (forall b, fst r = Ok b ->
     stepnum b = 0 /\
     (exists potel s1 s2,
        lines_left outstream potel b tr s1 s2 /\
        map e_call tr =
          init_calls c potel b (truth_value sink s1) (truth_value sink s2)) /\
     quiet tr /\
     threaded b (store w) tr (store (snd r))).
Proof.
  intros r c tr.
  assert (Hthr : forall b0, built_from b0 potential sink quenchRoutine outstream ->
            threaded b0 (store w) tr (store (snd r))).
  { intros b0 (Hp & Hs & Hq & Ho).
    exact (init_threaded Metropolis b0 start potential takeStep sink
             event_after_step acceptTests temperature nometropolis
             quenchRoutine outstream w Hp Hs Hq Ho). }
  assert (Hret : forall b, fst r = Ok b ->
            stepnum b = 0 /\
            (exists potel s1 s2,
               lines_left outstream potel b tr s1 s2 /\
               map e_call tr =
                 init_calls c potel b (truth_value sink s1)
                   (truth_value sink s2)) /\
            quiet tr /\
            threaded b (store w) tr (store (snd r))).
  { intros b Hb.
    pose proof (init_post_of Metropolis start potential takeStep sink
                  event_after_step acceptTests temperature nometropolis
                  quenchRoutine outstream w _ _ (surjective_pairing _)) as Hp.
    fold r in Hp. rewrite Hb in Hp. destruct Hp as (tr' & Htr & Hq & Hok).
    destruct Hok as (_ & _ & Hst & _ & Hpot & _ & Hqr & Hout & _ & _ & Hsn & Hcalls).
    destruct Hcalls as (potel & x & y & (s1 & s2 & Hl & Hmap) & _).
    assert (tr = tr') as Heq by (now apply new_trace_app).
    split; [exact Hsn|]. split; [exists potel, s1, s2; now rewrite Heq|].
    split.
    - intros z e Hz Hr. rewrite Heq in Hz. specialize (Hq z e Hz Hr).
      discriminate.
    - apply Hthr. repeat split; assumption. }
  pose proof (wp_run _ _ _
                (init_copy_spec Metropolis start potential takeStep sink
                   event_after_step acceptTests temperature nometropolis
                   quenchRoutine outstream w) _ _ (surjective_pairing _)) as Hp.
  fold r in Hp. destruct Hp as (tr' & Htr & _ & Hfirst & Hargs & Hsto & Hnot).
  assert (Htruth : forall x, x ∈ tr -> is_storage (e_call x) = true ->
            truth_value sink (e_store x) = true).
  { intros x Hx Hs.
    pose (b0 := mkBasinHopping start sink potential takeStep event_after_step
                  acceptTests temperature nometropolis quenchRoutine outstream
                  None 0 temperature 0 temperature).
    assert (Hb0 : built_from b0 potential sink quenchRoutine outstream)
      by (repeat split).
    destruct (threaded_applied _ _ _ _ _ (Hthr b0 Hb0) Hx) as (s1 & _ & Ht).
    exact (Ht Hs). }
  revert Hret Htruth Hthr. unfold tr. rewrite (new_trace_app _ _ _ Htr).
  intros Hret Htruth Hthr.
  split; [|auto 8].
  intros v Hv. destruct (Hfirst v Hv) as (x & rest & -> & Hc & Hs).
  assert (Hlt : (start < c)%nat) by (apply lookup_lt_is_Some; eauto).
  split; [unfold c; lia|]. exists x, rest. split; [reflexivity|].
  split; [exact Hc|]. rewrite Hs. simpl. split.
  - rewrite lookup_app_r by reflexivity. fold c. now rewrite Nat.sub_diag.
  - now apply lookup_app_l_Some.
Qed.

(** The construction from [(3, 0)] with a storage that counts its calls:
    six calls, two of them of the storage, and the count stands at two. *)
Lemma init_works_on_a_copy_witness :
  let r := __init__ Scenario.Metropolis 0%nat Scenario.quadratic
             (Scenario.shift [-1; 0]) (Some Cases.tally) []
             [Scenario.downhill] 1 true Scenario.identity_quench
             Scenario.out Scenario.world in
  heap (store Scenario.world) !! 0%nat = Some [3; 0] /\
  map e_call (new_trace Scenario.world (snd r)) =
    [CGetEnergy 1; CWrite (MsgInitial 9); CStorage 9 1%nat; CQuench 1;
     CWrite (MsgQu 0 9 1 0 9 None); CStorage 9 1%nat] /\
  (exists x rest,
     new_trace Scenario.world (snd r) = x :: rest /\
     heap (e_store x) !! 1%nat = Some [3; 0] /\
     heap (e_store x) !! 0%nat = Some [3; 0]) /\
  ext (store Scenario.world) = 0%nat /\ ext (store (snd r)) = 2%nat.
Proof.
  intros r. split; [reflexivity|]. split; [vm_compute; reflexivity|].
  destruct (init_works_on_a_copy Scenario.Metropolis 0%nat Scenario.quadratic
              (Scenario.shift [-1; 0]) (Some Cases.tally) []
              [Scenario.downhill] 1 true Scenario.identity_quench
              Scenario.out Scenario.world) as (Hfirst & _).
  destruct (Hfirst [3; 0] eq_refl) as (_ & x & rest & Hx & _ & H1 & H0).
  split; [exists x, rest; auto|]. split; vm_compute; reflexivity.
Defined.

(** ** The Markov state and the fields [run] leaves alone *)

Section Invariants.

Context {float W : Type}.

Local Abbreviation BH := (BasinHopping float W).
Local Abbreviation Mach := (Machine float W BH).

Lemma run_loop_quenched n (m : Mach) :
  quenched m -> quenched (snd (run_loop n m)).
Proof.
  revert n m.
  apply (run_loop_ind (fun _ (m : Mach) _ (m' : Mach) =>
                         quenched m -> quenched m')).
  - auto.
  - intros _ m e m1 Hb Hm. apply run_body_post_of in Hb.
    destruct Hb as (_ & _ & tr & Htr & _ & Hdisj & _).
    destruct Hdisj as [Hsame | ((y & c & Hy & Hc & Hr) & _)].
    + destruct Hm as (y & c & r & f & Hy & Hc & Hr).
      unfold markov in Hsame. unfold quenched. injection Hsame as -> ->.
      exists y, c, r, f. rewrite Htr, elem_of_app. auto.
    + exists y, c, (rms (self m1)), (funcalls (self m1)).
      rewrite Htr, elem_of_app. auto.
  - intros _ m r m1 o m2 Hb _ IH Hm. apply IH. apply run_body_post_of in Hb.
    destruct Hb as (_ & _ & tr & Htr & _ & Hdisj & _).
    destruct Hdisj as [Hsame | ((y & c & Hy & Hc & Hr) & _)].
    + destruct Hm as (y & c & r' & f & Hy & Hc & Hr).
      unfold markov in Hsame. unfold quenched. injection Hsame as -> ->.
      exists y, c, r', f. rewrite Htr, elem_of_app. auto.
    + exists y, c, (rms (self m1)), (funcalls (self m1)).
      rewrite Htr, elem_of_app. auto.
Qed.

Section Rules.

Lemma same_settings_refl (s : BH) : same_settings s s.
Proof. repeat split. Qed.

Lemma same_settings_trans (s1 s2 s3 : BH) :
  same_settings s1 s2 -> same_settings s2 s3 -> same_settings s1 s3.
Proof.
  unfold same_settings.
  intros (A1 & A2 & A3 & A4 & A5 & A6 & A7 & A8 & A9 & A10)
         (B1 & B2 & B3 & B4 & B5 & B6 & B7 & B8 & B9 & B10).
  repeat split; congruence.
Qed.

Lemma keeps_ret {A} (a : A) : keeps_settings (ret a : M float W BH A).
Proof. intros m. apply same_settings_refl. Qed.

Lemma keeps_get_self : keeps_settings (get_self : M float W BH BH).
Proof. intros m. apply same_settings_refl. Qed.

Lemma keeps_copy a : keeps_settings (copy a : M float W BH loc).
Proof.
  intros m. unfold copy. destruct (heap (store m) !! a); apply same_settings_refl.
Qed.

Lemma keeps_call {A} c (r : A -> Ret float) (f : Callee float W A) :
  keeps_settings (call c r f : M float W BH A).
Proof.
  intros m. unfold call. destruct (f (store m)). apply same_settings_refl.
Qed.

Lemma keeps_store_if (sink : option (Storage float W)) (E : float) (c : loc) :
  keeps_settings (store_if sink E c : M float W BH unit).
Proof.
  intros m. unfold store_if.
  destruct sink as [st|]; [destruct (__nonzero__ st (store m))|].
  - apply (keeps_call (CStorage E c) r_unit (__call__ st E c)).
  - apply same_settings_refl.
  - apply same_settings_refl.
Qed.

Lemma keeps_modify_self (f : BH -> BH) :
  (forall s, same_settings s (f s)) ->
  keeps_settings (modify_self f : M float W BH unit).
Proof. intros Hf m. apply Hf. Qed.

Lemma keeps_bind {A B} (c : M float W BH A) (k : A -> M float W BH B) :
  keeps_settings c -> (forall a, keeps_settings (k a)) ->
  keeps_settings (bind c k).
Proof.
  intros Hc Hk m. unfold bind. specialize (Hc m).
  destruct (c m) as [[a|e] m1]; simpl in *; [|exact Hc].
  eapply same_settings_trans; [exact Hc|apply Hk].
Qed.

Lemma keeps_for_in {A B} (body : nat -> A -> B -> M float W BH B) (xs : list A) :
  (forall i x acc, keeps_settings (body i x acc)) ->
  forall i acc, keeps_settings (for_in i xs body acc).
Proof.
  intros Hb. induction xs as [|x xs IH]; intros i acc; simpl.
  - apply keeps_ret.
  - apply keeps_bind; [apply Hb|]. intros a. apply IH.
Qed.

End Rules.

Ltac keeps :=
  repeat first
    [ apply keeps_ret | apply keeps_get_self | apply keeps_copy
    | apply keeps_call
    | apply keeps_modify_self; intros ?; repeat split
    | apply keeps_store_if
    | apply keeps_bind; [|intros ?]
    | apply keeps_for_in; intros ? ? ?
    | match goal with
      | |- keeps_settings (match ?x with _ => _ end) => destruct x
      end ].

Lemma mcStep_keeps c0 E0 : keeps_settings (mcStep c0 E0 : M float W BH _).
Proof. unfold mcStep. keeps. Qed.

Lemma run_body_keeps : keeps_settings (run_body : M float W BH _).
Proof. unfold run_body. keeps. Qed.

Lemma run_keeps n : keeps_settings (run n : M float W BH _).
Proof.
  unfold run. apply keeps_for_in. intros i x acc.
  apply keeps_bind; [apply run_body_keeps|intros a; apply keeps_ret].
Qed.

End Invariants.

(** X8.  The Markov state always comes from one call of the quench routine:
    after a constructor that returns, and after every call of [run] from a
    driver of which this holds, whether [run] returns or raises, [coords]
    and [markovE] are the configuration and the energy that some quench call
    of the trace returned together. *)
Theorem markov_state_is_quenched {float W}
    (Metropolis : float -> MetropolisT float W)
    start potential takeStep sink event_after_step acceptTests temperature
    nometropolis quenchRoutine outstream (w : Machine float W unit)
    (b : BasinHopping float W)
    (m : Machine float W (BasinHopping float W)) (n : Z) :
  let init := __init__ Metropolis start potential takeStep sink
                event_after_step acceptTests temperature nometropolis
                quenchRoutine outstream in
  (fst (init w) = Ok b -> quenched (with_self b (snd (init w)))) /\
  (quenched m -> quenched (snd (run n m))).
Proof.
  intros init. split.
  - intros H.
    pose proof (init_post_of Metropolis start potential takeStep sink
                  event_after_step acceptTests temperature nometropolis
                  quenchRoutine outstream w _ _ (surjective_pairing _)) as Hp.
    fold init in Hp. rewrite H in Hp.
    destruct Hp as (tr & Htr & _ & Hok).
    destruct Hok as (_ & _ & _ & _ & _ & _ & _ & _ & _ & _ & _ & Hcalls).
    destruct Hcalls as (potel & x & y & _ & _ & _ & _ & Hy & Hyc & Hyr).
    exists y, (length (heap (store w))), (rms b), (funcalls b).
    split; [|auto]. change (trace (with_self b (snd (init w))))
      with (trace (snd (init w))).
    rewrite Htr, elem_of_app. auto.
  - rewrite run_eq. apply run_loop_quenched.
Qed.

(** Construction at [(3, 0)], then a descent of three steps. *)
Lemma markov_state_is_quenched_witness :
  let init := __init__ Scenario.Metropolis 0%nat Scenario.quadratic
                (Scenario.shift [-1; 0]) None [] [Scenario.downhill] 1 true
                Scenario.identity_quench Scenario.out in
  let b := self (Scenario.driver [Scenario.downhill] [] None [-1; 0]) in
  let m := with_self b (snd (init Scenario.world)) in
  fst (init Scenario.world) = Ok b /\
  quenched m /\ quenched (snd (run 3 m)) /\
  markov (self (snd (run 3 m))) = (7%nat, 0).
Proof.
  intros init b m.
  assert (Hb : fst (init Scenario.world) = Ok b) by (vm_compute; reflexivity).
  destruct (markov_state_is_quenched Scenario.Metropolis 0%nat
              Scenario.quadratic (Scenario.shift [-1; 0]) None []
              [Scenario.downhill] 1 true Scenario.identity_quench Scenario.out
              Scenario.world b m 3) as (Hinit & Hrun).
  split; [exact Hb|]. split; [exact (Hinit Hb)|].
  split; [exact (Hrun (Hinit Hb))|]. vm_compute. reflexivity.
Defined.

(** X9.  [run] assigns no field of the driver other than [coords],
    [markovE], [stepnum], [rms] and [funcalls]: the collaborators, the two
    lists, the temperature and the Metropolis settings are, after [run], what
    they were before, whether it returns or raises. *)
Theorem run_leaves_settings {float W}
    (m : Machine float W (BasinHopping float W)) (n : Z) :
  same_settings (self m) (self (snd (run n m))).
Proof. apply run_keeps. Qed.

(** ** The recording potential *)

(** X10.  A [potwrap] records the points whose gradient is asked for, and
    nothing else: a gradient request appends its point to [trajectory]
    before the wrapped potential is evaluated, so also when that raises; an
    energy request leaves the object as it is; after any sequence of
    requests the trajectory is the old one followed by the points of the
    gradient requests, in order, and the wrapped potential is the same. *)
Theorem potwrap_records_gradient_points {float W}
    (this : Potwrap.potwrap float W) (x : loc) (s : Store float W)
    (rs : list Potwrap.request) :
  Potwrap.trajectory (fst (snd (Potwrap.getEnergyGradient this x s))) =
    Potwrap.trajectory this ++ [x] /\
  fst (snd (Potwrap.getEnergy this x s)) = this /\
  Potwrap.trajectory (fst (snd (Potwrap.serve rs this s))) =
    Potwrap.trajectory this ++ Potwrap.gradient_points rs /\
  Potwrap.potential (fst (snd (Potwrap.serve rs this s))) =
    Potwrap.potential this /\
  length (fst (Potwrap.serve rs this s)) = length rs.
Proof.
  split; [|split].
  - unfold Potwrap.getEnergyGradient. simpl.
    now destruct (getEnergyGradient (Potwrap.potential this) x s).
  - unfold Potwrap.getEnergy.
    now destruct (getEnergy (Potwrap.potential this) x s).
  - revert this s. induction rs as [|[y|y] rs IH]; intros this s; simpl.
    + rewrite app_nil_r. auto.
    + unfold Potwrap.getEnergy.
      destruct (getEnergy (Potwrap.potential this) y s) as [o s1].
      destruct (IH this s1) as (H1 & H2 & H3).
      destruct (Potwrap.serve rs this s1) as [os [this' s']]. simpl in *.
      repeat split; auto.
    + unfold Potwrap.getEnergyGradient. simpl.
      destruct (getEnergyGradient (Potwrap.potential this) y s) as [o s1].
      destruct (IH (Potwrap.mkPotwrap (Potwrap.potential this)
                      (Potwrap.trajectory this ++ [y])) s1) as (H1 & H2 & H3).
      destruct (Potwrap.serve rs _ s1) as [os [this' s']]. simpl in *.
      rewrite H1, <- app_assoc. repeat split; auto.
Qed.

(** A wrapped potential that fails from its third gradient evaluation on:
    the failed requests are recorded too. *)
Lemma potwrap_records_gradient_points_witness :
  let this := Potwrap.__init__ Cases.tiring in
  let rs := [Potwrap.Gradient 0%nat; Potwrap.Energy 0%nat;
             Potwrap.Gradient 0%nat; Potwrap.Gradient 0%nat] in
  let s := mkStore [[3; 0]] O in
  fst (Potwrap.serve rs this s) = [true; true; true; false] /\
  Potwrap.trajectory (fst (snd (Potwrap.serve rs this s))) = [0; 0; 0]%nat.
Proof.
  intros this rs s. split; [vm_compute; reflexivity|].
  destruct (potwrap_records_gradient_points this 0%nat s rs)
    as (_ & _ & Htraj & _).
  exact Htraj.
Defined.

(** ** What a step calls *)

Section StepCalls.

Context {float W : Type}.

Local Abbreviation BH := (BasinHopping float W).
Local Abbreviation Mach := (Machine float W BH).

Lemma filter_map_none {A B} (p : B -> bool) (f : A -> B) (l : list A) :
  (forall a, p (f a) = false) -> List.filter p (map f l) = [].
Proof.
  intros H. induction l as [|a l IH]; simpl; [reflexivity|].
  now rewrite H, IH.
Qed.

Lemma iteration_perturbs_once (m m' : Mach) l acc stored q E :
  List.filter is_takeStep (iteration_calls m m' l acc stored q E)
    = [CTakeStep l] /\
  List.filter is_quench (iteration_calls m m' l acc stored q E)
    = [CQuench l].
Proof.
  unfold iteration_calls, test_calls_of, event_calls_of.
  rewrite !List.filter_app, !filter_map_none by reflexivity.
  split; destruct acc; [destruct stored| |destruct stored|]; reflexivity.
Qed.

Lemma run_loop_perturbations n (m : Mach) :
  let m' := snd (run_loop n m) in
  exists tr,
    trace m' = trace m ++ tr /\
    (fst (run_loop n m) = Ok tt ->
     length (calls is_takeStep tr) = n /\ length (calls is_quench tr) = n).
Proof.
  revert n m.
  apply (run_loop_ind (fun n (m : Mach) o (m' : Mach) =>
    exists tr,
      trace m' = trace m ++ tr /\
      (o = Ok tt ->
       length (calls is_takeStep tr) = n /\ length (calls is_quench tr) = n))).
  - intros m. exists []. rewrite app_nil_r. auto.
  - intros n m e m1 Hb.
    pose proof (run_body_order_of _ _ _ Hb) as (tr & Htr & _).
    exists tr. split; [exact Htr|discriminate].
  - intros n m [[acc q] E] m1 o m2 Hb _ (tr2 & Htr2 & Hok2).
    pose proof (run_body_order_of _ _ _ Hb)
      as (tr & Htr & _ & _ & _ & sw & _ & Hcalls).
    exists (tr ++ tr2). split; [now rewrite Htr2, Htr, <- app_assoc|].
    intros Ho. destruct (Hok2 Ho) as (H1 & H2).
    destruct (iteration_perturbs_once m m1 (length (heap (store m))) acc
                (truth_value (storage (self m)) sw) q E)
      as (Ht & Hq).
    rewrite !calls_app, !length_app, H1, H2.
    rewrite (calls_map _ _ _ Hcalls), Ht.
    rewrite (calls_map _ _ _ Hcalls), Hq. auto.
Qed.

End StepCalls.

(** X11.  [mcStep] calls nothing but the perturbation, the quench routine
    and the accept tests, whether it returns or raises: it does not write
    to the output stream, call the storage, notify an observer or evaluate the
    energy; every call it makes is a call of that collaborator of the driver
    which took place, in the store the call before it left; and of the
    driver it assigns only [rms] and [funcalls]: [coords], [markovE] and
    [stepnum] are as they were, and so are the storage, the potential, the
    perturbation, the observers, the accept tests, the temperature,
    [nometropolis], the quench routine, the output stream and the
    Metropolis object. *)
Theorem mcStep_only_evaluates {float W}
    (m : Machine float W (BasinHopping float W))
    (coordsold : loc) (Equench_old : float) :
  let m' := snd (mcStep coordsold Equench_old m) in
  (forall x, x ∈ new_trace m m' -> step_call (e_call x)) /\
  threaded (self m) (store m) (new_trace m m') (store m') /\
  markov (self m') = markov (self m) /\
  stepnum (self m') = stepnum (self m) /\
  same_settings (self m) (self m').
Proof.
  intros m'.
  pose proof (mcStep_post_of m coordsold Equench_old _ _
                (surjective_pairing _)) as Hp.
  fold m' in Hp. destruct Hp as (Hsc & Hmk & Hsn & tr & Htr & Hstep & _).
  split; [now rewrite (new_trace_app _ _ _ Htr)|].
  split; [apply mcStep_threaded|]. split; [exact Hmk|]. split; [exact Hsn|].
  apply mcStep_keeps.
Qed.

(** X12.  A call [run(n)] that returns has called the perturbation [n]
    times and the quench routine [n] times, once each per step; each of
    these is a call of the driver's perturbation, or of its quench routine
    with the gradient of its potential, that took place in the store the call
    before it left, and returned. *)
Theorem run_perturbs_once_per_step {float W}
    (m : Machine float W (BasinHopping float W)) (n : Z) :
  fst (run n m) = Ok tt ->
  let tr := new_trace m (snd (run n m)) in
  length (calls is_takeStep tr) = Z.to_nat n /\
  length (calls is_quench tr) = Z.to_nat n /\
  (forall x l, x ∈ tr -> e_call x = CTakeStep l ->
     exists s', takeStep (self m) l (e_store x) = (Ok tt, s') /\
                e_ret x = RUnit) /\
  (forall x l, x ∈ tr -> e_call x = CQuench l ->
     exists q E r f s',
       quenchRoutine (self m) l (getEnergyGradient (potential (self m)))
         (e_store x) = (Ok (q, E, r, f), s') /\
       e_ret x = RQuench q E r f) /\
  threaded (self m) (store m) tr (store (snd (run n m))).
Proof.
  rewrite run_eq. intros H tr.
  destruct (run_loop_perturbations (Z.to_nat n) m) as (tr' & Htr & Hok).
  pose proof (run_loop_threaded (Z.to_nat n) m) as Ht.
  pose proof (run_loop_quiet _ m H) as Hq.
  fold tr in Ht, Hq.
  assert (tr = tr') as Heq by (now apply new_trace_app).
  destruct (Hok H) as (H1 & H2). rewrite <- Heq in H1, H2.
  split; [exact H1|]. split; [exact H2|]. split; [|split; [|exact Ht]].
  - intros x l Hx Hc. eapply threaded_takeStep; eauto.
  - intros x l Hx Hc. eapply threaded_quench; eauto.
Qed.

(** Four steps, the last three rejected: each perturbation was applied to
    its own working copy, which holds the displaced configuration. *)
Lemma run_perturbs_once_per_step_witness :
  let m := Scenario.driver [Scenario.downhill] [] None [-3; 0] in
  fst (run 4 m) = Ok tt /\
  calls is_takeStep (new_trace m (snd (run 4 m))) =
    [CTakeStep 3; CTakeStep 5; CTakeStep 7; CTakeStep 9] /\
  length (calls is_quench (new_trace m (snd (run 4 m)))) = 4%nat /\
  heap (store (snd (run 4 m))) !! 1%nat = Some [3; 0] /\
  heap (store (snd (run 4 m))) !! 3%nat = Some [0; 0] /\
  heap (store (snd (run 4 m))) !! 5%nat = Some [-3; 0] /\
  heap (store (snd (run 4 m))) !! 7%nat = Some [-3; 0] /\
  heap (store (snd (run 4 m))) !! 9%nat = Some [-3; 0].
Proof.
  intros m.
  assert (H : fst (run 4 m) = Ok tt) by (vm_compute; reflexivity).
  destruct (run_perturbs_once_per_step m 4 H) as (_ & Hq & _).
  split; [exact H|]. split; [vm_compute; reflexivity|]. split; [exact Hq|].
  repeat split; vm_compute; reflexivity.
Defined.
